(** * The announce delivery queue of the sub-agent announce flow

    A shallow embedding of the per-key announce queue
    ([getAnnounceQueue], [enqueueAnnounce], [waitForQueueDebounce],
    [buildSummaryPrompt], [buildCollectPrompt], [hasCrossChannelItems],
    [scheduleAnnounceDrain]) and the properties its specification states.

    Conventions of the embedding:
    - a JavaScript string is the list of its UTF-16 code units, so that
      [length] is [String.prototype.length] and the ellipsis U+2026 is one
      unit;
    - an optional field ([x?: T]) is an [option];
    - a JavaScript number that the code only counts with is a [nat] or a
      [Z]; the numbers a caller supplies in the settings ([debounceMs],
      [cap]) are rationals, so that [Math.floor] and [Math.max] keep their
      meaning ([NaN] and the infinities are outside the model);
    - [Date.now()] is an argument of the function that reads it;
    - the module-level [Map] is a [gmap] threaded through the functions that
      touch it. *)

From Stdlib Require Import ZArith QArith Qround Qminmax Lia Lqa Ascii String.
From stdpp Require Import base option list gmap pretty.

Close Scope Q_scope.
Open Scope nat_scope.

(** ** JavaScript strings *)

Abbreviation jsstring := (list N).

(** A string literal of the source, as code units. *)
Definition js (s : string) : jsstring :=
  (λ a, N_of_ascii a) <$> String.list_ascii_of_string s.

(** [String(n)] for a non-negative integer. *)
Definition jsOfNat (n : nat) : jsstring := js (pretty n).

(** The ellipsis of [elideText]. *)
Definition ellipsis : N := 8230%N.

(** ECMAScript [WhiteSpace] and [LineTerminator]: what [trim], [trimEnd]
    and the regular expression class [\s] match. *)
Definition isWhiteSpace (c : N) : bool :=
  ((9 <=? c) && (c <=? 13) || (c =? 32) || (c =? 160) || (c =? 5760)
   || (8192 <=? c) && (c <=? 8202) || (c =? 8232) || (c =? 8233)
   || (c =? 8239) || (c =? 8287) || (c =? 12288) || (c =? 65279))%N.

Fixpoint trimStart (s : jsstring) : jsstring :=
  match s with
  | [] => []
  | c :: r => if isWhiteSpace c then trimStart r else s
  end.

Definition trimEnd (s : jsstring) : jsstring := rev (trimStart (rev s)).

Definition trim (s : jsstring) : jsstring := trimEnd (trimStart s).

(** [s.replace(/\s+/g, " ")]: every maximal run of white space becomes one
    space. [inRun] says that the previous unit was white space. *)
Fixpoint collapseFrom (inRun : bool) (s : jsstring) : jsstring :=
  match s with
  | [] => []
  | c :: r =>
      if isWhiteSpace c
      then (if inRun then collapseFrom true r else 32%N :: collapseFrom true r)
      else c :: collapseFrom false r
  end.

Definition collapseWhiteSpace (s : jsstring) : jsstring := collapseFrom false s.

(** [parts.join(sep)]. *)
Fixpoint join (sep : jsstring) (parts : list jsstring) : jsstring :=
  match parts with
  | [] => []
  | [p] => p
  | p :: rest => p ++ sep ++ join sep rest
  end.

(** Truthiness of an optional string: [undefined] and [""] are falsy. *)
Definition truthy (o : option jsstring) : bool :=
  match o with
  | Some (_ :: _) => true
  | _ => false
  end.

(** ** Data model *)

Record AnnounceQueueItem := mkItem {
  prompt : jsstring;
  summaryLine : option jsstring;
  enqueuedAt : Z;
  sessionKey : jsstring;
  originatingChannel : option jsstring;
  originatingTo : option jsstring;
  originatingAccountId : option jsstring
}.

(** [QueueMode] and [QueueDropPolicy] are string-literal unions declared
    outside this module; the code only compares them with literals, so they
    are kept as strings. *)
Record AnnounceQueueState := mkQueue {
  items : list AnnounceQueueItem;
  draining : bool;
  lastEnqueuedAt : Z;
  mode : jsstring;
  debounceMs : Q;
  cap : Z;
  dropPolicy : jsstring;
  droppedCount : nat;
  summaryLines : list jsstring
}.

(** The [settings] argument of [getAnnounceQueue] and [enqueueAnnounce]. *)
Record QueueSettings := mkSettings {
  s_mode : jsstring;
  s_debounceMs : option Q;
  s_cap : option Q;
  s_dropPolicy : option jsstring
}.

#[global] Instance item_eq_dec : EqDecision AnnounceQueueItem.
Proof. solve_decision. Defined.

(** Field updates, one per assignment of the source. *)
Definition withItems (l : list AnnounceQueueItem) (q : AnnounceQueueState) :=
  mkQueue l (draining q) (lastEnqueuedAt q) (mode q) (debounceMs q) (cap q)
          (dropPolicy q) (droppedCount q) (summaryLines q).

Definition withDraining (b : bool) (q : AnnounceQueueState) :=
  mkQueue (items q) b (lastEnqueuedAt q) (mode q) (debounceMs q) (cap q)
          (dropPolicy q) (droppedCount q) (summaryLines q).

Definition withLastEnqueuedAt (t : Z) (q : AnnounceQueueState) :=
  mkQueue (items q) (draining q) t (mode q) (debounceMs q) (cap q)
          (dropPolicy q) (droppedCount q) (summaryLines q).

Definition withDropped (n : nat) (l : list jsstring) (q : AnnounceQueueState) :=
  mkQueue (items q) (draining q) (lastEnqueuedAt q) (mode q) (debounceMs q)
          (cap q) (dropPolicy q) n l.

Definition withPrompt (p : jsstring) (i : AnnounceQueueItem) :=
  mkItem p (summaryLine i) (enqueuedAt i) (sessionKey i)
         (originatingChannel i) (originatingTo i) (originatingAccountId i).

(** The module-level [ANNOUNCE_QUEUES]. *)
Abbreviation Store := (gmap jsstring AnnounceQueueState).

(** ** Looking a queue up, or creating it *)

(** The settings part of [getAnnounceQueue] on an existing entry. *)
Definition mergeSettings (s : QueueSettings) (q : AnnounceQueueState)
  : AnnounceQueueState :=
  mkQueue (items q) (draining q) (lastEnqueuedAt q)
    (s_mode s)
    (match s_debounceMs s with
     | Some d => Qmax 0 d
     | None => debounceMs q
     end)
    (match s_cap s with
     | Some c => if Qlt_le_dec 0 c then Qfloor c else cap q
     | None => cap q
     end)
    (default (dropPolicy q) (s_dropPolicy s))
    (droppedCount q) (summaryLines q).

(** The entry [getAnnounceQueue] creates for a key that has none. *)
Definition createdQueue (s : QueueSettings) : AnnounceQueueState :=
  mkQueue [] false 0%Z
    (s_mode s)
    (match s_debounceMs s with
     | Some d => Qmax 0 d
     | None => 1000%Q
     end)
    (match s_cap s with
     | Some c => if Qlt_le_dec 0 c then Qfloor c else 20%Z
     | None => 20%Z
     end)
    (default (js "summarize") (s_dropPolicy s))
    0 [].

(** [getAnnounceQueue]: the store afterwards and the entry it returns (which
    is the one stored under [key]). *)
Definition getAnnounceQueue (key : jsstring) (s : QueueSettings) (st : Store)
  : Store * AnnounceQueueState :=
  match st !! key with
  | Some existing =>
      let q := mergeSettings s existing in (<[key := q]> st, q)
  | None =>
      let created := createdQueue s in (<[key := created]> st, created)
  end.

(** ** Summaries of dropped items *)

Definition elideText (text : jsstring) (limit : nat) : jsstring :=
  if length text <=? limit then text
  else trimEnd (take (limit - 1) text) ++ [ellipsis].

Definition buildQueueSummaryLine (item : AnnounceQueueItem) : jsstring :=
  let base :=
    match summaryLine item with
    | Some s => match trim s with
                | [] => trim (prompt item)
                | t => t
                end
    | None => trim (prompt item)
    end in
  let cleaned := trim (collapseWhiteSpace base) in
  elideText cleaned 160.

(** ** Admission *)

(** [while (lines.length > cap) lines.shift()]. *)
Fixpoint shiftWhileLonger (capacity : Z) (lines : list jsstring) : list jsstring :=
  match lines with
  | [] => []
  | _ :: rest =>
      if (capacity <? Z.of_nat (length lines))%Z
      then shiftWhileLonger capacity rest
      else lines
  end.

(** The body of [enqueueAnnounce] from the capacity test on, on the entry
    it works on: the entry afterwards and the boolean returned. *)
Definition admitItem (item : AnnounceQueueItem) (queue : AnnounceQueueState)
  : AnnounceQueueState * bool :=
  let capacity := cap queue in
  if ((0 <? capacity) && (capacity <=? Z.of_nat (length (items queue))))%Z
  then
    if decide (dropPolicy queue = js "new")
    then (queue, false)
    else
      let dropCount := Z.to_nat (Z.of_nat (length (items queue)) - capacity + 1) in
      let dropped := take dropCount (items queue) in
      let kept := drop dropCount (items queue) in
      let queue1 :=
        if decide (dropPolicy queue = js "summarize")
        then withDropped
               (droppedCount queue + length dropped)
               (shiftWhileLonger capacity
                  (summaryLines queue ++ (buildQueueSummaryLine <$> dropped)))
               queue
        else queue in
      (withItems (kept ++ [item]) queue1, true)
  else (withItems (items queue ++ [item]) queue, true).

(** [enqueueAnnounce key item settings] at time [now]: the store afterwards
    and the boolean it returns. *)
Definition enqueueAnnounce (key : jsstring) (item : AnnounceQueueItem)
    (s : QueueSettings) (now : Z) (st : Store) : Store * bool :=
  let '(st1, q0) := getAnnounceQueue key s st in
  let '(queue, accepted) := admitItem item (withLastEnqueuedAt now q0) in
  (<[key := queue]> st1, accepted).

(** ** Payload construction *)

Definition nl : jsstring := [10%N].

(** The first line of the overflow notice. *)
Definition overflowHeader (n : nat) : jsstring :=
  js "[Queue overflow] Dropped " ++ jsOfNat n ++ js " announce"
     ++ (if n =? 1 then [] else js "s") ++ js " due to cap.".

(** [buildSummaryPrompt]: the notice, if any, and the queue afterwards (the
    function resets [droppedCount] and [summaryLines] when it builds one). *)
Definition buildSummaryPrompt (q : AnnounceQueueState)
  : option jsstring * AnnounceQueueState :=
  if negb (bool_decide (dropPolicy q = js "summarize")) || (droppedCount q <=? 0)
  then (None, q)
  else
    let lines :=
      overflowHeader (droppedCount q) ::
      match summaryLines q with
      | [] => []
      | _ => js "Summary:" :: ((λ line, js "- " ++ line) <$> summaryLines q)
      end in
    (Some (join nl lines), withDropped 0 [] q).

(** One block of the combined payload; [idx] counts from 0. *)
Definition collectBlock (idx : nat) (item : AnnounceQueueItem) : jsstring :=
  trim (js "---" ++ nl ++ js "Queued #" ++ jsOfNat (idx + 1) ++ nl ++ prompt item).

Definition collectMarker : jsstring :=
  js "[Queued announce messages while agent was busy]".

Definition buildCollectPrompt (batch : list AnnounceQueueItem)
    (summary : option jsstring) : jsstring :=
  let blocks :=
    [collectMarker]
      ++ (if truthy summary then [default [] summary] else [])
      ++ imap collectBlock batch in
  join (nl ++ nl) blocks.

(** ** Cross-destination detection *)

Definition falsy (o : option jsstring) : bool := negb (truthy o).

(** [[channel, to, accountId || ""].join("|")]. *)
Definition destKey (item : AnnounceQueueItem) : jsstring :=
  join (js "|")
    [default [] (originatingChannel item);
     default [] (originatingTo item);
     (if truthy (originatingAccountId item)
      then default [] (originatingAccountId item) else [])].

(** The [for] loop of [hasCrossChannelItems] with its two accumulators, and
    the three tests after it. *)
Fixpoint crossChannelLoop (keys : gset jsstring) (hasUnkeyed : bool)
    (l : list AnnounceQueueItem) : bool :=
  match l with
  | [] =>
      if size keys =? 0 then false
      else if hasUnkeyed then true
      else 1 <? size keys
  | item :: rest =>
      if falsy (originatingChannel item) && falsy (originatingTo item)
         && falsy (originatingAccountId item)
      then crossChannelLoop keys true rest
      else if falsy (originatingChannel item) || falsy (originatingTo item)
      then true
      else crossChannelLoop ({[destKey item]} ∪ keys) hasUnkeyed rest
  end.

Definition hasCrossChannelItems (l : list AnnounceQueueItem) : bool :=
  crossChannelLoop ∅ false l.

(** ** One pass of the drain loop *)

(** How the body of the [while] loop ends: with a call of [sendAnnounce]
    (followed by [continue] if the call resolves) or with [break]. *)
Inductive PassResult :=
| PassSend (arg : AnnounceQueueItem)
| PassBreak.

(** [const next = queue.items.shift(); if (!next) break;
     await sendAnnounce(f(next))]. *)
Definition shiftAndSend (f : AnnounceQueueItem → AnnounceQueueItem)
    (q : AnnounceQueueState) : AnnounceQueueState * PassResult :=
  match items q with
  | [] => (q, PassBreak)
  | next :: rest => (withItems rest q, PassSend (f next))
  end.

(** The loop body after [waitForQueueDebounce] has returned, up to the
    [sendAnnounce] call or the [break]: the queue afterwards, the local
    [forceIndividualCollect] afterwards, and how the body ends. *)
Definition drainPass (forceIndividualCollect : bool) (q : AnnounceQueueState)
  : AnnounceQueueState * bool * PassResult :=
  if bool_decide (mode q = js "collect") then
    if forceIndividualCollect then
      let '(q1, r) := shiftAndSend id q in (q1, true, r)
    else if hasCrossChannelItems (items q) then
      let '(q1, r) := shiftAndSend id q in (q1, true, r)
    else
      let batch := items q in
      let '(summary, q2) := buildSummaryPrompt (withItems [] q) in
      let p := buildCollectPrompt batch summary in
      match last batch with
      | None => (q2, false, PassBreak)
      | Some l => (q2, false, PassSend (withPrompt p l))
      end
  else
    let '(summaryPrompt, q1) := buildSummaryPrompt q in
    if truthy summaryPrompt then
      let '(q2, r) := shiftAndSend (withPrompt (default [] summaryPrompt)) q1 in
      (q2, forceIndividualCollect, r)
    else
      let '(q2, r) := shiftAndSend id q1 in
      (q2, forceIndividualCollect, r).

(** The [while] condition and the test of the [finally] block. *)
Definition loopGuard (q : AnnounceQueueState) : bool :=
  (0 <? length (items q)) || (0 <? droppedCount q).

Definition quiescent (q : AnnounceQueueState) : bool :=
  (length (items q) =? 0) && (droppedCount q =? 0).

(** ** The drains and the store together *)

(** Where a running drain is suspended. *)
Inductive Phase :=
| AwaitDebounce   (* in [await waitForQueueDebounce(queue)] *)
| AwaitSend.      (* in [await sendAnnounce(...)] *)

(** A running instance of the anonymous async function of
    [scheduleAnnounceDrain]: its [key], its local [forceIndividualCollect]
    and its suspension point. The [queue] it captured is the entry stored
    under [key]: only the instance's own [finally] block deletes it. *)
Record Drain := mkDrain {
  d_key : jsstring;
  d_force : bool;
  d_phase : Phase
}.

(** The store, the running drains (numbered in the order they were
    spawned; the numbers are a device of the model) and the arguments of
    the [sendAnnounce] calls made so far, oldest first. *)
Record Sys := mkSys {
  store : Store;
  drains : gmap nat Drain;
  spawned : nat;
  sent : list AnnounceQueueItem
}.

Definition initSys : Sys := mkSys ∅ ∅ 0 [].

(** [scheduleAnnounceDrain]. The new instance runs up to its first [await]:
    when the loop condition holds that is the debounce wait; when it does
    not, the [finally] block runs at once, and its test holds because it is
    the negation of the loop condition (lemma [loopGuard_quiescent]). *)
Definition scheduleAnnounceDrain (key : jsstring) (s : Sys) : Sys :=
  match store s !! key with
  | None => s
  | Some q =>
      if draining q then s
      else
        let q1 := withDraining true q in
        if loopGuard q1
        then mkSys (<[key := q1]> (store s))
                   (<[spawned s := mkDrain key false AwaitDebounce]> (drains s))
                   (S (spawned s)) (sent s)
        else mkSys (delete key (store s)) (drains s) (spawned s) (sent s)
  end.

(** The [finally] block of instance [n], which stops running. *)
Definition drainFinally (n : nat) (key : jsstring) (s : Sys) : Sys :=
  match store s !! key with
  | None => mkSys (store s) (delete n (drains s)) (spawned s) (sent s)
  | Some q =>
      let q1 := withDraining false q in
      if quiescent q1
      then mkSys (delete key (store s)) (delete n (drains s)) (spawned s) (sent s)
      else scheduleAnnounceDrain key
             (mkSys (<[key := q1]> (store s)) (delete n (drains s))
                    (spawned s) (sent s))
  end.

(** What can happen next: a call of [enqueueAnnounce] or of
    [scheduleAnnounceDrain] from outside, the debounce wait of an instance
    returning, or the transport call of an instance resolving ([true]) or
    throwing ([false]). *)
Inductive Action :=
| AEnqueue (key : jsstring) (item : AnnounceQueueItem) (s : QueueSettings) (now : Z)
| ASchedule (key : jsstring)
| AWake (n : nat)
| ASendDone (n : nat) (ok : bool).

(** One uninterrupted stretch of execution; [None] when the action is not
    enabled. *)
Definition step (a : Action) (s : Sys) : option Sys :=
  match a with
  | AEnqueue key item settings now =>
      Some (mkSys (enqueueAnnounce key item settings now (store s)).1
                  (drains s) (spawned s) (sent s))
  | ASchedule key => Some (scheduleAnnounceDrain key s)
  | AWake n =>
      d ← drains s !! n;
      q ← store s !! d_key d;
      match d_phase d with
      | AwaitSend => None
      | AwaitDebounce =>
          let '(q1, force1, r) := drainPass (d_force d) q in
          let st1 := <[d_key d := q1]> (store s) in
          match r with
          | PassSend arg =>
              Some (mkSys st1
                      (<[n := mkDrain (d_key d) force1 AwaitSend]> (drains s))
                      (spawned s) (sent s ++ [arg]))
          | PassBreak =>
              Some (drainFinally n (d_key d)
                      (mkSys st1 (drains s) (spawned s) (sent s)))
          end
      end
  | ASendDone n ok =>
      d ← drains s !! n;
      q ← store s !! d_key d;
      match d_phase d with
      | AwaitDebounce => None
      | AwaitSend =>
          if ok && loopGuard q
          then Some (mkSys (store s)
                       (<[n := mkDrain (d_key d) (d_force d) AwaitDebounce]> (drains s))
                       (spawned s) (sent s))
          else Some (drainFinally n (d_key d) s)
      end
  end.

(** A run of the system. *)
Fixpoint run (acts : list Action) (s : Sys) : option Sys :=
  match acts with
  | [] => Some s
  | a :: rest => s1 ← step a s; run rest s1
  end.

Definition reachable (s : Sys) : Prop :=
  ∃ acts, run acts initSys = Some s.

(** ** The debounce wait *)

(** How far [waitForQueueDebounce] got: it returned at time [at_] having read
    [last] as [lastEnqueuedAt], or it is suspended on a timer of [delay]
    milliseconds. *)
Inductive WaitOutcome :=
| Returned (at_ : Z) (last : Z)
| Suspended (delay : Q).

(** The [while (true)] loop. [now] and [q] are the clock and the queue at
    the current check; [wakes] lists, for every later run of the timer
    callback, the clock and the queue at that moment. *)
Fixpoint debounceLoop (debounce : Q) (now : Z) (q : AnnounceQueueState)
    (wakes : list (Z * AnnounceQueueState)) : WaitOutcome :=
  let since := (now - lastEnqueuedAt q)%Z in
  if Qle_bool debounce (inject_Z since) then Returned now (lastEnqueuedAt q)
  else
    match wakes with
    | [] => Suspended (debounce - inject_Z since)%Q
    | (now1, q1) :: rest => debounceLoop debounce now1 q1 rest
    end.

(** [waitForQueueDebounce queue], called at time [now]. *)
Definition waitForQueueDebounce (q : AnnounceQueueState) (now : Z)
    (wakes : list (Z * AnnounceQueueState)) : WaitOutcome :=
  let debounce := Qmax 0 (debounceMs q) in
  if Qle_bool debounce 0 then Returned now (lastEnqueuedAt q)
  else debounceLoop debounce now q wakes.

(** ** Reference notions

    Definitions that the statements below use and the code does not
    contain. *)

(** The words of a string: its maximal runs of units that are not white
    space. This is the reference against which the summary line is
    checked; the code itself never splits a string. *)
Fixpoint words (s : jsstring) : list jsstring :=
  match s with
  | [] => []
  | c :: r =>
      if isWhiteSpace c then words r
      else
        match r with
        | [] => [[c]]
        | c2 :: _ =>
            if isWhiteSpace c2 then [c] :: words r
            else
              match words r with
              | w :: rest => (c :: w) :: rest
              | [] => [[c]]
              end
        end
  end.

Definition headIsWhiteSpace (s : jsstring) : bool :=
  match s with
  | c :: _ => isWhiteSpace c
  | [] => false
  end.

(** The text a dropped item is summarized from: its summary line, unless
    that is missing or blank, and its prompt otherwise. *)
Definition summarySource (item : AnnounceQueueItem) : jsstring :=
  match summaryLine item with
  | Some s => match words s with
              | [] => prompt item
              | _ => s
              end
  | None => prompt item
  end.

(** The entry [enqueueAnnounce] works on once the settings are merged and
    the clock is read. *)
Definition settledQueue (key : jsstring) (s : QueueSettings) (now : Z)
    (st : Store) : AnnounceQueueState :=
  withLastEnqueuedAt now
    match st !! key with
    | Some existing => mergeSettings s existing
    | None => createdQueue s
    end.

(** One call of [enqueueAnnounce]: its arguments and the clock. *)
Record EnqueueCall := mkCall {
  c_item : AnnounceQueueItem;
  c_settings : QueueSettings;
  c_now : Z
}.

(** A sequence of [enqueueAnnounce] calls on one key: the store afterwards
    and the booleans returned, in order. *)
Fixpoint enqueueEach (key : jsstring) (calls : list EnqueueCall) (st : Store)
  : Store * list bool :=
  match calls with
  | [] => (st, [])
  | c :: rest =>
      let '(st1, ok) := enqueueAnnounce key (c_item c) (c_settings c) (c_now c) st in
      let '(st2, oks) := enqueueEach key rest st1 in
      (st2, ok :: oks)
  end.

(** Settings that give a new entry the capacity and the drop policy. *)
Definition establishes (capacity : Z) (policy : jsstring) (s : QueueSettings)
  : Prop :=
  cap (createdQueue s) = capacity ∧ dropPolicy (createdQueue s) = policy.

(** Settings that leave the capacity and the drop policy of an entry as
    they are: each is absent, invalid, or the same value again. *)
Definition maintains (capacity : Z) (policy : jsstring) (s : QueueSettings)
  : Prop :=
  match s_cap s with
  | Some c => if Qlt_le_dec 0 c then Qfloor c = capacity else True
  | None => True
  end ∧
  match s_dropPolicy s with
  | Some p => p = policy
  | None => True
  end.

(** An item with the given prompt and no origin metadata, for examples. *)
Definition sampleItem (p : string) : AnnounceQueueItem :=
  mkItem (js p) None 0%Z (js "agent:main:main") None None None.


(** ** The debounce wait *)

(** The moments at which the wait tests its condition: the call and every
    run of the timer callback. *)
Definition checks (q : AnnounceQueueState) (now : Z)
    (wakes : list (Z * AnnounceQueueState)) : list (Z * AnnounceQueueState) :=
  (now, q) :: wakes.

(** The test of the wait, for the debounce value [D] it read on entry. *)
Definition quietFor (D : Q) (moment : Z * AnnounceQueueState) : Prop :=
  (D <= inject_Z (moment.1 - lastEnqueuedAt moment.2))%Q.

(** ** Invariants of the store and the drains *)

(** Every running drain was numbered below [spawned]; its key has an entry
    whose [draining] flag is set; a set flag belongs to a running drain; no
    key has two running drains. *)
Definition drainsConsistent (s : Sys) : Prop :=
  (∀ n d, drains s !! n = Some d → n < spawned s) ∧
  (∀ n d, drains s !! n = Some d →
          ∃ q, store s !! d_key d = Some q ∧ draining q = true) ∧
  (∀ k q, store s !! k = Some q → draining q = true →
          ∃ n d, drains s !! n = Some d ∧ d_key d = k) ∧
  (∀ n1 n2 d1 d2, drains s !! n1 = Some d1 → drains s !! n2 = Some d2 →
                  d_key d1 = d_key d2 → n1 = n2).

(** An entry of [k] that is empty and owes no overflow notice exists only
    while a drain of [k] waits for the transport. *)
Definition noIdleEntryAt (s : Sys) (k : jsstring) : Prop :=
  ∀ q, store s !! k = Some q → loopGuard q = false →
       ∃ n d, drains s !! n = Some d ∧ d_key d = k ∧ d_phase d = AwaitSend.

Definition invariant (s : Sys) : Prop :=
  drainsConsistent s ∧ ∀ k, noIdleEntryAt s k.

(** ** Destinations of items *)

(** An item without destination metadata: the three origin fields are
    missing or empty. *)
Definition unkeyed (i : AnnounceQueueItem) : bool :=
  falsy (originatingChannel i) && falsy (originatingTo i)
  && falsy (originatingAccountId i).

(** An item with both a channel and a recipient. *)
Definition keyed (i : AnnounceQueueItem) : bool :=
  truthy (originatingChannel i) && truthy (originatingTo i).

(** An item with some destination metadata but without channel or without
    recipient. *)
Definition halfKeyed (i : AnnounceQueueItem) : bool :=
  negb (unkeyed i) && negb (keyed i).

(** The destination keys of the keyed items of a sequence. *)
Definition destKeys (l : list AnnounceQueueItem) : gset jsstring :=
  list_to_set (destKey <$> filter (λ i, keyed i = true) l).

(** ** Payloads, as the specification words them *)

(** The label of a block of the combined payload; [idx] counts from 0. *)
Definition blockLabel (idx : nat) : jsstring :=
  js "---" ++ nl ++ js "Queued #" ++ jsOfNat (idx + 1).

(** A block that carries the prompt of the item as it is. *)
Definition rawBlock (idx : nat) (item : AnnounceQueueItem) : jsstring :=
  blockLabel idx ++ nl ++ prompt item.

(** The overflow notice for [n] dropped items with the given summary
    lines. *)
Definition overflowNotice (n : nat) (lines : list jsstring) : jsstring :=
  join nl
    (overflowHeader n ::
     match lines with
     | [] => []
     | _ => js "Summary:" :: ((λ line, js "- " ++ line) <$> lines)
     end).

(** The combined payload: the marker, the notice if there is one, and the
    blocks. *)
Definition combinedPayload (notice : option jsstring) (blocks : list jsstring)
  : jsstring :=
  join (nl ++ nl) ([collectMarker] ++ option_list notice ++ blocks).

(** ** Well-formed entries *)

(** What every stored entry satisfies: no more summary lines than dropped
    items, and settings within their ranges. *)
Definition wellFormed (q : AnnounceQueueState) : Prop :=
  length (summaryLines q) ≤ droppedCount q ∧
  (0 ≤ cap q)%Z ∧
  (0 <= debounceMs q)%Q.

(** A drain that meets no concurrent enqueue and whose transport calls all
    succeed: one wake and one successful call per delivery. *)
Definition quietRounds (n : nat) (rounds : nat) : list Action :=
  concat (replicate rounds [AWake n; ASendDone n true]).

(** ** The announce flow above the queue *)

(** The fields of a session-store entry that [maybeQueueSubagentAnnounce]
    reads. *)
Record SessionEntry := mkSessionEntry {
  sessionId : option jsstring;
  lastChannel : option jsstring;
  lastTo : option jsstring;
  lastAccountId : option jsstring
}.

(** What the collaborators of [maybeQueueSubagentAnnounce] answer during
    one call: the canonical key ([resolveRequesterStoreKey]), the session
    entry ([loadRequesterSessionEntry]), the settings
    ([resolveQueueSettings]), whether a run is active
    ([isEmbeddedPiRunActive]), whether an injection into the running
    session succeeds if it is tried ([queueEmbeddedPiMessage]), and the two
    readings of the clock. *)
Record FlowEnv := mkFlowEnv {
  canonicalKey : jsstring;
  entry : option SessionEntry;
  queueSettings : QueueSettings;
  isActive : bool;
  steerSucceeds : bool;
  itemNow : Z;
  enqueueNow : Z
}.

(** The three results of [maybeQueueSubagentAnnounce]. *)
Inductive AnnounceRoute := Steered | Queued | NoRoute.

Definition modeIs (s : QueueSettings) (m : string) : bool :=
  bool_decide (s_mode s = js m).

(** [maybeQueueSubagentAnnounce]: the result and the system afterwards. *)
Definition maybeQueueSubagentAnnounce (env : FlowEnv)
    (triggerMessage : jsstring) (summary : option jsstring) (s : Sys)
  : AnnounceRoute * Sys :=
  let sid := entry env ≫= sessionId in
  if falsy sid then (NoRoute, s)
  else
    let shouldSteer :=
      modeIs (queueSettings env) "steer" || modeIs (queueSettings env) "steer-backlog" in
    if shouldSteer && steerSucceeds env then (Steered, s)
    else
      let shouldFollowup :=
        modeIs (queueSettings env) "followup" || modeIs (queueSettings env) "collect"
        || modeIs (queueSettings env) "steer-backlog"
        || modeIs (queueSettings env) "interrupt" in
      if isActive env && (shouldFollowup || modeIs (queueSettings env) "steer")
      then
        let item :=
          mkItem triggerMessage summary (itemNow env) (canonicalKey env)
                 (entry env ≫= lastChannel) (entry env ≫= lastTo)
                 (entry env ≫= lastAccountId) in
        let st1 :=
          (enqueueAnnounce (canonicalKey env) item (queueSettings env)
             (enqueueNow env) (store s)).1 in
        (Queued,
         scheduleAnnounceDrain (canonicalKey env)
           (mkSys st1 (drains s) (spawned s) (sent s)))
      else (NoRoute, s).

(** ** Keys of requester sessions *)

(** [s.startsWith(p)]. *)
Fixpoint startsWith (p s : jsstring) : bool :=
  match p, s with
  | [], _ => true
  | a :: p', b :: s' => (a =? b)%N && startsWith p' s'
  | _ :: _, [] => false
  end.

(** [s.split(sep)] for a separator of one unit. *)
Fixpoint splitOn (sep : N) (s : jsstring) : list jsstring :=
  match s with
  | [] => [[]]
  | c :: r =>
      if (c =? sep)%N then [] :: splitOn sep r
      else
        match splitOn sep r with
        | w :: rest => (c :: w) :: rest
        | [] => [[c]]
        end
  end.

(** What the session-key helpers answer for the configuration at hand:
    [normalizeMainKey(cfg.session?.mainKey)], [resolveMainSessionKey(cfg)]
    and [resolveAgentIdFromSessionKey]. *)
Record KeyResolver := mkKeyResolver {
  mainKey : jsstring;
  mainSessionKey : jsstring;
  agentIdOf : jsstring → jsstring
}.

Definition resolveRequesterStoreKey (R : KeyResolver)
    (requesterSessionKey : jsstring) : jsstring :=
  let raw := trim requesterSessionKey in
  match raw with
  | [] => raw
  | _ =>
      if bool_decide (raw = js "global") || bool_decide (raw = js "unknown")
      then raw
      else if startsWith (js "agent:") raw then raw
      else if bool_decide (raw = js "main") || bool_decide (raw = mainKey R)
      then mainSessionKey R
      else js "agent:" ++ agentIdOf R raw ++ js ":" ++ raw
  end.

(** The [legacyKey] of [loadRequesterSessionEntry]. *)
Definition legacyKeyOf (canonical : jsstring) : option jsstring :=
  if startsWith (js "agent:") canonical
  then Some (join (js ":") (drop 2 (splitOn 58%N canonical)))
  else None.

(** [loadRequesterSessionEntry], for the session store it loads (an object
    used as a map from keys to entries): the entry it finds and the
    canonical key. *)
Definition loadRequesterSessionEntry (R : KeyResolver)
    (sessions : gmap jsstring SessionEntry) (requesterSessionKey : jsstring)
  : option SessionEntry * jsstring :=
  let canonical := resolveRequesterStoreKey R requesterSessionKey in
  let legacy := legacyKeyOf canonical in
  let found :=
    match sessions !! canonical with
    | Some e => Some e
    | None =>
        match sessions !! requesterSessionKey with
        | Some e => Some e
        | None => if truthy legacy then legacy ≫= (λ k, sessions !! k) else None
        end
    end in
  (found, canonical).

(** ** Statistics of a finished run *)

(** The usage fields of a session-store entry. *)
Record UsageEntry := mkUsage {
  totalTokens : option Z;
  inputTokens : option Z;
  outputTokens : option Z
}.

(** The closure [hasTokens] of [waitForSessionUsage], for the value the
    variable [entry] holds. *)
Definition hasTokens (e : option UsageEntry) : bool :=
  match e with
  | None => false
  | Some u =>
      bool_decide (is_Some (totalTokens u)) || bool_decide (is_Some (inputTokens u))
      || bool_decide (is_Some (outputTokens u))
  end.

(** The [for] loop of [waitForSessionUsage]: [remaining] attempts are left,
    [slept] timers of 200 ms have run, and [current] is the value of
    [entry]. [reads i] is what the store holds for the key at its read
    number [i]. *)
Fixpoint pollUsage (reads : nat → option UsageEntry) (remaining slept : nat)
    (current : option UsageEntry) : option UsageEntry * nat :=
  match remaining with
  | 0 => (current, slept)
  | S r =>
      let e := reads (S slept) in
      if hasTokens e then (e, S slept) else pollUsage reads r (S slept) e
  end.

(** [waitForSessionUsage]: the entry it returns and the number of timers
    it waited for. *)
Definition waitForSessionUsage (reads : nat → option UsageEntry)
  : option UsageEntry * nat :=
  match reads 0 with
  | None => (None, 0)
  | Some u =>
      if hasTokens (Some u) then (Some u, 0)
      else pollUsage reads 4 0 (Some u)
  end.

(** [formatDurationShort], for a duration in whole milliseconds (the
    difference of two clock readings); [None] is [undefined]. On whole
    numbers [Math.round(valueMs / 1000)] is [(valueMs + 500) / 1000]. *)
Definition formatDurationShort (valueMs : option Z) : option jsstring :=
  match valueMs with
  | None => None
  | Some v =>
      if (v <=? 0)%Z then None
      else
        let totalSeconds := ((v + 500) / 1000)%Z in
        let hours := (totalSeconds / 3600)%Z in
        let minutes := ((totalSeconds mod 3600) / 60)%Z in
        let seconds := (totalSeconds mod 60)%Z in
        if (0 <? hours)%Z
        then Some (jsOfNat (Z.to_nat hours) ++ js "h"
                   ++ jsOfNat (Z.to_nat minutes) ++ js "m")
        else if (0 <? minutes)%Z
        then Some (jsOfNat (Z.to_nat minutes) ++ js "m"
                   ++ jsOfNat (Z.to_nat seconds) ++ js "s")
        else Some (jsOfNat (Z.to_nat seconds) ++ js "s")
  end.

(** ** The system prompt of a sub-agent *)

Record SubagentPromptParams := mkPromptParams {
  p_requesterSessionKey : option jsstring;
  p_requesterChannel : option jsstring;
  p_childSessionKey : jsstring;
  p_label : option jsstring;
  p_task : option jsstring
}.

(** The [taskText] of [buildSubagentSystemPrompt]. *)
Definition subagentTaskText (task : option jsstring) : jsstring :=
  match task with
  | Some t =>
      match trim t with
      | [] => js "{{TASK_DESCRIPTION}}"
      | _ => trim (collapseWhiteSpace t)
      end
  | None => js "{{TASK_DESCRIPTION}}"
  end.

(** A line that is there only when the field is truthy. *)
Definition optionalLine (label : string) (field : option jsstring) (dot : string)
  : option jsstring :=
  if truthy field then Some (js label ++ default [] field ++ js dot) else None.

Definition buildSubagentSystemPrompt (params : SubagentPromptParams) : jsstring :=
  let taskText := subagentTaskText (p_task params) in
  let lines : list (option jsstring) :=
    [ Some (js "# Subagent Context");
      Some (js "");
      Some (js "You are a **subagent** spawned by the main agent for a specific task.");
      Some (js "");
      Some (js "## Your Role");
      Some (js "- You were created to handle: " ++ taskText);
      Some (js "- Complete this task. That's your entire purpose.");
      Some (js "- You are NOT the main agent. Don't try to be.");
      Some (js "");
      Some (js "## Rules");
      Some (js "1. **Stay focused** - Do your assigned task, nothing else");
      Some (js "2. **Complete the task** - Your final message will be automatically reported to the main agent");
      Some (js "3. **Don't initiate** - No heartbeats, no proactive actions, no side quests");
      Some (js "4. **Be ephemeral** - You may be terminated after task completion. That's fine.");
      Some (js "");
      Some (js "## Output Format");
      Some (js "When complete, your final response should include:");
      Some (js "- What you accomplished or found");
      Some (js "- Any relevant details the main agent should know");
      Some (js "- Keep it concise but informative");
      Some (js "");
      Some (js "## What You DON'T Do");
      Some (js "- NO user conversations (that's main agent's job)");
      Some (js "- NO external messages (email, tweets, etc.) unless explicitly tasked");
      Some (js "- NO cron jobs or persistent state");
      Some (js "- NO pretending to be the main agent");
      Some (js "- NO using the `message` tool directly");
      Some (js "");
      Some (js "## Session Context");
      optionalLine "- Label: " (p_label params) "";
      optionalLine "- Requester session: " (p_requesterSessionKey params) ".";
      optionalLine "- Requester channel: " (p_requesterChannel params) ".";
      Some (js "- Your session: " ++ p_childSessionKey params ++ js ".");
      Some (js "") ] in
  join nl (omap id lines).

(** ** The canvas controller: reading the parameters of a command

    A Kotlin [String] is the list of its UTF-16 code units, as a JavaScript
    string is; [null] is [None], and an index of [-1] is [None]. *)

(** [s.indexOf(key)]. *)
Fixpoint indexOf (key s : list N) : option nat :=
  if startsWith key s then Some 0
  else
    match s with
    | [] => None
    | _ :: r => S <$> indexOf key r
    end.

(** [s.indexOf(c)]. *)
Fixpoint indexOfChar (c : N) (s : list N) : option nat :=
  match s with
  | [] => None
  | x :: r => if (x =? c)%N then Some 0 else S <$> indexOfChar c r
  end.

(** [s.indexOf(c, from)]. *)
Definition indexOfCharFrom (c : N) (from : nat) (s : list N) : option nat :=
  (λ i, from + i) <$> indexOfChar c (drop from s).

(** [s.lastIndexOf(c)]. *)
Fixpoint lastIndexOfChar (c : N) (s : list N) : option nat :=
  match s with
  | [] => None
  | x :: r =>
      match lastIndexOfChar c r with
      | Some i => Some (S i)
      | None => if (x =? c)%N then Some 0 else None
      end
  end.

(** [s.substring(from, to)], for [from <= to <= s.length]. *)
Definition substring (from to : nat) (s : list N) : list N :=
  take (to - from) (drop from s).

(** [s.replace(old, new)] for an [old] of two units [a], [b]: every
    occurrence, from the left, without overlap. *)
Fixpoint replacePair (a b : N) (new : list N) (s : list N) : list N :=
  match s with
  | x :: ((y :: r) as t) =>
      if (x =? a)%N && (y =? b)%N then new ++ replacePair a b new r
      else x :: replacePair a b new t
  | _ => s
  end.

Definition quote : N := 34%N.
Definition backslash : N := 92%N.

(** The key ["url"], with its quotes. *)
Definition urlKey : list N := [quote] ++ js "url" ++ [quote].

(** The key ["javaScript"], with its quotes. *)
Definition javaScriptKey : list N := [quote] ++ js "javaScript" ++ [quote].

Definition parseNavigateUrl (paramsJson : option (list N)) : option (list N) :=
  raw ← paramsJson;
  idx ← indexOf urlKey raw;
  start ← indexOfCharFrom quote (idx + length urlKey) raw;
  end_ ← indexOfCharFrom quote (start + 1) raw;
  Some (substring (start + 1) end_ raw).

(** The three replacements of [parseEvalJs], in its order. *)
Definition unescapeEvalJs (s : list N) : list N :=
  replacePair backslash backslash [backslash]
    (replacePair backslash quote [quote]
       (replacePair backslash 110%N [10%N] s)).

Definition parseEvalJs (paramsJson : option (list N)) : option (list N) :=
  raw ← paramsJson;
  idx ← indexOf javaScriptKey raw;
  start ← indexOfCharFrom quote (idx + length javaScriptKey) raw;
  match lastIndexOfChar quote raw with
  | None => None
  | Some end_ =>
      if end_ <=? start then None
      else Some (unescapeEvalJs (substring (start + 1) end_ raw))
  end.

(** The escaping [parseEvalJs] undoes for a script without backslash: a
    quote becomes backslash quote and a line feed becomes backslash n. *)
Definition escapeEvalJs (script : list N) : list N :=
  flat_map (λ c, if (c =? quote)%N then [backslash; quote]
                 else if (c =? 10)%N then [backslash; 110%N]
                 else [c]) script.

(** ** The canvas controller: what the WebView is told to load

    [Char.isWhitespace] belongs to the platform; the functions below take it
    as [ws]. *)

(** [s.trim()] and [s.isBlank()]. *)
Fixpoint trimStartBy (ws : N → bool) (s : list N) : list N :=
  match s with
  | [] => []
  | c :: r => if ws c then trimStartBy ws r else s
  end.

Definition trimBy (ws : N → bool) (s : list N) : list N :=
  rev (trimStartBy ws (rev (trimStartBy ws s))).

Definition isBlank (ws : N → bool) (s : list N) : bool := forallb ws s.

Inductive CanvasMode := CANVAS | WEB.

(** The fields of a [CanvasController]; a WebView is known by a number. *)
Record CanvasState := mkCanvas {
  cv_webView : option nat;
  cv_mode : CanvasMode;
  cv_url : list N
}.

Definition initCanvas : CanvasState := mkCanvas None CANVAS [].

(** The calls made on a WebView: [loadUrl] and [loadDataWithBaseURL] with
    the canvas page. *)
Inductive WebViewCall :=
| LoadUrl (webView : nat) (url : list N)
| LoadCanvasPage (webView : nat).

(** [reload]: the calls it makes. *)
Definition reload (ws : N → bool) (c : CanvasState) : list WebViewCall :=
  match cv_webView c with
  | None => []
  | Some wv =>
      match cv_mode c with
      | WEB =>
          let trimmed := trimBy ws (cv_url c) in
          if isBlank ws trimmed then [] else [LoadUrl wv trimmed]
      | CANVAS => [LoadCanvasPage wv]
      end
  end.

(** The public operations [attach], [setMode] and [navigate]. *)
Inductive CanvasOp :=
| Attach (webView : nat)
| SetMode (mode : CanvasMode)
| Navigate (url : list N).

Definition canvasStep (ws : N → bool) (op : CanvasOp) (c : CanvasState)
  : CanvasState * list WebViewCall :=
  let c1 :=
    match op with
    | Attach wv => mkCanvas (Some wv) (cv_mode c) (cv_url c)
    | SetMode m => mkCanvas (cv_webView c) m (cv_url c)
    | Navigate u => mkCanvas (cv_webView c) (cv_mode c) u
    end in
  (c1, reload ws c1).

(** A sequence of operations: the state afterwards and all the calls, in
    order. *)
Fixpoint canvasRun (ws : N → bool) (ops : list CanvasOp) (c : CanvasState)
  : CanvasState * list WebViewCall :=
  match ops with
  | [] => (c, [])
  | op :: rest =>
      let '(c1, calls1) := canvasStep ws op c in
      let '(c2, calls2) := canvasRun ws rest c1 in
      (c2, calls1 ++ calls2)
  end.

(** A URL that is not empty and has no white space at either end. *)
Definition cleanUrl (ws : N → bool) (u : list N) : Prop :=
  u ≠ [] ∧
  (∀ c, head u = Some c → ws c = false) ∧
  (∀ c, last u = Some c → ws c = false).

(** ** Hooks: the status report and the enable and disable commands

    The declarations of the configuration and of a hook entry are not part
    of the sources at hand; the records below hold the fields the code
    reads or writes, with the types its uses give them. The spreads of
    [enableHook] and [disableHook] copy every other setting unchanged. *)

(** One entry of [config.hooks.internal.entries]. *)
Record HookConfig := mkHookConfig {
  hc_enabled : option bool;
  hc_env : option (gmap jsstring jsstring)
}.

(** The settings under [config.hooks.internal]; a field is [None] where
    the optional chain gives [undefined]. *)
Record ClawdbotConfig := mkConfig {
  internal_enabled : option bool;
  internal_entries : option (gmap jsstring HookConfig)
}.

(** The five lists of requirements of a hook, or of what is missing. *)
Record HookLists := mkLists {
  bins : list jsstring;
  anyBins : list jsstring;
  env : list jsstring;
  config : list jsstring;
  os : list jsstring
}.

(** A hook entry: [entry.hook.name], [entry.hook.description],
    [entry.clawdbot?.hookKey], [entry.clawdbot?.always === true], and the
    lists [entry.clawdbot?.requires?.bins ?? []] ... [entry.clawdbot?.os ?? []]. *)
Record HookEntry := mkHookEntry {
  hook_name : jsstring;
  hook_description : jsstring;
  hook_hookKey : option jsstring;
  hook_always : bool;
  hook_requires : HookLists
}.

(** [eligibility?.remote], with its optional members. *)
Record RemoteEligibility := mkRemote {
  remote_hasBin : option (jsstring → bool);
  remote_hasAnyBin : option (list jsstring → bool);
  remote_platforms : option (list jsstring)
}.

(** What the status is computed against: the binaries found on the path,
    the environment, the platform, and the two readers of the
    configuration that live in a module not at hand. *)
Record HookHost := mkHookHost {
  hasBinary : jsstring → bool;
  processEnv : jsstring → option jsstring;
  processPlatform : jsstring;
  resolveHookConfig : option ClawdbotConfig → jsstring → option HookConfig;
  isConfigPathTruthy : option ClawdbotConfig → jsstring → bool
}.

(** A line of the report, with the fields that decide eligibility. *)
Record HookStatusEntry := mkHookStatus {
  hs_name : jsstring;
  hs_description : jsstring;
  hs_hookKey : jsstring;
  hs_always : bool;
  hs_disabled : bool;
  hs_eligible : bool;
  hs_requirements : HookLists;
  hs_missing : HookLists
}.

Definition resolveHookKey (entry : HookEntry) : jsstring :=
  default (hook_name entry) (hook_hookKey entry).

Definition isEmpty {A} (l : list A) : bool :=
  match l with [] => true | _ => false end.

Definition includes (l : list jsstring) (x : jsstring) : bool :=
  bool_decide (x ∈ l).

(** [hookConfig?.enabled] and [hookConfig?.env?.[envName]]. *)
Definition enabledOf (hookConfig : option HookConfig) : option bool :=
  hookConfig ≫= hc_enabled.

Definition envOf (hookConfig : option HookConfig) (envName : jsstring)
  : option jsstring :=
  match hookConfig ≫= hc_env with
  | Some vars => vars !! envName
  | None => None
  end.

(** [remote?.hasBin?.(bin)], [remote?.hasAnyBin?.(bins)] and
    [remote?.platforms?.some(...)], where [undefined] counts as false. *)
Definition remoteHasBin (eligibility : option RemoteEligibility)
    (bin : jsstring) : bool :=
  match eligibility ≫= remote_hasBin with
  | Some f => f bin
  | None => false
  end.

Definition remoteHasAnyBin (eligibility : option RemoteEligibility)
    (required : list jsstring) : bool :=
  match eligibility ≫= remote_hasAnyBin with
  | Some f => f required
  | None => false
  end.

Definition remotePlatformIn (eligibility : option RemoteEligibility)
    (requiredOs : list jsstring) : bool :=
  match eligibility ≫= remote_platforms with
  | Some platforms => existsb (includes requiredOs) platforms
  | None => false
  end.

Definition buildHookStatus (host : HookHost) (entry : HookEntry)
    (cfg : option ClawdbotConfig) (eligibility : option RemoteEligibility)
  : HookStatusEntry :=
  let hookKey := resolveHookKey entry in
  let hookConfig := resolveHookConfig host cfg hookKey in
  let disabled := bool_decide (enabledOf hookConfig = Some false) in
  let always := hook_always entry in
  let requiredBins := bins (hook_requires entry) in
  let requiredAnyBins := anyBins (hook_requires entry) in
  let requiredEnv := env (hook_requires entry) in
  let requiredConfig := config (hook_requires entry) in
  let requiredOs := os (hook_requires entry) in
  let missingBins :=
    filter (λ bin,
      negb (hasBinary host bin || remoteHasBin eligibility bin) = true)
      requiredBins in
  let missingAnyBins :=
    if negb (isEmpty requiredAnyBins)
       && negb (existsb (hasBinary host) requiredAnyBins
                || remoteHasAnyBin eligibility requiredAnyBins)
    then requiredAnyBins else [] in
  let missingOs :=
    if negb (isEmpty requiredOs)
       && negb (includes requiredOs (processPlatform host))
       && negb (remotePlatformIn eligibility requiredOs)
    then requiredOs else [] in
  let missingEnv :=
    filter (λ envName,
      negb (truthy (processEnv host envName)
            || truthy (envOf hookConfig envName)) = true)
      requiredEnv in
  let missingConfig :=
    filter (λ pathStr, negb (isConfigPathTruthy host cfg pathStr) = true)
      requiredConfig in
  let missing :=
    if always then mkLists [] [] [] [] []
    else mkLists missingBins missingAnyBins missingEnv missingConfig missingOs in
  let eligible :=
    negb disabled
    && (always
        || (isEmpty (bins missing) && isEmpty (anyBins missing)
            && isEmpty (env missing) && isEmpty (config missing)
            && isEmpty (os missing))) in
  mkHookStatus (hook_name entry) (hook_description entry) hookKey always
    disabled eligible
    (mkLists requiredBins requiredAnyBins requiredEnv requiredConfig requiredOs)
    missing.

(** [buildWorkspaceHookStatus(...).hooks], for the entries
    [loadWorkspaceHookEntries] has read. *)
Definition buildWorkspaceHookStatus (host : HookHost)
    (hookEntries : list HookEntry) (cfg : option ClawdbotConfig)
    (eligibility : option RemoteEligibility) : list HookStatusEntry :=
  map (λ entry, buildHookStatus host entry cfg eligibility) hookEntries.

(** The two errors the commands throw. *)
Inductive HookCommandError :=
| HookNotFound (hookName : jsstring)
| HookNotEligible (hookName : jsstring).

(** [{ ...entries[hookName], enabled }]. *)
Definition withEnabled (old : option HookConfig) (enabled : bool) : HookConfig :=
  mkHookConfig (Some enabled) (old ≫= hc_env).

(** [enableHook]: the error thrown, or the configuration written. *)
Definition enableHook (host : HookHost) (hookEntries : list HookEntry)
    (cfg : ClawdbotConfig) (hookName : jsstring)
  : HookCommandError + ClawdbotConfig :=
  let report := buildWorkspaceHookStatus host hookEntries (Some cfg) None in
  match List.find (λ h, bool_decide (hs_name h = hookName)) report with
  | None => inl (HookNotFound hookName)
  | Some hook =>
      if negb (hs_eligible hook) then inl (HookNotEligible hookName)
      else
        let entries := default ∅ (internal_entries cfg) in
        let entries := <[hookName := withEnabled (entries !! hookName) true]> entries in
        inr (mkConfig (Some true) (Some entries))
  end.

(** [disableHook]: the error thrown, or the configuration written. *)
Definition disableHook (host : HookHost) (hookEntries : list HookEntry)
    (cfg : ClawdbotConfig) (hookName : jsstring)
  : HookCommandError + ClawdbotConfig :=
  let report := buildWorkspaceHookStatus host hookEntries (Some cfg) None in
  match List.find (λ h, bool_decide (hs_name h = hookName)) report with
  | None => inl (HookNotFound hookName)
  | Some hook =>
      let entries := default ∅ (internal_entries cfg) in
      let entries := <[hookName := withEnabled (entries !! hookName) false]> entries in
      inr (mkConfig (internal_enabled cfg) (Some entries))
  end.

(** Nothing is missing. *)
Definition nothingMissing (m : HookLists) : Prop :=
  bins m = [] ∧ anyBins m = [] ∧ env m = [] ∧ config m = [] ∧ os m = [].

(** ** Bridge discovery: instance names and stable ids

    [Char.isWhitespace] is [ws] as above; the class [\s] of the platform's
    regular expressions is [rs]. *)

(** [regex.split(s)] for the regular expression [\s+]: the text before
    each match and the text after the last one. [inRun] says that the
    previous unit belonged to a match. *)
Fixpoint regexSplit (rs : N → bool) (inRun : bool) (s : list N) : list (list N) :=
  match s with
  | [] => [[]]
  | c :: r =>
      if rs c then
        if inRun then regexSplit rs true r else [] :: regexSplit rs true r
      else
        match regexSplit rs false r with
        | p :: ps => (c :: p) :: ps
        | [] => [[c]]
        end
  end.

(** [s.endsWith(suffix)] and [s.removeSuffix(suffix)]. *)
Definition endsWith (suffix s : list N) : bool :=
  startsWith (rev suffix) (rev s).

Definition removeSuffix (suffix s : list N) : list N :=
  if endsWith suffix s then take (length s - length suffix) s else s.

(** [s.substringBefore(delimiter)]: all of [s] when the delimiter is not
    found. *)
Definition substringBefore (delimiter s : list N) : list N :=
  match indexOf delimiter s with
  | Some i => substring 0 i s
  | None => s
  end.

Definition serviceType : list N := js "_clawdis-bridge._tcp.".

Definition normalizeName (ws rs : N → bool) (raw : list N) : list N :=
  join [32%N] (regexSplit rs false (trimBy ws raw)).

Definition stableId (ws rs : N → bool) (serviceName domain : list N) : list N :=
  serviceType ++ js "|" ++ domain ++ js "|" ++ normalizeName ws rs serviceName.

Definition stripTrailingDot (raw : list N) : list N := removeSuffix (js ".") raw.

Definition decodeInstanceName (ws rs : N → bool) (instanceFqdn domain : list N)
  : list N :=
  let suffix := serviceType ++ domain in
  let withoutSuffix :=
    if endsWith suffix instanceFqdn then removeSuffix suffix instanceFqdn
    else substringBefore serviceType instanceFqdn in
  normalizeName ws rs (stripTrailingDot withoutSuffix).

(** Every piece but the last is not empty. *)
Fixpoint innerPiecesFull (ps : list (list N)) : Prop :=
  match ps with
  | [] => True
  | p :: rest =>
      match rest with
      | [] => True
      | _ :: _ => p ≠ [] ∧ innerPiecesFull rest
      end
  end.

(** ** Hooks: the hooks found in the directories

    Reading a directory, and reading the entry of a hook from its file,
    are inputs; the record holds the fields of a [Hook]. *)

Record Hook := mkHook {
  h_name : jsstring;
  h_description : jsstring;
  h_source : jsstring;
  h_filePath : jsstring;
  h_baseDir : jsstring;
  h_handlerPath : jsstring
}.

(** A [Map] with string keys, in insertion order: [m.set(k, v)] replaces
    the value of a key it has, in place, and adds a new key at the end. *)
Fixpoint mapSet {V} (k : jsstring) (v : V) (m : list (jsstring * V))
  : list (jsstring * V) :=
  match m with
  | [] => [(k, v)]
  | (k', v') :: rest =>
      if decide (k' = k) then (k, v) :: rest else (k', v') :: mapSet k v rest
  end.

(** [m.get(k)] and [Array.from(m.values())]. *)
Fixpoint mapGet {V} (k : jsstring) (m : list (jsstring * V)) : option V :=
  match m with
  | [] => None
  | (k', v') :: rest => if decide (k' = k) then Some v' else mapGet k rest
  end.

Definition mapValues {V} (m : list (jsstring * V)) : list V := map snd m.

(** [for (const hook of hooks) merged.set(hook.name, hook)]. *)
Definition mergeInto (merged : list (jsstring * Hook)) (hooks : list Hook)
  : list (jsstring * Hook) :=
  foldl (λ m hook, mapSet (h_name hook) hook m) merged hooks.

(** [loadHookEntries], from the hooks of the four kinds of directory;
    [readEntry] makes the entry of a hook from its file. *)
Definition loadHookEntries {E} (readEntry : Hook → E)
    (extraHooks bundledHooks managedHooks workspaceHooks : list Hook) : list E :=
  let merged := [] in
  let merged := mergeInto merged extraHooks in
  let merged := mergeInto merged bundledHooks in
  let merged := mergeInto merged managedHooks in
  let merged := mergeInto merged workspaceHooks in
  map readEntry (mapValues merged).

(** The elements of [l], each once, at the place of its first
    occurrence. *)
Definition firstOccurrences (l : list jsstring) : list jsstring :=
  reverse (remove_dups (reverse l)).

(** ** Hooks: lists of names in the metadata *)

(** The input of [normalizeStringList]: an array (each value as
    [String(value)] gives it), a string, or anything else. *)
Inductive ListInput :=
| InputArray (values : list jsstring)
| InputString (s : jsstring)
| InputOther.

Definition comma : N := 44%N.

Definition normalizeStringList (input : ListInput) : list jsstring :=
  match input with
  | InputString [] => []
  | InputArray values => filter (λ value, value ≠ []) (map trim values)
  | InputString s => filter (λ value, value ≠ []) (map trim (splitOn comma s))
  | InputOther => []
  end.

(** ** Hooks: the front matter of a hook file *)

Definition singleQuote : N := 39%N.
Definition colon : N := 58%N.
Definition lineFeed : N := 10%N.
Definition carriageReturn : N := 13%N.

(** [value.slice(1, -1)] when [value] starts and ends with the same kind
    of quote. *)
Definition stripQuotes (value : jsstring) : jsstring :=
  if (bool_decide (head value = Some quote) && bool_decide (last value = Some quote))
     || (bool_decide (head value = Some singleQuote)
         && bool_decide (last value = Some singleQuote))
  then take (length value - 2) (drop 1 value)
  else value.

(** The class [[\w-]] and the line terminators, which [.] does not
    match. *)
Definition isKeyChar (c : N) : bool :=
  ((48 <=? c) && (c <=? 57) || (65 <=? c) && (c <=? 90) || (c =? 95)
   || (97 <=? c) && (c <=? 122) || (c =? 45))%N.

Definition isLineTerminator (c : N) : bool :=
  ((c =? 10) || (c =? 13) || (c =? 8232) || (c =? 8233))%N.

(** The longest prefix of key characters, and what follows it. *)
Fixpoint keyPrefix (line : jsstring) : jsstring * jsstring :=
  match line with
  | [] => ([], [])
  | c :: r =>
      if isKeyChar c then let '(k, t) := keyPrefix r in (c :: k, t)
      else ([], line)
  end.

(** The match of a line against the pattern of [parseFrontmatter]: key
    characters, a colon, white space, and the rest of the line. The two
    groups are the key and the rest. The white space after the colon is
    taken as far as it goes, and the rest must hold no line terminator. *)
Definition matchLine (line : jsstring) : option (jsstring * jsstring) :=
  match keyPrefix line with
  | ((_ :: _) as key, c :: rest) =>
      if (c =? colon)%N then
        let value := trimStart rest in
        if forallb (λ c, negb (isLineTerminator c)) value then Some (key, value)
        else None
      else None
  | _ => None
  end.

(** [content.replace(/\r\n/g, "\n").replace(/\r/g, "\n")]. *)
Definition normalizeNewlines (content : jsstring) : jsstring :=
  map (λ c, if (c =? carriageReturn)%N then lineFeed else c)
    (replacePair carriageReturn lineFeed [lineFeed] content).

(** [s.indexOf(key, from)]. *)
Definition indexOfFrom (key : jsstring) (from : nat) (s : jsstring) : option nat :=
  (λ i, from + i) <$> indexOf key (drop from s).

(** The line that ends the front matter, with the line feed before it. *)
Definition endMarker : jsstring := lineFeed :: js "---".

(** One line of the block: [frontmatter[key] = value], which does nothing
    for an empty value and for the key [__proto__] with a string. *)
Definition frontmatterLine (frontmatter : gmap jsstring jsstring)
    (line : jsstring) : gmap jsstring jsstring :=
  match matchLine line with
  | None => frontmatter
  | Some (key, raw) =>
      let value := stripQuotes (trim raw) in
      if isEmpty key || isEmpty value then frontmatter
      else if bool_decide (key = js "__proto__") then frontmatter
      else <[key := value]> frontmatter
  end.

Definition parseFrontmatter (content : jsstring) : gmap jsstring jsstring :=
  let normalized := normalizeNewlines content in
  if negb (startsWith (js "---") normalized) then ∅
  else
    match indexOfFrom endMarker 3 normalized with
    | None => ∅
    | Some endIndex =>
        let block := take (endIndex - 4) (drop 4 normalized) in
        foldl frontmatterLine ∅ (splitOn lineFeed block)
    end.

(** A key and a value that can stand on a line [key: value]: the key is
    not empty, is made of key characters and does not start with three
    dashes; the value has no white space at its ends and holds no line
    terminator. *)
Definition plainPair (kv : jsstring * jsstring) : Prop :=
  kv.1 ≠ [] ∧ forallb isKeyChar kv.1 = true ∧
  startsWith (js "---") kv.1 = false ∧
  trim kv.2 = kv.2 ∧ forallb (λ c, negb (isLineTerminator c)) kv.2 = true.

(** The pairs whose line sets a field: the value is not empty once its
    quotes are stripped, and the key is not [__proto__]. *)
Definition keptPair (kv : jsstring * jsstring) : bool :=
  negb (isEmpty (stripQuotes kv.2)) && negb (bool_decide (kv.1 = js "__proto__")).

Definition pairLine (kv : jsstring * jsstring) : jsstring :=
  kv.1 ++ js ": " ++ kv.2.

(** A document with the given pairs as its front matter. *)
Definition frontmatterDocument (kvs : list (jsstring * jsstring))
    (rest : jsstring) : jsstring :=
  js "---" ++ [lineFeed] ++ join [lineFeed] (map pairLine kvs)
    ++ endMarker ++ rest.

(** ** Bridge discovery: values of TXT records *)

(** [s.removePrefix(prefix)] and [s.ifEmpty { null }]. *)
Definition removePrefix (prefix s : list N) : list N :=
  if startsWith prefix s then drop (length prefix) s else s.

Definition ifEmptyNull (s : list N) : option (list N) :=
  if isEmpty s then None else Some s.

(** The inner loop of [txtValue] over the strings of one record: [Some r]
    when it returned [r], [None] when it ran to its end. *)
Fixpoint txtValueStrings (ws : N → bool) (prefix : list N)
    (strings : list (list N)) : option (option (list N)) :=
  match strings with
  | [] => None
  | s :: rest =>
      let trimmed := trimBy ws s in
      if startsWith prefix trimmed
      then Some (ifEmptyNull (trimBy ws (removePrefix prefix trimmed)))
      else txtValueStrings ws prefix rest
  end.

(** The outer loop, over the records; a record is the list of its
    strings. *)
Fixpoint txtValueRecords (ws : N → bool) (prefix : list N)
    (records : list (list (list N))) : option (list N) :=
  match records with
  | [] => None
  | r :: rest =>
      match txtValueStrings ws prefix r with
      | Some result => result
      | None => txtValueRecords ws prefix rest
      end
  end.

Definition txtValue (ws : N → bool) (records : list (list (list N)))
    (key : list N) : option (list N) :=
  txtValueRecords ws (key ++ js "=") records.

(** * Properties *)

(** ** Strings: trimming and collapsing *)

Lemma trimStart_snoc (a : jsstring) (c : N) :
  trimStart (a ++ [c]) =
  match trimStart a with
  | [] => if isWhiteSpace c then [] else [c]
  | t => t ++ [c]
  end.
Proof.
  induction a as [|x a IH]; simpl.
  - reflexivity.
  - destruct (isWhiteSpace x); [exact IH | reflexivity].
Qed.

(** [trimEnd], read from the left. *)
Lemma trimEnd_cons (c : N) (s : jsstring) :
  trimEnd (c :: s) =
  match trimEnd s with
  | [] => if isWhiteSpace c then [] else [c]
  | t => c :: t
  end.
Proof.
  unfold trimEnd. simpl rev. rewrite trimStart_snoc.
  destruct (trimStart (rev s)) as [|y t] eqn:E.
  - simpl. destruct (isWhiteSpace c); reflexivity.
  - remember (y :: t) as u eqn:Eu.
    rewrite rev_app_distr. change (rev [c] ++ rev u) with (c :: rev u).
    destruct (rev u) eqn:E2; [|reflexivity].
    apply (f_equal (@length N)) in E2. rewrite length_rev, Eu in E2. discriminate.
Qed.

Lemma trimEnd_nil : trimEnd [] = [].
Proof. reflexivity. Qed.

Lemma length_trimEnd (s : jsstring) : length (trimEnd s) ≤ length s.
Proof.
  induction s as [|c s IH]; [reflexivity|].
  rewrite trimEnd_cons. destruct (trimEnd s); [destruct (isWhiteSpace c)|]; simpl in *; lia.
Qed.

Lemma trimEnd_prefix (s : jsstring) : trimEnd s `prefix_of` s.
Proof.
  induction s as [|c s IH]; [done|].
  rewrite trimEnd_cons. destruct (trimEnd s) as [|y t].
  - destruct (isWhiteSpace c); [apply prefix_nil | by apply prefix_cons, prefix_nil].
  - by apply prefix_cons.
Qed.

Lemma trimStart_idem_head (s : jsstring) :
  headIsWhiteSpace (trimStart s) = false.
Proof.
  induction s as [|c s IH]; [reflexivity|]. simpl.
  destruct (isWhiteSpace c) eqn:E; [exact IH | simpl; exact E].
Qed.

Lemma words_trimStart (s : jsstring) : words (trimStart s) = words s.
Proof.
  induction s as [|c s IH]; [reflexivity|]. simpl trimStart.
  destruct (isWhiteSpace c) eqn:E; [|reflexivity].
  rewrite IH. simpl. by rewrite E.
Qed.

Lemma trimStart_collapse (b : bool) (s : jsstring) :
  trimStart (collapseFrom b s) = collapseFrom false (trimStart s).
Proof.
  revert b. induction s as [|c s IH]; intros b; [reflexivity|]. simpl.
  destruct (isWhiteSpace c) eqn:E.
  - destruct b; [apply IH|]. simpl. apply IH.
  - simpl. by rewrite E.
Qed.

(** No word is empty, and no word starts with white space. *)
Lemma words_head (s : jsstring) :
  match words s with
  | [] => True
  | w :: _ => ∃ c t, w = c :: t ∧ isWhiteSpace c = false
  end.
Proof.
  induction s as [|c s IH]; [done|]. simpl.
  destruct (isWhiteSpace c) eqn:E; [exact IH|].
  destruct s as [|c2 s]; [eauto|].
  destruct (isWhiteSpace c2); [eauto|].
  destruct (words (c2 :: s)); eauto.
Qed.

Lemma join_cons_cons (sep p : jsstring) (q : jsstring) (rest : list jsstring) :
  join sep (p :: q :: rest) = p ++ sep ++ join sep (q :: rest).
Proof. reflexivity. Qed.

(** A string that starts with a unit which is not white space has a word. *)
Lemma words_nonempty (c : N) (s : jsstring) :
  isWhiteSpace c = false → words (c :: s) ≠ [].
Proof.
  intros E. simpl. rewrite E. destruct s as [|c2 s]; [done|].
  destruct (isWhiteSpace c2); [done|]. destruct (words (c2 :: s)); done.
Qed.

(** Collapsing and then trimming the end, in terms of the words. *)
Lemma join_words_nonempty (s : jsstring) (w : jsstring) (rest : list jsstring) :
  words s = w :: rest → join [32%N] (w :: rest) ≠ [].
Proof.
  intros Ew. pose proof (words_head s) as H. rewrite Ew in H.
  destruct H as (x & t & -> & _). destruct rest; discriminate.
Qed.

Lemma trimEnd_collapse (s : jsstring) (b : bool) :
  trimEnd (collapseFrom b s) =
  match words s with
  | [] => []
  | w => (if negb b && headIsWhiteSpace s then [32%N] else []) ++ join [32%N] w
  end.
Proof.
  revert b. induction s as [|c s IH]; intros b; [reflexivity|].
  cbn [collapseFrom words headIsWhiteSpace].
  destruct (isWhiteSpace c) eqn:E.
  - destruct b; cbn [negb andb].
    + rewrite IH. destruct (words s); reflexivity.
    + rewrite trimEnd_cons, IH.
      destruct (words s) as [|w rest] eqn:Ew; [reflexivity|].
      pose proof (join_words_nonempty s w rest Ew) as Hj.
      cbn [negb andb app].
      destruct (join [32%N] (w :: rest)); [done | reflexivity].
  - rewrite andb_false_r. cbn [app]. rewrite trimEnd_cons, IH.
    destruct s as [|c2 s]; [simpl; by rewrite E|].
    cbn [headIsWhiteSpace].
    destruct (isWhiteSpace c2) eqn:E2.
    + cbn [negb andb].
      assert (words (c2 :: s) = words s) as Hw by (cbn [words]; by rewrite E2).
      rewrite Hw.
      destruct (words s) as [|w rest]; [by rewrite E | reflexivity].
    + rewrite andb_false_r.
      destruct (words (c2 :: s)) as [|w rest] eqn:Ew.
      { exfalso. by apply (words_nonempty c2 s E2). }
      pose proof (join_words_nonempty _ w rest Ew) as Hj.
      cbn [app].
      destruct (join [32%N] (w :: rest)) eqn:Ej; [done|].
      rewrite <- Ej. destruct rest; reflexivity.
Qed.

Lemma words_snoc_ws (s : jsstring) (c : N) :
  isWhiteSpace c = true → words (s ++ [c]) = words s.
Proof.
  intros E. induction s as [|x s IH]; cbn [app words].
  - by rewrite E.
  - destruct (isWhiteSpace x); [exact IH|].
    destruct s as [|y s]; cbn [app] in *.
    + by rewrite E, IH.
    + by rewrite IH.
Qed.

Lemma trimEnd_snoc (s : jsstring) (c : N) :
  trimEnd (s ++ [c]) = if isWhiteSpace c then trimEnd s else s ++ [c].
Proof.
  unfold trimEnd. rewrite rev_app_distr. cbn [rev app trimStart].
  destruct (isWhiteSpace c); [reflexivity|].
  cbn [rev]. by rewrite rev_involutive.
Qed.

Lemma words_trimEnd (s : jsstring) : words (trimEnd s) = words s.
Proof.
  induction s as [|c s IH] using rev_ind; [reflexivity|].
  rewrite trimEnd_snoc. destruct (isWhiteSpace c) eqn:E; [|reflexivity].
  by rewrite IH, words_snoc_ws.
Qed.

Lemma words_trim (s : jsstring) : words (trim s) = words s.
Proof. unfold trim. by rewrite words_trimEnd, words_trimStart. Qed.

(** [s.replace(/\s+/g, " ").trim()] is the words of [s] joined by single
    spaces. *)
Lemma trim_collapse_words (s : jsstring) :
  trim (collapseWhiteSpace s) = join [32%N] (words s).
Proof.
  unfold trim, collapseWhiteSpace.
  rewrite trimStart_collapse, trimEnd_collapse, words_trimStart.
  rewrite trimStart_idem_head, andb_false_r.
  destruct (words s); reflexivity.
Qed.

(** A string trims to the empty string exactly when it has no word. *)
Lemma trim_nil_words (s : jsstring) : trim s = [] ↔ words s = [].
Proof.
  rewrite <- (words_trim s).
  split.
  - by intros ->.
  - intros Hw. destruct (trim s) as [|c t] eqn:E; [done|].
    assert (headIsWhiteSpace (trim s) = false) as Hh.
    { unfold trim. pose proof (trimStart_idem_head s) as H.
      pose proof (trimEnd_prefix (trimStart s)) as [k Hk].
      destruct (trimEnd (trimStart s)) as [|y t'] eqn:E2; [reflexivity|].
      rewrite Hk in H. exact H. }
    rewrite E in Hh. simpl in Hh. exfalso. by apply (words_nonempty c t Hh).
Qed.

(** ** Summary lines *)

Lemma elideText_length (text : jsstring) (limit : nat) :
  0 < limit → length (elideText text limit) ≤ limit.
Proof.
  intros Hl. unfold elideText.
  destruct (length text <=? limit) eqn:E.
  - by apply Nat.leb_le.
  - rewrite length_app. cbn [length].
    pose proof (length_trimEnd (take (limit - 1) text)) as H.
    rewrite length_take in H. lia.
Qed.

Lemma elideText_short (text : jsstring) (limit : nat) :
  length text ≤ limit → elideText text limit = text.
Proof.
  intros H. unfold elideText. by rewrite (proj2 (Nat.leb_le _ _) H).
Qed.

Lemma elideText_long (text : jsstring) (limit : nat) :
  limit < length text →
  ∃ p, p `prefix_of` text ∧ length p < limit `max` 1 ∧
       elideText text limit = p ++ [ellipsis].
Proof.
  intros H. unfold elideText.
  rewrite (proj2 (Nat.leb_gt _ _) H).
  exists (trimEnd (take (limit - 1) text)). split; [|split; [|done]].
  - etrans; [apply trimEnd_prefix | apply prefix_take].
  - pose proof (length_trimEnd (take (limit - 1) text)) as H1.
    rewrite length_take in H1. lia.
Qed.

(** The summary line is computed from the words of [summarySource]. *)
Lemma buildQueueSummaryLine_words (item : AnnounceQueueItem) :
  buildQueueSummaryLine item =
  elideText (join [32%N] (words (summarySource item))) 160.
Proof.
  unfold buildQueueSummaryLine, summarySource.
  rewrite trim_collapse_words. f_equal. f_equal.
  destruct (summaryLine item) as [s|]; [|apply words_trim].
  destruct (trim s) as [|c t] eqn:E.
  - apply trim_nil_words in E. rewrite E. apply words_trim.
  - rewrite <- E, words_trim.
    destruct (words s) eqn:Ew; [|done].
    apply trim_nil_words in Ew. congruence.
Qed.

(** ** Admission *)

Lemma getAnnounceQueue_eq (key : jsstring) (s : QueueSettings) (st : Store) :
  getAnnounceQueue key s st =
  let q := match st !! key with
           | Some existing => mergeSettings s existing
           | None => createdQueue s
           end in
  (<[key := q]> st, q).
Proof. unfold getAnnounceQueue. by destruct (st !! key). Qed.

Lemma enqueueAnnounce_eq (key : jsstring) (item : AnnounceQueueItem)
    (s : QueueSettings) (now : Z) (st : Store) :
  enqueueAnnounce key item s now st =
  (<[key := (admitItem item (settledQueue key s now st)).1]> st,
   (admitItem item (settledQueue key s now st)).2).
Proof.
  unfold enqueueAnnounce, getAnnounceQueue, settledQueue.
  destruct (st !! key) as [e|]; cbv beta iota zeta;
  match goal with |- context [admitItem ?i ?q] => destruct (admitItem i q) as [q' ok] end;
  cbn [fst snd]; by rewrite insert_insert_eq.
Qed.

Lemma shiftWhileLonger_spec (capacity : Z) (lines : list jsstring) :
  (0 ≤ capacity)%Z →
  shiftWhileLonger capacity lines =
  drop (length lines - Z.to_nat capacity) lines.
Proof.
  intros Hc. induction lines as [|l lines IH]; [done|].
  cbn [shiftWhileLonger]. destruct (capacity <? _)%Z eqn:E.
  - apply Z.ltb_lt in E. rewrite IH. cbn [length] in *.
    replace (S (length lines) - Z.to_nat capacity)
      with (S (length lines - Z.to_nat capacity)) by lia.
    reflexivity.
  - apply Z.ltb_ge in E. cbn [length] in *.
    replace (S (length lines) - Z.to_nat capacity) with 0 by lia.
    reflexivity.
Qed.

Lemma maintains_merge (capacity : Z) (policy : jsstring) (s : QueueSettings)
    (q : AnnounceQueueState) :
  maintains capacity policy s → cap q = capacity → dropPolicy q = policy →
  cap (mergeSettings s q) = capacity ∧ dropPolicy (mergeSettings s q) = policy.
Proof.
  intros [Hc Hp] Hq1 Hq2. unfold mergeSettings. cbn [cap dropPolicy]. split.
  - destruct (s_cap s) as [c|]; [|done]. destruct (Qlt_le_dec 0 c); done.
  - destruct (s_dropPolicy s) as [p|]; cbn; congruence.
Qed.

(** Below capacity, [admitItem] appends. *)
Lemma admitItem_room (item : AnnounceQueueItem) (q : AnnounceQueueState) :
  (Z.of_nat (length (items q)) < cap q ∨ cap q ≤ 0)%Z →
  admitItem item q = (withItems (items q ++ [item]) q, true).
Proof.
  intros H. unfold admitItem. cbn zeta.
  destruct ((0 <? cap q)%Z && (cap q <=? Z.of_nat (length (items q)))%Z) eqn:E;
    [|done].
  apply andb_true_iff in E as [E1 E2].
  apply Z.ltb_lt in E1. apply Z.leb_le in E2. lia.
Qed.

(** At capacity under the policy ["new"], [admitItem] refuses and leaves the
    entry alone. *)
Lemma admitItem_reject (item : AnnounceQueueItem) (q : AnnounceQueueState) :
  (0 < cap q)%Z → (cap q ≤ Z.of_nat (length (items q)))%Z →
  dropPolicy q = js "new" →
  admitItem item q = (q, false).
Proof.
  intros H1 H2 Hp. unfold admitItem. cbn zeta.
  rewrite (proj2 (Z.ltb_lt _ _) H1), (proj2 (Z.leb_le _ _) H2). cbn [andb].
  by rewrite decide_True.
Qed.

(** [admitItem] refuses only at capacity under the policy ["new"]. *)
Lemma admitItem_false (item : AnnounceQueueItem) (q q' : AnnounceQueueState) :
  admitItem item q = (q', false) →
  q' = q ∧ dropPolicy q = js "new" ∧
  (0 < cap q)%Z ∧ (cap q ≤ Z.of_nat (length (items q)))%Z.
Proof.
  unfold admitItem. cbn zeta.
  destruct ((0 <? cap q)%Z && (cap q <=? Z.of_nat (length (items q)))%Z) eqn:E;
    [|discriminate].
  apply andb_true_iff in E as [E1 E2].
  apply Z.ltb_lt in E1. apply Z.leb_le in E2.
  destruct (decide (dropPolicy q = js "new")); [|discriminate].
  intros [= <-]. done.
Qed.

(** Whatever [admitItem] does, the entry is not empty afterwards and its
    [draining] flag is as before. *)
Lemma admitItem_nonempty (item : AnnounceQueueItem) (q : AnnounceQueueState) :
  items (admitItem item q).1 ≠ [] ∧
  draining (admitItem item q).1 = draining q.
Proof.
  unfold admitItem. cbn zeta.
  destruct ((0 <? cap q)%Z && (cap q <=? Z.of_nat (length (items q)))%Z) eqn:E.
  - apply andb_true_iff in E as [E1 E2].
    apply Z.ltb_lt in E1. apply Z.leb_le in E2.
    destruct (decide (dropPolicy q = js "new")); cbn [fst].
    + split; [|done]. destruct (items q); [cbn in E2; lia | done].
    + split; [by destruct (drop _ _)|].
      by destruct (decide (dropPolicy q = js "summarize")).
  - cbn [fst]. split; [by destruct (items q) | done].
Qed.

Lemma enqueueEach_room (key : jsstring) (capacity : Z) (policy : jsstring)
    (calls : list EnqueueCall) (st : Store) (q0 : AnnounceQueueState) :
  st !! key = Some q0 → cap q0 = capacity → dropPolicy q0 = policy →
  (Z.of_nat (length (items q0) + length calls) ≤ capacity)%Z →
  Forall (λ c, maintains capacity policy (c_settings c)) calls →
  ∃ st1 q1,
    enqueueEach key calls st = (st1, replicate (length calls) true) ∧
    st1 !! key = Some q1 ∧
    items q1 = items q0 ++ (c_item <$> calls) ∧
    cap q1 = capacity ∧ dropPolicy q1 = policy.
Proof.
  revert st q0. induction calls as [|c calls IH]; intros st q0 Hk Hc Hp Hlen Hall.
  - exists st, q0. cbn. rewrite app_nil_r. done.
  - apply Forall_cons in Hall as [Hm Hall]. cbn [enqueueEach].
    rewrite enqueueAnnounce_eq. unfold settledQueue. rewrite Hk.
    destruct (maintains_merge _ _ _ _ Hm Hc Hp) as [Hc1 Hp1].
    rewrite admitItem_room.
    2:{ left. cbn [items cap withLastEnqueuedAt]. rewrite Hc1.
        unfold mergeSettings. cbn [items]. cbn [length] in Hlen. lia. }
    cbn [fst snd].
    set (q1 := withItems _ _).
    destruct (IH (<[key := q1]> st) q1) as (st1 & q2 & -> & Hk2 & Hi & Hc2 & Hp2).
    + apply lookup_insert_eq.
    + done.
    + done.
    + subst q1. unfold withItems, withLastEnqueuedAt, mergeSettings.
      cbn [items]. rewrite length_app. cbn [length] in *. lia.
    + done.
    + exists st1, q2. split; [done|]. split; [done|].
      split; [|done]. rewrite Hi. subst q1.
      unfold withItems, withLastEnqueuedAt, mergeSettings.
      cbn [items fmap list_fmap]. by rewrite <- app_assoc.
Qed.

(** C4. With capacity [N] and the drop policy ["new"] (reject-new), after
    [N] calls of [enqueueAnnounce] on a key that had no entry, all of which
    return [true], one more call returns [false] and leaves the item
    sequence as it was: the same [N] items in the same order. *)
Theorem C4_reject_new_keeps_sequence (key : jsstring) (st : Store)
    (first : EnqueueCall) (rest : list EnqueueCall) (extra : EnqueueCall) :
  let calls := first :: rest in
  let N := length calls in
  st !! key = None →
  establishes (Z.of_nat N) (js "new") (c_settings first) →
  Forall (λ c, maintains (Z.of_nat N) (js "new") (c_settings c)) (rest ++ [extra]) →
  ∃ st1 q1,
    enqueueEach key calls st = (st1, replicate N true) ∧
    st1 !! key = Some q1 ∧
    items q1 = c_item <$> calls ∧
    ∃ q2,
      enqueueAnnounce key (c_item extra) (c_settings extra) (c_now extra) st1
        = (<[key := q2]> st1, false) ∧
      items q2 = c_item <$> calls ∧
      length (items q2) = N ∧
      cap q2 = Z.of_nat N.
Proof.
  intros calls N Hfresh [Hcap Hpol] Hall.
  apply Forall_app in Hall as [Hrest Hextra].
  rewrite Forall_singleton in Hextra.
  subst calls. cbn [enqueueEach].
  rewrite enqueueAnnounce_eq. unfold settledQueue at 1 2. rewrite Hfresh.
  rewrite admitItem_room.
  2:{ left. cbn [items cap withLastEnqueuedAt]. rewrite Hcap.
      unfold createdQueue. cbn [items length]. subst N. cbn [length]. lia. }
  cbn [fst snd].
  set (q0 := withItems _ _).
  destruct (enqueueEach_room key (Z.of_nat N) (js "new") rest
              (<[key := q0]> st) q0) as (st1 & q1 & -> & Hk1 & Hi1 & Hc1 & Hp1).
  { apply lookup_insert_eq. }
  { exact Hcap. }
  { exact Hpol. }
  { subst q0 N. unfold withItems, withLastEnqueuedAt, createdQueue.
    cbn [items app length]. lia. }
  { exact Hrest. }
  assert (items q1 = c_item <$> first :: rest) as Hitems.
  { rewrite Hi1. subst q0. unfold withItems, withLastEnqueuedAt, createdQueue.
    reflexivity. }
  exists st1, q1. split; [reflexivity|]. split; [exact Hk1|]. split; [exact Hitems|].
  destruct (maintains_merge _ _ _ _ Hextra Hc1 Hp1) as [Hc2 Hp2].
  exists (withLastEnqueuedAt (c_now extra) (mergeSettings (c_settings extra) q1)).
  rewrite enqueueAnnounce_eq. unfold settledQueue. rewrite Hk1.
  assert (items (withLastEnqueuedAt (c_now extra) (mergeSettings (c_settings extra) q1))
          = c_item <$> first :: rest) as Hi2 by exact Hitems.
  rewrite admitItem_reject.
  - cbn [fst snd]. split; [reflexivity|]. split; [exact Hi2|].
    split; [|exact Hc2]. rewrite Hi2, length_fmap. reflexivity.
  - change (0 < cap (mergeSettings (c_settings extra) q1))%Z.
    rewrite Hc2. subst N. cbn [length]. lia.
  - rewrite Hi2, length_fmap.
    change (cap (mergeSettings (c_settings extra) q1) ≤ Z.of_nat (length (first :: rest)))%Z.
    rewrite Hc2. lia.
  - exact Hp2.
Qed.

Lemma C4_reject_new_keeps_sequence_witness :
  ∃ st1 q1,
    enqueueEach (js "k")
      [mkCall (sampleItem "A") (mkSettings (js "followup") None (Some 2%Q) (Some (js "new"))) 1%Z;
       mkCall (sampleItem "B") (mkSettings (js "followup") None None None) 2%Z]
      ∅ = (st1, [true; true]) ∧
    st1 !! js "k" = Some q1 ∧
    items q1 = [sampleItem "A"; sampleItem "B"] ∧
    ∃ q2,
      enqueueAnnounce (js "k") (sampleItem "C")
        (mkSettings (js "followup") None (Some (5 # 2)%Q) None) 3%Z st1
        = (<[js "k" := q2]> st1, false) ∧
      items q2 = [sampleItem "A"; sampleItem "B"] ∧
      length (items q2) = 2 ∧
      cap q2 = 2%Z.
Proof.
  apply (C4_reject_new_keeps_sequence (js "k") ∅
           (mkCall (sampleItem "A") (mkSettings (js "followup") None (Some 2%Q) (Some (js "new"))) 1%Z)
           [mkCall (sampleItem "B") (mkSettings (js "followup") None None None) 2%Z]
           (mkCall (sampleItem "C") (mkSettings (js "followup") None (Some (5 # 2)%Q) None) 3%Z)).
  - reflexivity.
  - split; reflexivity.
  - repeat constructor.
Defined.

(** At capacity under the policy ["summarize"], [admitItem] evicts from the
    front and records one summary line per evicted item. *)
Lemma admitItem_summarize (item : AnnounceQueueItem) (q : AnnounceQueueState) :
  (0 < cap q)%Z → (cap q ≤ Z.of_nat (length (items q)))%Z →
  dropPolicy q = js "summarize" →
  let k := length (items q) + 1 - Z.to_nat (cap q) in
  admitItem item q =
  (withItems (drop k (items q) ++ [item])
     (withDropped (droppedCount q + k)
        (shiftWhileLonger (cap q)
           (summaryLines q ++ (buildQueueSummaryLine <$> take k (items q))))
        q),
   true).
Proof.
  intros H1 H2 Hp k. unfold admitItem. cbn zeta.
  rewrite (proj2 (Z.ltb_lt _ _) H1), (proj2 (Z.leb_le _ _) H2). cbn [andb].
  rewrite Hp. rewrite decide_False by (by vm_compute).
  rewrite decide_True by reflexivity.
  replace (Z.to_nat (Z.of_nat (length (items q)) - cap q + 1)) with k by lia.
  rewrite length_take. replace (k `min` length (items q)) with k by lia.
  reflexivity.
Qed.

Lemma words_no_whiteSpace (s : jsstring) :
  Forall (Forall (λ c, isWhiteSpace c = false)) (words s).
Proof.
  induction s as [|c s IH]; [constructor|]. cbn [words].
  destruct (isWhiteSpace c) eqn:E; [exact IH|].
  destruct s as [|c2 s].
  - repeat constructor. exact E.
  - destruct (isWhiteSpace c2) eqn:E2.
    + constructor; [repeat constructor; exact E | exact IH].
    + destruct (words (c2 :: s)) as [|w rest].
      * repeat constructor. exact E.
      * apply Forall_cons in IH as [Hw Hrest].
        constructor; [constructor; [exact E | exact Hw] | exact Hrest].
Qed.

Lemma join_space_only (ws : list jsstring) :
  Forall (Forall (λ c, isWhiteSpace c = false)) ws →
  Forall (λ c, isWhiteSpace c = true → c = 32%N) (join [32%N] ws).
Proof.
  induction ws as [|w ws IH]; intros H; [constructor|].
  apply Forall_cons in H as [Hw Hws].
  assert (Forall (λ c, isWhiteSpace c = true → c = 32%N) w) as Hw'.
  { eapply Forall_impl; [exact Hw|]. intros c Hc Hc'. congruence. }
  destruct ws as [|w2 ws]; [exact Hw'|].
  rewrite join_cons_cons. apply Forall_app. split; [exact Hw'|].
  apply Forall_app. split; [by repeat constructor | by apply IH].
Qed.

Lemma words_full (s : jsstring) : Forall (λ w, w ≠ []) (words s).
Proof.
  induction s as [|c s IH]; [constructor|]. cbn [words].
  destruct (isWhiteSpace c); [exact IH|].
  destruct s as [|c2 s]; [by repeat constructor|].
  destruct (isWhiteSpace c2); [by constructor|].
  destruct (words (c2 :: s)) as [|w rest]; [by repeat constructor|].
  apply Forall_cons in IH as [_ Hrest]. by constructor.
Qed.

(** In words joined by single spaces no two units of white space stand
    side by side. *)
Lemma join_words_adjacent (ws : list jsstring) :
  Forall (Forall (λ c, isWhiteSpace c = false)) ws →
  Forall (λ w, w ≠ []) ws →
  ∀ i a b,
    join [32%N] ws !! i = Some a → join [32%N] ws !! S i = Some b →
    isWhiteSpace a = true → isWhiteSpace b = false.
Proof.
  induction ws as [|w ws IH]; intros Hn Hf i a b Ha Hb Hws; [done|].
  apply Forall_cons in Hn as [Hw Hn]. apply Forall_cons in Hf as [_ Hf].
  assert (∀ j x, w !! j = Some x → isWhiteSpace x = false) as Hwl
    by (intros j x Hx; by apply (proj1 (Forall_lookup _ _) Hw j x)).
  destruct ws as [|w2 ws].
  - cbn [join] in Ha. rewrite (Hwl i a Ha) in Hws. done.
  - rewrite join_cons_cons in Ha, Hb.
    destruct (decide (i < length w)) as [Hlt|Hge].
    + rewrite lookup_app_l in Ha by done. rewrite (Hwl i a Ha) in Hws. done.
    + rewrite lookup_app_r in Ha by lia. rewrite lookup_app_r in Hb by lia.
      replace (S i - length w) with (S (i - length w)) in Hb by lia.
      destruct (i - length w) as [|j] eqn:Ej.
      * change (([32%N] ++ join [32%N] (w2 :: ws)) !! 1)
          with (join [32%N] (w2 :: ws) !! 0) in Hb.
        pose proof (proj1 (Forall_cons _ _ _) Hf) as [Hw2 _].
        pose proof (proj1 (Forall_cons _ _ _) Hn) as [Hn2 _].
        destruct w2 as [|c t]; [done|].
        apply Forall_cons in Hn2 as [Hc _].
        assert (join [32%N] ((c :: t) :: ws) !! 0 = Some c) as Hc0
          by (by destruct ws).
        rewrite Hc0 in Hb. by injection Hb as <-.
      * change (([32%N] ++ join [32%N] (w2 :: ws)) !! S j)
          with (join [32%N] (w2 :: ws) !! j) in Ha.
        change (([32%N] ++ join [32%N] (w2 :: ws)) !! S (S j))
          with (join [32%N] (w2 :: ws) !! S j) in Hb.
        exact (IH Hn Hf j a b Ha Hb Hws).
Qed.

(** What [elideText] keeps of words joined by single spaces that are
    longer than the limit of 160: the first 159 units, or the first 158
    when the 159th is a space. *)
Lemma elideText_words (ws : list jsstring) :
  Forall (Forall (λ c, isWhiteSpace c = false)) ws →
  Forall (λ w, w ≠ []) ws →
  160 < length (join [32%N] ws) →
  elideText (join [32%N] ws) 160 =
  take (if bool_decide (join [32%N] ws !! 158 = Some 32%N) then 158 else 159)
    (join [32%N] ws) ++ [ellipsis].
Proof.
  intros Hn Hf Hlen. set (cleaned := join [32%N] ws) in *.
  unfold elideText. rewrite (proj2 (Nat.leb_gt _ _) Hlen). f_equal.
  change (160 - 1) with 159.
  destruct (lookup_lt_is_Some_2 cleaned 158 ltac:(lia)) as [c Hc].
  destruct (lookup_lt_is_Some_2 cleaned 157 ltac:(lia)) as [d Hd].
  rewrite (take_S_r cleaned 158 c Hc), trimEnd_snoc.
  pose proof (join_space_only ws Hn) as Hsp. fold cleaned in Hsp.
  assert (isWhiteSpace c = true → c = 32%N) as Hc32
    by exact (proj1 (Forall_lookup _ _) Hsp 158 c Hc).
  destruct (isWhiteSpace c) eqn:Ews.
  - specialize (Hc32 eq_refl). subst c.
    rewrite Hc, bool_decide_eq_true_2 by done.
    rewrite (take_S_r cleaned 157 d Hd), trimEnd_snoc.
    assert (isWhiteSpace d = false) as ->; [|done].
    destruct (isWhiteSpace d) eqn:Ed; [|done].
    pose proof (join_words_adjacent ws Hn Hf 157 d 32%N Hd Hc Ed) as H. done.
  - rewrite Hc, bool_decide_eq_false_2.
    + by rewrite <- (take_S_r cleaned 158 c Hc).
    + intros [= ->]. done.
Qed.

Lemma summaryLine_shape (it : AnnounceQueueItem) :
  let cleaned := join [32%N] (words (summarySource it)) in
  length (buildQueueSummaryLine it) ≤ 160 ∧
  (length cleaned ≤ 160 → buildQueueSummaryLine it = cleaned) ∧
  (160 < length cleaned →
   buildQueueSummaryLine it =
   take (if bool_decide (cleaned !! 158 = Some 32%N) then 158 else 159) cleaned
     ++ [ellipsis]).
Proof.
  intros cleaned. rewrite buildQueueSummaryLine_words. fold cleaned.
  split; [apply elideText_length; lia|]. split.
  - apply elideText_short.
  - intros H. apply elideText_words; [apply words_no_whiteSpace|apply words_full|done].
Qed.

(** C6. When [enqueueAnnounce] finds the queue at (or above) capacity under
    the drop policy ["summarize"] (evict-oldest-and-summarize):
    - it evicts the [k] oldest items, where [k] is the least number that
      makes room for the new item, and appends the new item;
    - [droppedCount] grows by [k];
    - the line stored for an evicted item is the words of its summary (of
      its prompt, when the summary is missing or blank) joined by single
      spaces, as it is when that has at most 160 units, and otherwise its
      first 159 units (its first 158, when the 159th is a space) followed
      by the ellipsis, at most 160 units in all;
    - the summary list keeps its newest entries, at most [cap] of them. *)
Theorem C6_evict_oldest_and_summarize (key : jsstring)
    (item : AnnounceQueueItem) (s : QueueSettings) (now : Z) (st : Store) :
  let q := settledQueue key s now st in
  let k := length (items q) + 1 - Z.to_nat (cap q) in
  let evicted := take k (items q) in
  let all := summaryLines q ++ (buildQueueSummaryLine <$> evicted) in
  dropPolicy q = js "summarize" →
  (0 < cap q)%Z →
  (cap q ≤ Z.of_nat (length (items q)))%Z →
  ∃ q',
    enqueueAnnounce key item s now st = (<[key := q']> st, true) ∧
    items q' = drop k (items q) ++ [item] ∧
    Z.of_nat (length (items q')) = cap q ∧
    (∀ j, j < k → (cap q < Z.of_nat (length (drop j (items q) ++ [item])))%Z) ∧
    droppedCount q' = droppedCount q + k ∧
    summaryLines q' = drop (length all - Z.to_nat (cap q)) all ∧
    (Z.of_nat (length (summaryLines q')) ≤ cap q)%Z ∧
    Forall (λ it,
      let cleaned := join [32%N] (words (summarySource it)) in
      length (buildQueueSummaryLine it) ≤ 160 ∧
      (length cleaned ≤ 160 → buildQueueSummaryLine it = cleaned) ∧
      (160 < length cleaned →
       buildQueueSummaryLine it =
       take (if bool_decide (cleaned !! 158 = Some 32%N) then 158 else 159)
         cleaned ++ [ellipsis]))
      evicted.
Proof.
  intros q k evicted all Hp H1 H2.
  rewrite enqueueAnnounce_eq. fold q.
  rewrite (admitItem_summarize item q H1 H2 Hp). fold k evicted all.
  cbn [fst snd]. eexists. split; [reflexivity|].
  cbn [items droppedCount summaryLines withItems withDropped].
  split; [reflexivity|]. split.
  { rewrite length_app, length_drop. cbn [length]. lia. }
  split.
  { intros j Hj. rewrite length_app, length_drop. cbn [length]. lia. }
  split; [reflexivity|].
  rewrite shiftWhileLonger_spec by lia.
  split; [reflexivity|]. split.
  { rewrite length_drop. lia. }
  apply Forall_forall. intros it _. apply summaryLine_shape.
Qed.

Lemma C6_evict_oldest_and_summarize_witness :
  let long1 := mkItem (replicate 158 97%N ++ 32%N :: replicate 50 98%N) None 0%Z
                 (js "agent:main:main") None None None in
  let long2 := mkItem (replicate 200 98%N) None 0%Z
                 (js "agent:main:main") None None None in
  let st : Store :=
    (enqueueEach (js "k")
       [mkCall (sampleItem "A  first") (mkSettings (js "followup") None (Some 4%Q) None) 1%Z;
        mkCall long1 (mkSettings (js "followup") None None None) 2%Z;
        mkCall long2 (mkSettings (js "followup") None None None) 3%Z;
        mkCall (sampleItem "X") (mkSettings (js "followup") None None None) 4%Z] ∅).1 in
  ∃ q',
    enqueueAnnounce (js "k") (sampleItem "C")
      (mkSettings (js "followup") None (Some 2%Q) None) 5%Z st
      = (<[js "k" := q']> st, true) ∧
    items q' = [sampleItem "X"; sampleItem "C"] ∧
    droppedCount q' = 3 ∧
    summaryLines q' =
      [replicate 158 97%N ++ [ellipsis]; replicate 159 98%N ++ [ellipsis]] ∧
    buildQueueSummaryLine (sampleItem "A  first") = js "A first" ∧
    buildQueueSummaryLine long1 = replicate 158 97%N ++ [ellipsis] ∧
    buildQueueSummaryLine long2 = replicate 159 98%N ++ [ellipsis].
Proof.
  intros long1 long2 st.
  destruct (C6_evict_oldest_and_summarize (js "k") (sampleItem "C")
              (mkSettings (js "followup") None (Some 2%Q) None) 5%Z st)
    as (q' & He & Hi & _ & _ & Hd & Hs & _ & Hshape).
  - reflexivity.
  - reflexivity.
  - vm_compute. discriminate.
  - pose proof (proj1 (Forall_lookup _ _) Hshape 0 (sampleItem "A  first") eq_refl)
      as (_ & Hshort & _).
    pose proof (proj1 (Forall_lookup _ _) Hshape 1 long1 eq_refl)
      as (_ & _ & Hlong1).
    pose proof (proj1 (Forall_lookup _ _) Hshape 2 long2 eq_refl)
      as (_ & _ & Hlong2).
    exists q'. split; [exact He|]. split; [exact Hi|]. split; [exact Hd|].
    split; [exact Hs|]. split; [|split].
    + apply Hshort. vm_compute. lia.
    + apply Hlong1. vm_compute. lia.
    + apply Hlong2. vm_compute. lia.
Defined.

(** ** The debounce wait *)

Lemma debounceLoop_returned (D : Q) (now : Z) (q : AnnounceQueueState)
    (wakes : list (Z * AnnounceQueueState)) (at_ last : Z) :
  debounceLoop D now q wakes = Returned at_ last →
  ∃ i qr,
    checks q now wakes !! i = Some (at_, qr) ∧
    last = lastEnqueuedAt qr ∧
    quietFor D (at_, qr) ∧
    ∀ j m, j < i → checks q now wakes !! j = Some m → ¬ quietFor D m.
Proof.
  revert now q. induction wakes as [|[t1 q1] wakes IH]; intros now q;
    cbn [debounceLoop]; cbv zeta;
    destruct (Qle_bool D (inject_Z (now - lastEnqueuedAt q))) eqn:E.
  - intros [= <- <-]. exists 0, q. split; [done|]. split; [done|].
    split; [by apply Qle_bool_iff|]. intros j m Hj. lia.
  - discriminate.
  - intros [= <- <-]. exists 0, q. split; [done|]. split; [done|].
    split; [by apply Qle_bool_iff|]. intros j m Hj. lia.
  - intros H. destruct (IH _ _ H) as (i & qr & Hi & Hl & Hq & Hmin).
    exists (S i), qr. split; [exact Hi|]. split; [exact Hl|]. split; [exact Hq|].
    intros [|j] m Hj Hm.
    + cbn in Hm. injection Hm as <-. unfold quietFor. cbn [fst snd].
      intros Hq'. apply Qle_bool_iff in Hq'. congruence.
    + apply (Hmin j m); [lia | exact Hm].
Qed.

Lemma debounceLoop_suspended (D : Q) (now : Z) (q : AnnounceQueueState)
    (wakes : list (Z * AnnounceQueueState)) (delay : Q) :
  debounceLoop D now q wakes = Suspended delay →
  ∃ t qs,
    last (checks q now wakes) = Some (t, qs) ∧
    delay = (D - inject_Z (t - lastEnqueuedAt qs))%Q ∧
    ¬ quietFor D (t, qs).
Proof.
  revert now q. induction wakes as [|[t1 q1] wakes IH]; intros now q;
    cbn [debounceLoop]; cbv zeta;
    destruct (Qle_bool D (inject_Z (now - lastEnqueuedAt q))) eqn:E;
    try discriminate.
  - intros [= <-]. exists now, q. split; [reflexivity|]. split; [reflexivity|].
    unfold quietFor. cbn [fst snd]. intros Hq. apply Qle_bool_iff in Hq. congruence.
  - intros H. destruct (IH _ _ H) as (t & qs & Hl & Hd & Hq).
    exists t, qs. split; [|done]. unfold checks in *.
    by rewrite last_cons, Hl.
Qed.

(** C7. [waitForQueueDebounce] reads the debounce value once, on entry.
    When that value is zero (or negative) it returns at once, whatever
    happens later. Otherwise it tests [now - lastEnqueuedAt >= debounce] at
    the call and again after every timer wake, each time against the
    [lastEnqueuedAt] the queue has at that moment, and it returns at the
    first of these moments at which the test holds: when it returns, the
    test holds for the current [lastEnqueuedAt], and it held at no earlier
    test. While the test fails and no timer has fired, the wait is suspended
    on a timer for the remaining time. *)
Theorem C7_debounce_returns_only_when_quiet (q : AnnounceQueueState) (now : Z)
    (wakes : list (Z * AnnounceQueueState)) :
  let D := Qmax 0 (debounceMs q) in
  ((debounceMs q <= 0)%Q →
   waitForQueueDebounce q now wakes = Returned now (lastEnqueuedAt q)) ∧
  ((0 < debounceMs q)%Q →
   (∀ at_ last,
      waitForQueueDebounce q now wakes = Returned at_ last →
      ∃ i qr,
        checks q now wakes !! i = Some (at_, qr) ∧
        last = lastEnqueuedAt qr ∧
        (debounceMs q <= inject_Z (at_ - last))%Q ∧
        ∀ j m, j < i → checks q now wakes !! j = Some m →
               ¬ (debounceMs q <= inject_Z (m.1 - lastEnqueuedAt m.2))%Q) ∧
   (∀ delay,
      waitForQueueDebounce q now wakes = Suspended delay →
      ∃ t qs, last (checks q now wakes) = Some (t, qs) ∧
              (delay == debounceMs q - inject_Z (t - lastEnqueuedAt qs))%Q ∧
              (0 < delay)%Q)).
Proof.
  intros D. split.
  - intros Hle. unfold waitForQueueDebounce. cbv zeta.
    assert (Qle_bool (Qmax 0 (debounceMs q)) 0 = true) as ->; [|reflexivity].
    apply Qle_bool_iff. rewrite Q.max_l by exact Hle. apply Qle_refl.
  - intros Hpos.
    assert (D == debounceMs q)%Q as HD.
    { subst D. apply Q.max_r. by apply Qlt_le_weak. }
    assert (waitForQueueDebounce q now wakes = debounceLoop D now q wakes) as ->.
    { unfold waitForQueueDebounce. cbv zeta. fold D.
      destruct (Qle_bool D 0) eqn:E; [|reflexivity].
      apply Qle_bool_iff in E. rewrite HD in E. exfalso.
      apply (Qlt_not_le _ _ Hpos E). }
    split.
    + intros at_ last H.
      destruct (debounceLoop_returned _ _ _ _ _ _ H) as (i & qr & Hi & Hl & Hq & Hmin).
      exists i, qr. split; [exact Hi|]. split; [exact Hl|]. split.
      * unfold quietFor in Hq. cbn [fst snd] in Hq. rewrite <- HD, Hl. exact Hq.
      * intros j m Hj Hm Hq'. apply (Hmin j m Hj Hm).
        unfold quietFor. rewrite HD. exact Hq'.
    + intros delay H.
      destruct (debounceLoop_suspended _ _ _ _ _ H) as (t & qs & Hl & Hd & Hq).
      exists t, qs. split; [exact Hl|]. split.
      * rewrite Hd, HD. reflexivity.
      * rewrite Hd. unfold quietFor in Hq. cbn [fst snd] in Hq.
        apply Qnot_le_lt in Hq.
        rewrite <- (Qplus_opp_r (inject_Z (t - lastEnqueuedAt qs))).
        apply Qplus_lt_l. exact Hq.
Qed.

Lemma C7_debounce_returns_only_when_quiet_witness :
  let q := mkQueue [sampleItem "A"] true 40%Z (js "collect") 50%Q 20%Z
                   (js "summarize") 0 [] in
  ∃ i qr,
    checks q 60%Z [(90%Z, q)] !! i = Some (90%Z, qr) ∧
    40%Z = lastEnqueuedAt qr ∧
    (debounceMs q <= inject_Z (90 - 40))%Q.
Proof.
  intros q.
  destruct (C7_debounce_returns_only_when_quiet q 60%Z [(90%Z, q)]) as [_ H].
  destruct H as [H _]; [reflexivity|].
  destruct (H 90%Z 40%Z) as (i & qr & H1 & H2 & H3 & _); [reflexivity|].
  exists i, qr. split; [exact H1|]. split; [exact H2|]. exact H3.
Defined.

(** C10. A call of [enqueueAnnounce] that returns [false] was made on a key
    that has an entry, at (or above) capacity, under the policy ["new"] as
    it stands after the call's own settings are merged. The call has stored
    the merged settings ([mode] always; [debounceMs], [cap] and [dropPolicy]
    when provided and valid) and the current time as [lastEnqueuedAt], and
    has changed nothing else. A debounce wait that tests its condition
    after that, less than its debounce value later, does not return at that
    test: it goes on to the next timer wake, or is suspended on a timer for
    the time that is left counting from the rejected call. *)
Theorem C10_rejected_enqueue_resets_clock (key : jsstring)
    (item : AnnounceQueueItem) (s : QueueSettings) (now : Z) (st : Store) :
  (enqueueAnnounce key item s now st).2 = false →
  ∃ q q',
    st !! key = Some q ∧
    (enqueueAnnounce key item s now st).1 = <[key := q']> st ∧
    q' = withLastEnqueuedAt now (mergeSettings s q) ∧
    mode q' = s_mode s ∧
    debounceMs q' = match s_debounceMs s with
                    | Some d => Qmax 0 d
                    | None => debounceMs q
                    end ∧
    cap q' = match s_cap s with
             | Some c => if Qlt_le_dec 0 c then Qfloor c else cap q
             | None => cap q
             end ∧
    dropPolicy q' = default (dropPolicy q) (s_dropPolicy s) ∧
    dropPolicy q' = js "new" ∧
    (0 < cap q' ≤ Z.of_nat (length (items q')))%Z ∧
    lastEnqueuedAt q' = now ∧
    items q' = items q ∧ draining q' = draining q ∧
    droppedCount q' = droppedCount q ∧ summaryLines q' = summaryLines q ∧
    ∀ (D : Q) (t : Z) (wakes : list (Z * AnnounceQueueState)),
      (inject_Z (t - now) < D)%Q →
      debounceLoop D t q' wakes =
      match wakes with
      | [] => Suspended (D - inject_Z (t - now))%Q
      | (t1, q1) :: rest => debounceLoop D t1 q1 rest
      end.
Proof.
  rewrite enqueueAnnounce_eq. cbn [fst snd]. intros Hrej.
  destruct (admitItem item (settledQueue key s now st)) as [q' ok] eqn:Ea.
  cbn [fst snd] in *. subst ok.
  apply admitItem_false in Ea as (-> & Hp & Hc1 & Hc2).
  unfold settledQueue in *.
  destruct (st !! key) as [q|] eqn:Hk.
  - exists q, (withLastEnqueuedAt now (mergeSettings s q)).
    do 14 (split; [done|]).
    intros D t wakes Hlt.
    destruct wakes as [|[t1 q1] rest]; cbn [debounceLoop]; cbv zeta;
      cbn [lastEnqueuedAt withLastEnqueuedAt];
      (destruct (Qle_bool D (inject_Z (t - now))) eqn:E; [|reflexivity]);
      apply Qle_bool_iff in E; exfalso; apply (Qlt_not_le _ _ Hlt E).
  - exfalso. revert Hc1 Hc2. unfold createdQueue, withLastEnqueuedAt.
    cbn [items cap length]. lia.
Qed.

Lemma C10_rejected_enqueue_resets_clock_witness :
  let st : Store :=
    (enqueueEach (js "k")
       [mkCall (sampleItem "A") (mkSettings (js "followup") (Some 50%Q) (Some 1%Q) (Some (js "new"))) 10%Z]
       ∅).1 in
  ∃ q',
    (enqueueAnnounce (js "k") (sampleItem "B")
       (mkSettings (js "collect") None None None) 40%Z st).1 = <[js "k" := q']> st ∧
    mode q' = js "collect" ∧
    lastEnqueuedAt q' = 40%Z ∧
    debounceLoop 50%Q 60%Z q' [] = Suspended (50 - inject_Z (60 - 40))%Q.
Proof.
  intros st.
  destruct (C10_rejected_enqueue_resets_clock (js "k") (sampleItem "B")
              (mkSettings (js "collect") None None None) 40%Z st)
    as (q & q' & _ & He & _ & Hm & _ & _ & _ & _ & _ & Hl & _ & _ & _ & _ & Hw).
  - reflexivity.
  - exists q'. split; [exact He|]. split; [exact Hm|]. split; [exact Hl|].
    apply (Hw 50%Q 60%Z []). reflexivity.
Defined.

(** ** Invariants of the store and the drains *)

Lemma loopGuard_quiescent (q : AnnounceQueueState) :
  loopGuard q = negb (quiescent q).
Proof.
  unfold loopGuard, quiescent.
  destruct (length (items q)), (droppedCount q); reflexivity.
Qed.

Lemma buildSummaryPrompt_frame (q : AnnounceQueueState) :
  let q' := (buildSummaryPrompt q).2 in
  items q' = items q ∧ draining q' = draining q ∧ mode q' = mode q ∧
  (droppedCount q' = droppedCount q ∨ droppedCount q' = 0).
Proof.
  unfold buildSummaryPrompt.
  destruct (negb _ || _); cbn; auto.
Qed.

Lemma shiftAndSend_frame (f : AnnounceQueueItem → AnnounceQueueItem)
    (q : AnnounceQueueState) :
  let q' := (shiftAndSend f q).1 in
  items q' = tail (items q) ∧ draining q' = draining q ∧
  droppedCount q' = droppedCount q.
Proof.
  unfold shiftAndSend. destruct (items q) eqn:E; cbn; rewrite ?E; auto.
Qed.

(** A pass never touches the [draining] flag. *)
Lemma drainPass_draining (force : bool) (q : AnnounceQueueState) :
  draining (drainPass force q).1.1 = draining q.
Proof.
  unfold drainPass.
  destruct (bool_decide (mode q = js "collect")).
  - destruct force.
    + pose proof (shiftAndSend_frame id q) as (_ & H & _).
      by destruct (shiftAndSend id q).
    + destruct (hasCrossChannelItems (items q)).
      * pose proof (shiftAndSend_frame id q) as (_ & H & _).
        by destruct (shiftAndSend id q).
      * pose proof (buildSummaryPrompt_frame (withItems [] q)) as (_ & H & _).
        destruct (buildSummaryPrompt (withItems [] q)) as [sm q2].
        by destruct (last (items q)).
  - pose proof (buildSummaryPrompt_frame q) as (_ & H & _).
    destruct (buildSummaryPrompt q) as [sm q1]. cbn [snd] in H.
    destruct (truthy sm).
    + pose proof (shiftAndSend_frame (withPrompt (default [] sm)) q1) as (_ & H2 & _).
      destruct (shiftAndSend _ q1). cbn in *. congruence.
    + pose proof (shiftAndSend_frame id q1) as (_ & H2 & _).
      destruct (shiftAndSend _ q1). cbn in *. congruence.
Qed.

Lemma invariant_init : invariant initSys.
Proof.
  split; [repeat split|]; cbn; intros *; rewrite ?lookup_empty; done.
Qed.

Lemma scheduleAnnounceDrain_invariant (key : jsstring) (s : Sys) :
  invariant s → invariant (scheduleAnnounceDrain key s).
Proof.
  intros [(I1 & I2 & I3 & I4) I5]. unfold scheduleAnnounceDrain.
  destruct (store s !! key) as [q|] eqn:Hk; [|done].
  destruct (draining q) eqn:Hd; [done|].
  assert (∀ n d, drains s !! n = Some d → d_key d ≠ key) as Hno.
  { intros n d Hn Heq. destruct (I2 n d Hn) as (q' & Hq' & Hdr).
    rewrite Heq, Hk in Hq'. congruence. }
  assert (drains s !! spawned s = None) as Hfresh.
  { destruct (drains s !! spawned s) eqn:E; [|done]. apply I1 in E. lia. }
  destruct (loopGuard (withDraining true q)) eqn:Hg.
  - split; [repeat split|]; unfold noIdleEntryAt; cbn [store drains spawned].
    + intros n d. rewrite lookup_insert. case_decide; [intros _; lia|].
      intros H'. apply I1 in H'. lia.
    + intros n d. rewrite lookup_insert. case_decide.
      * intros [= <-]. cbn. rewrite lookup_insert_eq. eauto.
      * intros Hn. rewrite lookup_insert_ne by (symmetry; eauto).
        eauto.
    + intros k q'. rewrite lookup_insert. case_decide.
      * subst k. intros _ _. exists (spawned s), (mkDrain key false AwaitDebounce).
        by rewrite lookup_insert_eq.
      * intros Hq' Hdr. destruct (I3 k q' Hq' Hdr) as (n & d & Hn & Hkd).
        exists n, d. split; [|done]. rewrite lookup_insert_ne; [done|].
        intros <-. congruence.
    + intros n1 n2 d1 d2. rewrite !lookup_insert.
      repeat case_decide; subst; try done.
      * intros [= <-] H2 Heq. cbn in Heq. exfalso. by eapply Hno.
      * intros H1 [= <-] Heq. cbn in Heq. exfalso. by eapply Hno.
      * eauto.
    + intros k q'. rewrite lookup_insert. case_decide.
      * intros [= <-]. congruence.
      * intros Hq' Hg'. destruct (I5 k q' Hq' Hg') as (n & d & Hn & Hkd & Hph).
        exists n, d. split; [|done]. rewrite lookup_insert_ne; [done|].
        intros <-. congruence.
  - split; [repeat split|]; unfold noIdleEntryAt; cbn [store drains spawned].
    + done.
    + intros n d Hn. rewrite lookup_delete_ne by (symmetry; eauto). eauto.
    + intros k q'. rewrite lookup_delete. case_decide; [done|]. eauto.
    + done.
    + intros k q'. rewrite lookup_delete. case_decide; [done|]. apply I5.
Qed.

(** Replacing an entry by one with the same [draining] flag keeps the
    drains consistent. *)
Lemma drainsConsistent_store (s : Sys) (key : jsstring)
    (q q1 : AnnounceQueueState) (snt : list AnnounceQueueItem) :
  drainsConsistent s → store s !! key = Some q → draining q1 = draining q →
  drainsConsistent (mkSys (<[key := q1]> (store s)) (drains s) (spawned s) snt).
Proof.
  intros (I1 & I2 & I3 & I4) Hk Hd. repeat split; cbn [store drains spawned].
  - done.
  - intros n d Hn. destruct (I2 n d Hn) as (q' & Hq' & Hdr).
    rewrite lookup_insert. case_decide; [|eauto].
    subst key. exists q1. split; [done|]. congruence.
  - intros k q'. rewrite lookup_insert. case_decide; [|eauto].
    subst k. intros [= <-] Hdr. apply (I3 key q Hk). congruence.
  - done.
Qed.

(** A drain that moves to another suspension point, or changes its local
    flag, keeps the drains consistent. *)
Lemma drainsConsistent_drain (s : Sys) (n : nat) (d : Drain) (f : bool)
    (p : Phase) :
  drainsConsistent s → drains s !! n = Some d →
  drainsConsistent
    (mkSys (store s) (<[n := mkDrain (d_key d) f p]> (drains s)) (spawned s) (sent s)).
Proof.
  intros (I1 & I2 & I3 & I4) Hn. repeat split; cbn [store drains spawned].
  - intros n' d'. rewrite lookup_insert. case_decide; [|eauto].
    subst n'. intros _. eauto.
  - intros n' d'. rewrite lookup_insert. case_decide; [|eauto].
    intros [= <-]. cbn. eauto.
  - intros k q Hq Hdr. destruct (I3 k q Hq Hdr) as (n1 & d1 & Hn1 & Hk1).
    destruct (decide (n1 = n)) as [->|Hne].
    + exists n, (mkDrain (d_key d) f p). rewrite lookup_insert_eq.
      split; [done|]. cbn. congruence.
    + exists n1, d1. by rewrite lookup_insert_ne.
  - intros n1 n2 d1 d2 H1 H2 Heq.
    destruct (decide (n1 = n)) as [E1|E1], (decide (n2 = n)) as [E2|E2].
    + congruence.
    + subst n1. rewrite lookup_insert_eq in H1. rewrite lookup_insert_ne in H2 by done.
      injection H1 as <-. cbn in Heq. symmetry. by eapply (I4 n2 n).
    + subst n2. rewrite lookup_insert_eq in H2. rewrite lookup_insert_ne in H1 by done.
      injection H2 as <-. cbn in Heq. by eapply (I4 n1 n).
    + rewrite lookup_insert_ne in H1, H2 by done. eauto.
Qed.

Lemma drainFinally_invariant (n : nat) (key : jsstring) (s : Sys) (d : Drain) :
  drainsConsistent s → (∀ k, k ≠ key → noIdleEntryAt s k) →
  drains s !! n = Some d → d_key d = key →
  invariant (drainFinally n key s).
Proof.
  intros (I1 & I2 & I3 & I4) I5 Hn Hkey. unfold drainFinally.
  destruct (I2 n d Hn) as (q & Hq & Hdr). rewrite Hkey in Hq. rewrite Hq.
  assert (∀ n' d', drains s !! n' = Some d' → n' ≠ n → d_key d' ≠ key) as Hother.
  { intros n' d' Hn' Hne Heq. apply Hne. eapply I4; eauto. congruence. }
  assert (∀ n' d', drains s !! n' = Some d' → d_key d' ≠ key → n' ≠ n) as Hother'.
  { intros n' d' Hn' Hne ->. congruence. }
  destruct (quiescent (withDraining false q)) eqn:Hqu.
  - split; [repeat split|]; unfold noIdleEntryAt; cbn [store drains spawned].
    + intros n' d'. rewrite lookup_delete. case_decide; [done|]. eauto.
    + intros n' d'. rewrite lookup_delete. case_decide; [done|]. intros Hn'.
      rewrite lookup_delete_ne by (symmetry; eauto). eauto.
    + intros k q'. rewrite lookup_delete. case_decide; [done|].
      intros Hq' Hdr'. destruct (I3 k q' Hq' Hdr') as (n1 & d1 & Hn1 & Hk1).
      exists n1, d1. split; [|done]. rewrite lookup_delete_ne; [done|].
      intros <-. congruence.
    + intros n1 n2 d1 d2. rewrite !lookup_delete.
      repeat case_decide; try done. eauto.
    + intros k q'. rewrite lookup_delete. case_decide; [done|].
      intros Hq' Hg. destruct (I5 k ltac:(done) q' Hq' Hg) as (n1 & d1 & Hn1 & Hk1 & Hp1).
      exists n1, d1. split; [|done]. rewrite lookup_delete_ne; [done|].
      intros <-. congruence.
  - apply scheduleAnnounceDrain_invariant.
    split; [repeat split|]; unfold noIdleEntryAt; cbn [store drains spawned].
    + intros n' d'. rewrite lookup_delete. case_decide; [done|]. eauto.
    + intros n' d'. rewrite lookup_delete. case_decide; [done|]. intros Hn'.
      rewrite lookup_insert_ne by (symmetry; eauto). eauto.
    + intros k q'. rewrite lookup_insert. case_decide.
      * intros [= <-]. done.
      * intros Hq' Hdr'. destruct (I3 k q' Hq' Hdr') as (n1 & d1 & Hn1 & Hk1).
        exists n1, d1. split; [|done]. rewrite lookup_delete_ne; [done|].
        intros <-. congruence.
    + intros n1 n2 d1 d2. rewrite !lookup_delete.
      repeat case_decide; try done. eauto.
    + intros k q'. rewrite lookup_insert. case_decide.
      * intros [= <-]. rewrite loopGuard_quiescent, Hqu. done.
      * intros Hq' Hg. destruct (I5 k ltac:(done) q' Hq' Hg) as (n1 & d1 & Hn1 & Hk1 & Hp1).
        exists n1, d1. split; [|done]. rewrite lookup_delete_ne; [done|].
        intros <-. congruence.
Qed.

Lemma settledQueue_draining (key : jsstring) (s : QueueSettings) (now : Z)
    (st : Store) :
  draining (settledQueue key s now st) =
  match st !! key with
  | Some q => draining q
  | None => false
  end.
Proof. unfold settledQueue. by destruct (st !! key). Qed.

(** Every step keeps the invariant. *)
Lemma step_invariant (a : Action) (s s' : Sys) :
  invariant s → step a s = Some s' → invariant s'.
Proof.
  intros [HC I5] Hstep. destruct a as [key item settings now|key|n|n ok]; cbn [step] in Hstep.
  - injection Hstep as <-. rewrite enqueueAnnounce_eq. cbn [fst].
    pose proof (admitItem_nonempty item (settledQueue key settings now (store s))) as [Hne Hdr].
    rewrite settledQueue_draining in Hdr.
    set (q' := (admitItem item _).1) in *.
    destruct HC as (I1 & I2 & I3 & I4).
    split; [repeat split|]; unfold noIdleEntryAt; cbn [store drains spawned].
    + done.
    + intros n d Hn. destruct (I2 n d Hn) as (q & Hq & Hd).
      rewrite lookup_insert. case_decide; [|eauto].
      subst key. rewrite Hq in Hdr. exists q'. split; [done|]. congruence.
    + intros k q. rewrite lookup_insert. case_decide; [|eauto].
      subst k. intros [= <-] Hd. rewrite Hd in Hdr.
      destruct (store s !! key) as [q0|] eqn:E; [|done]. eauto.
    + done.
    + intros k q. rewrite lookup_insert. case_decide; [|apply I5].
      intros [= <-]. unfold loopGuard. destruct (items q'); done.
  - injection Hstep as <-. by apply scheduleAnnounceDrain_invariant.
  - destruct (drains s !! n) as [d|] eqn:Hn; [|done]. cbn in Hstep.
    destruct (store s !! d_key d) as [q|] eqn:Hq; [|done]. cbn in Hstep.
    destruct (d_phase d) eqn:Hph; [|done].
    pose proof (drainPass_draining (d_force d) q) as Hdr.
    destruct (drainPass (d_force d) q) as [[q1 f1] r]. cbn [fst] in Hdr.
    destruct r as [arg|]; injection Hstep as <-.
    + pose proof (drainsConsistent_store s (d_key d) q q1 (sent s ++ [arg]) HC Hq Hdr) as HC1.
      pose proof (drainsConsistent_drain _ n d f1 AwaitSend HC1 Hn) as HC2.
      split; [exact HC2|].
      unfold noIdleEntryAt; cbn [store drains spawned].
      intros k q'. rewrite lookup_insert. case_decide.
      * subst k. intros _ _. exists n, (mkDrain (d_key d) f1 AwaitSend).
        by rewrite lookup_insert_eq.
      * intros Hq' Hg. destruct (I5 k q' Hq' Hg) as (n1 & d1 & Hn1 & Hk1 & Hp1).
        exists n1, d1. split; [|done]. rewrite lookup_insert_ne; [done|].
        intros <-. congruence.
    + eapply drainFinally_invariant; [| |exact Hn|reflexivity].
      * by eapply drainsConsistent_store.
      * intros k Hk. unfold noIdleEntryAt. cbn [store drains].
        rewrite lookup_insert_ne by done. apply I5.
  - destruct (drains s !! n) as [d|] eqn:Hn; [|done]. cbn in Hstep.
    destruct (store s !! d_key d) as [q|] eqn:Hq; [|done]. cbn in Hstep.
    destruct (d_phase d) eqn:Hph; [done|].
    destruct (ok && loopGuard q) eqn:Hok; injection Hstep as <-.
    + split; [by apply drainsConsistent_drain|].
      unfold noIdleEntryAt; cbn [store drains spawned].
      intros k q' Hq' Hg.
      destruct (decide (k = d_key d)) as [->|Hne].
      * apply andb_true_iff in Hok as [_ Hok]. congruence.
      * destruct (I5 k q' Hq' Hg) as (n1 & d1 & Hn1 & Hk1 & Hp1).
        exists n1, d1. split; [|done]. rewrite lookup_insert_ne; [done|].
        intros <-. congruence.
    + eapply drainFinally_invariant; [exact HC| |exact Hn|reflexivity].
      intros k _. apply I5.
Qed.

Lemma run_invariant (acts : list Action) (s s' : Sys) :
  invariant s → run acts s = Some s' → invariant s'.
Proof.
  revert s. induction acts as [|a acts IH]; intros s Hinv; cbn [run].
  - by intros [= <-].
  - destruct (step a s) as [s1|] eqn:E; [|done]. cbn.
    apply IH. by eapply step_invariant.
Qed.

Lemma reachable_invariant (s : Sys) : reachable s → invariant s.
Proof. intros [acts H]. eapply run_invariant; [apply invariant_init | exact H]. Qed.



(** C8. In every state the system can reach, an entry whose sequence is
    empty and whose dropped-count is zero has a drain that is waiting for
    the transport: no such entry is left in the store at rest. When the
    transport call of that drain ends, by resolving or by throwing, the
    drain stops and its key is removed from the store in the same step. An
    [enqueueAnnounce] on a key without entry starts from the state
    [getAnnounceQueue] creates, which has an empty sequence, no dropped
    items, no summary lines, a cleared [draining] flag, and settings taken
    from the call and the defaults alone. *)
Theorem C8_quiescent_entry_is_removed (s : Sys) :
  reachable s →
  (∀ key q,
     store s !! key = Some q → items q = [] → droppedCount q = 0 →
     ∃ n d, drains s !! n = Some d ∧ d_key d = key ∧ d_phase d = AwaitSend) ∧
  (∀ n d q ok,
     drains s !! n = Some d → d_phase d = AwaitSend →
     store s !! d_key d = Some q → items q = [] → droppedCount q = 0 →
     ∃ s', step (ASendDone n ok) s = Some s' ∧
           store s' !! d_key d = None ∧ drains s' !! n = None ∧
           (∀ k, k ≠ d_key d → store s' !! k = store s !! k)) ∧
  (∀ key settings item now,
     store s !! key = None →
     let created := createdQueue settings in
     getAnnounceQueue key settings (store s) =
       (<[key := created]> (store s), created) ∧
     items created = [] ∧ droppedCount created = 0 ∧
     summaryLines created = [] ∧ draining created = false ∧
     mode created = s_mode settings ∧
     debounceMs created = match s_debounceMs settings with
                          | Some d => Qmax 0 d
                          | None => 1000%Q
                          end ∧
     cap created = match s_cap settings with
                   | Some c => if Qlt_le_dec 0 c then Qfloor c else 20%Z
                   | None => 20%Z
                   end ∧
     dropPolicy created = default (js "summarize") (s_dropPolicy settings) ∧
     enqueueAnnounce key item settings now (store s) =
       (<[key := withItems [item] (withLastEnqueuedAt now created)]> (store s), true)).
Proof.
  intros Hr. destruct (reachable_invariant s Hr) as [HC I5].
  split; [|split].
  - intros key q Hq Hi Hd. apply (I5 key q Hq).
    unfold loopGuard. by rewrite Hi, Hd.
  - intros n d q ok Hn Hph Hq Hi Hd.
    assert (loopGuard q = false) as Hg by (unfold loopGuard; by rewrite Hi, Hd).
    cbn [step]. rewrite Hn. cbn. rewrite Hq. cbn. rewrite Hph, Hg, andb_false_r.
    eexists. split; [reflexivity|].
    unfold drainFinally. rewrite Hq.
    assert (quiescent (withDraining false q) = true) as ->.
    { unfold quiescent. cbn [items droppedCount withDraining]. by rewrite Hi, Hd. }
    cbn [store drains]. rewrite !lookup_delete_eq. split; [done|]. split; [done|].
    intros k Hk. by rewrite lookup_delete_ne.
  - intros key settings item now Hk created.
    split; [unfold getAnnounceQueue; by rewrite Hk|].
    do 8 (split; [reflexivity|]).
    rewrite enqueueAnnounce_eq. unfold settledQueue. rewrite Hk. fold created.
    rewrite admitItem_room; [reflexivity|].
    subst created. unfold createdQueue, withLastEnqueuedAt. cbn [items cap length].
    destruct (s_cap settings) as [c|]; [|lia].
    destruct (Qlt_le_dec 0 c) as [Hc|Hc]; [|lia].
    destruct (Z_lt_le_dec 0 (Qfloor c)); [left; lia | right; lia].
Qed.

Lemma C8_quiescent_entry_is_removed_witness :
  let s := default initSys
             (run [AEnqueue (js "k") (sampleItem "A")
                     (mkSettings (js "collect") None None None) 1%Z;
                   ASchedule (js "k"); AWake 0] initSys) in
  ∃ s', step (ASendDone 0 true) s = Some s' ∧ store s' !! js "k" = None.
Proof.
  intros s.
  destruct (C8_quiescent_entry_is_removed s) as (_ & H & _).
  - exists [AEnqueue (js "k") (sampleItem "A")
              (mkSettings (js "collect") None None None) 1%Z;
            ASchedule (js "k"); AWake 0].
    vm_compute. reflexivity.
  - destruct (H 0 (mkDrain (js "k") false AwaitSend)
                (mkQueue [] true 1%Z (js "collect") 1000%Q 20%Z (js "summarize") 0 [])
                true) as (s' & Hs & Hk & _); try (vm_compute; reflexivity).
    exists s'. split; [exact Hs | exact Hk].
Defined.

(** ** Cross-destination detection *)

Lemma size_gt_1 (X : gset jsstring) :
  1 < size X ↔ ∃ x y, x ∈ X ∧ y ∈ X ∧ x ≠ y.
Proof.
  split.
  - intros H.
    destruct (size_pos_elem_of X) as [x Hx]; [lia|].
    assert (size (X ∖ {[x]}) = size X - 1) as Hsz.
    { rewrite size_difference by set_solver. by rewrite size_singleton. }
    destruct (size_pos_elem_of (X ∖ {[x]})) as [y Hy]; [lia|].
    exists x, y. set_solver.
  - intros (x & y & Hx & Hy & Hne).
    assert ({[x; y]} ⊆ X) as Hsub by set_solver.
    apply subseteq_size in Hsub.
    rewrite size_union in Hsub by set_solver.
    rewrite !size_singleton in Hsub. lia.
Qed.

Lemma item_kinds (i : AnnounceQueueItem) :
  (unkeyed i = true ∧ keyed i = false ∧ halfKeyed i = false) ∨
  (unkeyed i = false ∧ keyed i = true ∧ halfKeyed i = false) ∨
  (unkeyed i = false ∧ keyed i = false ∧ halfKeyed i = true).
Proof.
  unfold halfKeyed, unkeyed, keyed, falsy.
  destruct (truthy (originatingChannel i)), (truthy (originatingTo i)),
    (truthy (originatingAccountId i)); cbn; auto.
Qed.

Lemma destKeys_cons (i : AnnounceQueueItem) (l : list AnnounceQueueItem) :
  destKeys (i :: l) =
  if keyed i then {[destKey i]} ∪ destKeys l else destKeys l.
Proof.
  unfold destKeys. rewrite filter_cons.
  destruct (keyed i); case_decide; try done.
Qed.

Lemma elem_of_destKeys (k : jsstring) (l : list AnnounceQueueItem) :
  k ∈ destKeys l ↔ ∃ i, i ∈ l ∧ keyed i = true ∧ destKey i = k.
Proof.
  unfold destKeys. rewrite elem_of_list_to_set, list_elem_of_fmap.
  split.
  - intros (i & -> & Hi). apply list_elem_of_filter in Hi as [Hk Hi]. eauto.
  - intros (i & Hi & Hk & <-). exists i. split; [done|].
    apply list_elem_of_filter. done.
Qed.

(** The loop of [hasCrossChannelItems], in terms of the kinds of items. *)
Lemma crossChannelLoop_spec (keys : gset jsstring) (u : bool)
    (l : list AnnounceQueueItem) :
  crossChannelLoop keys u l = true ↔
  (∃ i, i ∈ l ∧ halfKeyed i = true) ∨
  (size (keys ∪ destKeys l) ≠ 0 ∧
   (u = true ∨ (∃ i, i ∈ l ∧ unkeyed i = true) ∨ 1 < size (keys ∪ destKeys l))).
Proof.
  revert keys u. induction l as [|i l IH]; intros keys u.
  - cbn [crossChannelLoop]. unfold destKeys.
    cbn [filter list_filter fmap list_fmap list_to_set]. rewrite union_empty_r_L.
    destruct (size keys =? 0) eqn:E.
    + apply Nat.eqb_eq in E. split; [done|].
      intros [(i & Hi & _)|[H _]]; [by apply elem_of_nil in Hi | done].
    + apply Nat.eqb_neq in E. destruct u.
      * split; [auto|done].
      * rewrite Nat.ltb_lt. split.
        -- auto.
        -- intros [(i & Hi & _)|[_ [H|[(i & Hi & _)|H]]]];
             [by apply elem_of_nil in Hi | done | by apply elem_of_nil in Hi | done].
  - cbn [crossChannelLoop]. rewrite destKeys_cons.
    fold (unkeyed i).
    destruct (item_kinds i) as [(Hu & Hk & Hh)|[(Hu & Hk & Hh)|(Hu & Hk & Hh)]];
      rewrite Hu, Hk.
    + rewrite IH. split.
      * intros [(j & Hj & Hjh)|(Hs & _)].
        -- left. exists j. split; [by apply elem_of_cons; right | done].
        -- right. split; [done|]. right. left. exists i.
           split; [apply elem_of_cons; by left | done].
      * intros [(j & Hj & Hjh)|(Hs & Hor)].
        -- apply elem_of_cons in Hj as [->|Hj]; [congruence|]. left. eauto.
        -- right. split; [done|]. by left.
    + assert (falsy (originatingChannel i) || falsy (originatingTo i) = false) as ->.
      { unfold keyed, falsy in *.
        destruct (truthy (originatingChannel i)), (truthy (originatingTo i)); done. }
      rewrite IH. rewrite (assoc_L (∪)), (comm_L (∪) {[destKey i]} keys).
      split.
      * intros [(j & Hj & Hjh)|(Hs & Hor)].
        -- left. exists j. split; [by apply elem_of_cons; right | done].
        -- right. split; [done|]. destruct Hor as [H|[(j & Hj & Hju)|H]]; auto.
           right. left. exists j. split; [by apply elem_of_cons; right | done].
      * intros [(j & Hj & Hjh)|(Hs & Hor)].
        -- apply elem_of_cons in Hj as [->|Hj]; [congruence|]. left. eauto.
        -- right. split; [done|]. destruct Hor as [H|[(j & Hj & Hju)|H]]; auto.
           apply elem_of_cons in Hj as [->|Hj]; [congruence|]. eauto.
    + assert (falsy (originatingChannel i) || falsy (originatingTo i) = true) as ->.
      { unfold keyed, falsy in *.
        destruct (truthy (originatingChannel i)), (truthy (originatingTo i)); done. }
      split; [|done]. intros _. left. exists i.
      split; [apply elem_of_cons; by left | done].
Qed.

(** [hasCrossChannelItems] holds exactly when some item has a destination
    without channel or recipient, or the keyed items come with an unkeyed
    item or with two different destination keys. *)
Lemma hasCrossChannelItems_spec (l : list AnnounceQueueItem) :
  hasCrossChannelItems l = true ↔
  (∃ i, i ∈ l ∧ halfKeyed i = true) ∨
  ((∃ i, i ∈ l ∧ keyed i = true) ∧
   ((∃ i, i ∈ l ∧ unkeyed i = true) ∨
    (∃ i j, i ∈ l ∧ j ∈ l ∧ keyed i = true ∧ keyed j = true ∧
            destKey i ≠ destKey j))).
Proof.
  unfold hasCrossChannelItems. rewrite crossChannelLoop_spec.
  rewrite union_empty_l_L.
  assert (size (destKeys l) ≠ 0 ↔ ∃ i, i ∈ l ∧ keyed i = true) as H0.
  { split.
    - intros H. destruct (size_pos_elem_of (destKeys l)) as [k Hk]; [lia|].
      apply elem_of_destKeys in Hk as (i & Hi & Hk & _). eauto.
    - intros (i & Hi & Hk) Hs. apply size_empty_iff in Hs.
      assert (destKey i ∈ destKeys l) as Hin by (apply elem_of_destKeys; eauto).
      rewrite Hs in Hin. set_solver. }
  assert (1 < size (destKeys l) ↔
          ∃ i j, i ∈ l ∧ j ∈ l ∧ keyed i = true ∧ keyed j = true ∧
                 destKey i ≠ destKey j) as H1.
  { rewrite size_gt_1. split.
    - intros (x & y & Hx & Hy & Hne).
      apply elem_of_destKeys in Hx as (i & Hi & Hki & <-).
      apply elem_of_destKeys in Hy as (j & Hj & Hkj & <-).
      exists i, j. done.
    - intros (i & j & Hi & Hj & Hki & Hkj & Hne).
      exists (destKey i), (destKey j).
      split; [apply elem_of_destKeys; eauto|].
      split; [apply elem_of_destKeys; eauto|done]. }
  rewrite H0, H1. split.
  - intros [H|(Hk & [H|[H|H]])]; auto. done.
  - intros [H|(Hk & [H|H])]; auto.
Qed.

(** ** The sticky switch of a drain session *)

(** With the switch on, a pass takes the oldest item off the sequence, if
    there is one, and nothing else; in collect mode it hands that item to
    the transport as it is. The switch stays on. *)
Lemma drainPass_forced (q : AnnounceQueueState) :
  let '(q1, force1, r) := drainPass true q in
  force1 = true ∧ items q1 = tail (items q) ∧
  (mode q = js "collect" →
   q1 = withItems (tail (items q)) q ∧
   r = match items q with
       | [] => PassBreak
       | next :: _ => PassSend next
       end).
Proof.
  unfold drainPass.
  destruct (bool_decide (mode q = js "collect")) eqn:Em.
  - unfold shiftAndSend. destruct (items q) as [|next rest] eqn:Ei; cbn.
    + split; [done|]. split; [done|]. intros _. split; [|done].
      destruct q; cbn in *; by subst.
    + done.
  - apply bool_decide_eq_false in Em.
    pose proof (buildSummaryPrompt_frame q) as (Hi & _).
    destruct (buildSummaryPrompt q) as [sm q1]. cbn [snd] in Hi.
    destruct (truthy sm).
    + pose proof (shiftAndSend_frame (withPrompt (default [] sm)) q1) as (Hi2 & _).
      destruct (shiftAndSend _ q1) as [q2 r]. cbn [fst] in Hi2.
      split; [done|]. split; [congruence | done].
    + pose proof (shiftAndSend_frame id q1) as (Hi2 & _).
      destruct (shiftAndSend _ q1) as [q2 r]. cbn [fst] in Hi2.
      split; [done|]. split; [congruence | done].
Qed.

Lemma hasCrossChannelItems_nil : hasCrossChannelItems [] = false.
Proof. reflexivity. Qed.

(** With the switch off, a pass turns it on exactly in collect mode on a
    sequence for which [hasCrossChannelItems] holds, and such a pass ends
    with a transport call. *)
Lemma drainPass_trips (q : AnnounceQueueState) :
  let '(q1, force1, r) := drainPass false q in
  (force1 = true ↔ mode q = js "collect" ∧ hasCrossChannelItems (items q) = true) ∧
  (force1 = true → ∃ arg, r = PassSend arg).
Proof.
  unfold drainPass.
  destruct (bool_decide (mode q = js "collect")) eqn:Em.
  - apply bool_decide_eq_true in Em.
    destruct (hasCrossChannelItems (items q)) eqn:Ec.
    + unfold shiftAndSend. destruct (items q) as [|next rest] eqn:Ei.
      * by rewrite hasCrossChannelItems_nil in Ec.
      * cbn. split; [done|]. eauto.
    + destruct (buildSummaryPrompt (withItems [] q)) as [sm q2].
      destruct (last (items q)); (split; [split; [done | by intros [_ ?]] | done]).
  - apply bool_decide_eq_false in Em.
    destruct (buildSummaryPrompt q) as [sm q1].
    destruct (truthy sm).
    + destruct (shiftAndSend _ q1) as [q2 r].
      split; [split; [done | by intros [? _]] | done].
    + destruct (shiftAndSend _ q1) as [q2 r].
      split; [split; [done | by intros [? _]] | done].
Qed.

Lemma scheduleAnnounceDrain_drains (key : jsstring) (s : Sys) (n : nat) :
  n < spawned s →
  drains (scheduleAnnounceDrain key s) !! n = drains s !! n ∧
  spawned s ≤ spawned (scheduleAnnounceDrain key s) ∧
  sent (scheduleAnnounceDrain key s) = sent s.
Proof.
  intros Hn. unfold scheduleAnnounceDrain.
  destruct (store s !! key) as [q|]; [|done].
  destruct (draining q); [done|].
  destruct (loopGuard _); cbn [drains spawned sent]; [|done].
  rewrite lookup_insert_ne by lia. split; [done|]. split; [lia|done].
Qed.

Lemma drainFinally_drains (m : nat) (key : jsstring) (s : Sys) (n : nat) :
  n < spawned s →
  drains (drainFinally m key s) !! n =
    (if decide (m = n) then None else drains s !! n) ∧
  spawned s ≤ spawned (drainFinally m key s) ∧
  sent (drainFinally m key s) = sent s.
Proof.
  intros Hn. unfold drainFinally.
  destruct (store s !! key) as [q|]; cbn [drains sent spawned].
  - destruct (quiescent _); cbn [drains sent spawned].
    + by rewrite lookup_delete.
    + match goal with |- context [scheduleAnnounceDrain key ?s1] =>
        destruct (scheduleAnnounceDrain_drains key s1 n Hn) as (-> & Hs & ->) end.
      cbn [drains sent spawned] in *. by rewrite lookup_delete.
  - by rewrite lookup_delete.
Qed.

(** Numbers are given out in increasing order, and the number of a drain
    that has stopped is not given to another. *)
Lemma step_drain_gone (a : Action) (s s' : Sys) (n : nat) :
  step a s = Some s' → n < spawned s →
  n < spawned s' ∧ (drains s !! n = None → drains s' !! n = None).
Proof.
  intros Hstep Hlt.
  destruct a as [key item settings now|key|m|m ok]; cbn [step] in Hstep.
  - by injection Hstep as <-.
  - injection Hstep as <-.
    destruct (scheduleAnnounceDrain_drains key s n Hlt) as (E & Hs & _).
    rewrite E. split; [lia|done].
  - destruct (drains s !! m) as [dm|] eqn:Hm; [|done]. cbn in Hstep.
    destruct (store s !! d_key dm) as [q|] eqn:Hq; [|done]. cbn in Hstep.
    destruct (d_phase dm); [|done].
    destruct (drainPass (d_force dm) q) as [[q1 f1] r].
    destruct r as [arg|]; injection Hstep as <-.
    + cbn [drains spawned]. split; [done|]. intros Hn.
      rewrite lookup_insert_ne by congruence. done.
    + match goal with |- context [drainFinally _ _ ?s1] =>
        destruct (drainFinally_drains m (d_key dm) s1 n Hlt) as (E & Hs & _) end.
      rewrite E. cbn [drains spawned] in *. split; [lia|]. by case_decide.
  - destruct (drains s !! m) as [dm|] eqn:Hm; [|done]. cbn in Hstep.
    destruct (store s !! d_key dm) as [q|] eqn:Hq; [|done]. cbn in Hstep.
    destruct (d_phase dm); [done|].
    destruct (ok && loopGuard q); injection Hstep as <-.
    + cbn [drains spawned]. split; [done|]. intros Hn.
      rewrite lookup_insert_ne by congruence. done.
    + destruct (drainFinally_drains m (d_key dm) s n Hlt) as (E & Hs & _).
      rewrite E. split; [lia|]. by case_decide.
Qed.

Lemma run_drain_gone (acts : list Action) (s s' : Sys) (n : nat) :
  run acts s = Some s' → n < spawned s → drains s !! n = None →
  drains s' !! n = None.
Proof.
  revert s. induction acts as [|a acts IH]; intros s Hrun Hlt Hn.
  - cbn in Hrun. by simplify_eq.
  - cbn [run] in Hrun. destruct (step a s) as [s1|] eqn:Hs; [|done]. cbn in Hrun.
    destruct (step_drain_gone a s s1 n Hs Hlt) as [Hlt1 Hn1]. eauto.
Qed.

(** Once on, the switch of a drain stays on for as long as that drain
    runs. *)
Lemma step_force_sticky (a : Action) (s s' : Sys) (n : nat) (d d' : Drain) :
  invariant s → step a s = Some s' →
  drains s !! n = Some d → d_force d = true →
  drains s' !! n = Some d' →
  d_force d' = true ∧ d_key d' = d_key d.
Proof.
  intros [(I1 & _) _] Hstep Hn Hf Hn'.
  pose proof (I1 n d Hn) as Hlt.
  destruct a as [key item settings now|key|m|m ok]; cbn [step] in Hstep.
  - injection Hstep as <-. cbn [drains] in Hn'. by simplify_eq.
  - injection Hstep as <-.
    destruct (scheduleAnnounceDrain_drains key s n Hlt) as (E & _).
    rewrite E in Hn'. by simplify_eq.
  - destruct (drains s !! m) as [dm|] eqn:Hm; [|done]. cbn in Hstep.
    destruct (store s !! d_key dm) as [q|] eqn:Hq; [|done]. cbn in Hstep.
    destruct (d_phase dm); [|done].
    destruct (decide (m = n)) as [->|Hne].
    + assert (dm = d) as -> by congruence. rewrite Hf in Hstep.
      pose proof (drainPass_forced q) as Hp.
      destruct (drainPass true q) as [[q1 f1] r]. destruct Hp as (-> & _).
      destruct r as [arg|]; injection Hstep as <-.
      * cbn [drains] in Hn'. rewrite lookup_insert_eq in Hn'. by simplify_eq.
      * match type of Hn' with drains (drainFinally _ _ ?s1) !! _ = _ =>
          destruct (drainFinally_drains n (d_key d) s1 n Hlt) as (E & _) end.
        rewrite E, decide_True in Hn' by done. done.
    + destruct (drainPass (d_force dm) q) as [[q1 f1] r].
      destruct r as [arg|]; injection Hstep as <-.
      * cbn [drains] in Hn'. rewrite lookup_insert_ne in Hn' by done. by simplify_eq.
      * match type of Hn' with drains (drainFinally _ _ ?s1) !! _ = _ =>
          destruct (drainFinally_drains m (d_key dm) s1 n Hlt) as (E & _) end.
        rewrite E, decide_False in Hn' by done. cbn [drains] in Hn'. by simplify_eq.
  - destruct (drains s !! m) as [dm|] eqn:Hm; [|done]. cbn in Hstep.
    destruct (store s !! d_key dm) as [q|] eqn:Hq; [|done]. cbn in Hstep.
    destruct (d_phase dm); [done|].
    destruct (ok && loopGuard q); injection Hstep as <-.
    + cbn [drains] in Hn'. rewrite lookup_insert in Hn'. case_decide.
      * subst m. by simplify_eq.
      * by simplify_eq.
    + destruct (drainFinally_drains m (d_key dm) s n Hlt) as (E & _).
      rewrite E in Hn'. case_decide; [done|]. by simplify_eq.
Qed.

Lemma run_force_sticky (acts : list Action) (s s' : Sys) (n : nat) (d d' : Drain) :
  invariant s → run acts s = Some s' →
  drains s !! n = Some d → d_force d = true →
  drains s' !! n = Some d' →
  d_force d' = true ∧ d_key d' = d_key d.
Proof.
  revert s d. induction acts as [|a acts IH]; intros s d Hinv Hrun Hn Hf Hn'.
  - cbn in Hrun. by simplify_eq.
  - cbn [run] in Hrun. destruct (step a s) as [s1|] eqn:Hs; [|done]. cbn in Hrun.
    pose proof (step_invariant a s s1 Hinv Hs) as Hinv1.
    destruct (drains s1 !! n) as [d1|] eqn:Hn1.
    + destruct (step_force_sticky a s s1 n d d1 Hinv Hs Hn Hf Hn1) as [Hf1 Hk1].
      destruct (IH s1 d1 Hinv1 Hrun Hn1 Hf1 Hn') as [Hf' Hk']. split; congruence.
    + destruct Hinv as [(I1 & _) _]. pose proof (I1 n d Hn) as Hlt.
      destruct (step_drain_gone a s s1 n Hs Hlt) as [Hlt1 _].
      rewrite (run_drain_gone acts s1 s' n Hrun Hlt1 Hn1) in Hn'. done.
Qed.

(** C2, as the specification states it, fails: two pending items with the
    same (channel, recipient) pair but different account ids trip the
    switch, and the pass delivers the first of them alone. *)
Lemma C2_same_pair_other_account_trips :
  let i1 := mkItem (js "A") None 0%Z (js "k")
              (Some (js "whatsapp")) (Some (js "+15550001")) (Some (js "work")) in
  let i2 := mkItem (js "B") None 0%Z (js "k")
              (Some (js "whatsapp")) (Some (js "+15550001")) (Some (js "home")) in
  let q := mkQueue [i1; i2] true 0%Z (js "collect") 0%Q 20%Z (js "summarize") 0 [] in
  originatingChannel i1 = originatingChannel i2 ∧
  originatingTo i1 = originatingTo i2 ∧
  hasCrossChannelItems [i1; i2] = true ∧
  drainPass false q = (withItems [i2] q, true, PassSend i1).
Proof. vm_compute. repeat split; reflexivity. Qed.

(** C2, amended. In collect mode a drain whose switch is off turns it on at
    a pass exactly when [hasCrossChannelItems] holds of the pending items,
    that is, when some pending item has destination metadata but lacks the
    channel or the recipient, or when the pending items that have both come
    with an item without any destination metadata or with a second
    destination key (channel, recipient and account id joined by a bar).
    Once the switch of a drain is on it stays on for as long as that drain
    runs, whatever is enqueued meanwhile, and each of its passes in collect
    mode hands at most the oldest pending item to the transport. Items that
    all carry the same channel, recipient and account id do not turn the
    switch on. *)
Theorem C2_cross_destination_switch (s : Sys) :
  reachable s →
  (∀ n d q s',
     drains s !! n = Some d → d_force d = false →
     store s !! d_key d = Some q → step (AWake n) s = Some s' →
     ((∃ d', drains s' !! n = Some d' ∧ d_force d' = true) ↔
      (mode q = js "collect" ∧ hasCrossChannelItems (items q) = true))) ∧
  (∀ l,
     hasCrossChannelItems l = true ↔
     (∃ i, i ∈ l ∧ halfKeyed i = true) ∨
     ((∃ i, i ∈ l ∧ keyed i = true) ∧
      ((∃ i, i ∈ l ∧ unkeyed i = true) ∨
       (∃ i j, i ∈ l ∧ j ∈ l ∧ keyed i = true ∧ keyed j = true ∧
               destKey i ≠ destKey j)))) ∧
  (∀ acts s' n d d',
     drains s !! n = Some d → d_force d = true →
     run acts s = Some s' → drains s' !! n = Some d' →
     d_force d' = true) ∧
  (∀ n d q s',
     drains s !! n = Some d → d_force d = true →
     store s !! d_key d = Some q → mode q = js "collect" →
     step (AWake n) s = Some s' →
     sent s' = sent s ++ take 1 (items q)) ∧
  (∀ l c t a,
     truthy c = true → truthy t = true →
     (∀ i, i ∈ l →
        originatingChannel i = c ∧ originatingTo i = t ∧
        originatingAccountId i = a) →
     hasCrossChannelItems l = false).
Proof.
  intros Hr. pose proof (reachable_invariant s Hr) as Hinv.
  pose proof Hinv as [(I1 & _) _].
  split; [|split; [|split; [|split]]].
  - intros n d q s' Hn Hf Hq Hstep. pose proof (I1 n d Hn) as Hlt.
    cbn [step] in Hstep. rewrite Hn in Hstep. cbn in Hstep.
    rewrite Hq in Hstep. cbn in Hstep.
    destruct (d_phase d); [|done]. rewrite Hf in Hstep.
    pose proof (drainPass_trips q) as Ht.
    destruct (drainPass false q) as [[q1 f1] r]. destruct Ht as [Hiff Hsend].
    rewrite <- Hiff. destruct r as [arg|]; injection Hstep as <-.
    + cbn [drains]. rewrite lookup_insert_eq. split.
      * by intros (d' & [= <-] & Hd').
      * intros ->. eauto.
    + match goal with |- context [drainFinally _ _ ?s1] =>
        destruct (drainFinally_drains n (d_key d) s1 n Hlt) as (E & _) end.
      rewrite E, decide_True by done. split.
      * by intros (d' & ? & _).
      * intros Hf1. by destruct (Hsend Hf1).
  - apply hasCrossChannelItems_spec.
  - intros acts s' n d d' Hn Hf Hrun Hn'.
    by destruct (run_force_sticky acts s s' n d d' Hinv Hrun Hn Hf Hn').
  - intros n d q s' Hn Hf Hq Hm Hstep. pose proof (I1 n d Hn) as Hlt.
    cbn [step] in Hstep. rewrite Hn in Hstep. cbn in Hstep.
    rewrite Hq in Hstep. cbn in Hstep.
    destruct (d_phase d); [|done]. rewrite Hf in Hstep.
    pose proof (drainPass_forced q) as Hp.
    destruct (drainPass true q) as [[q1 f1] r].
    destruct Hp as (_ & _ & Hc). destruct (Hc Hm) as [_ ->].
    destruct (items q) as [|next rest]; injection Hstep as <-.
    + match goal with |- context [drainFinally _ _ ?s1] =>
        destruct (drainFinally_drains n (d_key d) s1 n Hlt) as (_ & _ & ->) end.
      cbn. by rewrite app_nil_r.
    + reflexivity.
  - intros l c t a Hc Ht Hall.
    destruct (hasCrossChannelItems l) eqn:E; [|done]. exfalso.
    assert (∀ i, i ∈ l → keyed i = true ∧ unkeyed i = false ∧ halfKeyed i = false
                        ∧ destKey i = join (js "|") [default [] c; default [] t;
                                         if truthy a then default [] a else []]) as Hk.
    { intros i Hi. destruct (Hall i Hi) as (Hic & Hit & Hia).
      unfold keyed, unkeyed, halfKeyed, keyed, unkeyed, falsy, destKey.
      rewrite Hic, Hit, Hia, Hc, Ht. done. }
    apply hasCrossChannelItems_spec in E as [(i & Hi & Hh)|(_ & [(i & Hi & Hu)|H])].
    + destruct (Hk i Hi) as (_ & _ & ? & _). congruence.
    + destruct (Hk i Hi) as (_ & ? & _). congruence.
    + destruct H as (i & j & Hi & Hj & _ & _ & Hne).
      destruct (Hk i Hi) as (_ & _ & _ & Ei), (Hk j Hj) as (_ & _ & _ & Ej).
      congruence.
Qed.

Lemma C2_cross_destination_switch_witness :
  let i1 := mkItem (js "A") None 0%Z (js "k")
              (Some (js "whatsapp")) (Some (js "+15550001")) None in
  let i2 := mkItem (js "B") None 0%Z (js "k")
              (Some (js "telegram")) (Some (js "42")) None in
  let cfg := mkSettings (js "collect") None None None in
  let s := default initSys
             (run [AEnqueue (js "k") i1 cfg 1%Z; ASchedule (js "k");
                   AEnqueue (js "k") i2 cfg 2%Z; AWake 0] initSys) in
  let s' := default initSys
              (run [ASendDone 0 true; AEnqueue (js "k") i1 cfg 3%Z; AWake 0] s) in
  d_force <$> drains s' !! 0 = Some true.
Proof.
  intros i1 i2 cfg s s'.
  destruct (C2_cross_destination_switch s) as (_ & _ & H & _).
  - exists [AEnqueue (js "k") i1 cfg 1%Z; ASchedule (js "k");
            AEnqueue (js "k") i2 cfg 2%Z; AWake 0].
    vm_compute. reflexivity.
  - assert (drains s' !! 0 = Some (mkDrain (js "k") true AwaitSend)) as E
      by (vm_compute; reflexivity).
    assert (d_force (mkDrain (js "k") true AwaitSend) = true) as Hf.
    { apply (H [ASendDone 0 true; AEnqueue (js "k") i1 cfg 3%Z; AWake 0] s' 0
               (mkDrain (js "k") true AwaitSend) (mkDrain (js "k") true AwaitSend));
        vm_compute; reflexivity. }
    rewrite E. cbn [fmap option_fmap option_map]. by rewrite Hf.
Defined.

(** ** Payloads *)

Lemma trimEnd_app_keep (a b : jsstring) :
  trimEnd b ≠ [] → trimEnd (a ++ b) = a ++ trimEnd b.
Proof.
  intros Hb. induction a as [|c a IH]; [done|].
  cbn [app]. rewrite trimEnd_cons, IH.
  destruct (a ++ trimEnd b) eqn:E; [|done].
  apply app_eq_nil in E as [_ E]. done.
Qed.

Lemma trimEnd_app_drop (a b : jsstring) :
  trimEnd b = [] → trimEnd (a ++ b) = trimEnd a.
Proof.
  intros Hb. induction a as [|c a IH]; [done|].
  cbn [app]. by rewrite !trimEnd_cons, IH.
Qed.

(** In a block the prompt loses the white space at its end, and nothing
    else changes. *)
Lemma collectBlock_trimEnd (idx : nat) (item : AnnounceQueueItem) :
  collectBlock idx item = trimEnd (rawBlock idx item).
Proof. reflexivity. Qed.

Lemma collectBlock_prompt (idx : nat) (item : AnnounceQueueItem) :
  trimEnd (prompt item) ≠ [] →
  collectBlock idx item = blockLabel idx ++ nl ++ trimEnd (prompt item).
Proof.
  intros H. rewrite collectBlock_trimEnd. unfold rawBlock.
  rewrite (assoc_L (++)). rewrite trimEnd_app_keep by done.
  by rewrite <- (assoc_L (++)).
Qed.

(** The notice is built exactly under the policy ["summarize"] with a
    positive dropped-count; it is never the empty string, and building it
    resets the count and clears the summary list. *)
Lemma buildSummaryPrompt_spec (q : AnnounceQueueState) :
  buildSummaryPrompt q =
  if decide (dropPolicy q = js "summarize" ∧ 0 < droppedCount q)
  then (Some (overflowNotice (droppedCount q) (summaryLines q)), withDropped 0 [] q)
  else (None, q).
Proof.
  unfold buildSummaryPrompt, overflowNotice.
  destruct (bool_decide (dropPolicy q = js "summarize")) eqn:Ep; cbn [negb orb].
  - apply bool_decide_eq_true in Ep.
    destruct (droppedCount q <=? 0) eqn:Ed.
    + apply Nat.leb_le in Ed. rewrite decide_False; [done|]. intros [_ ?]. lia.
    + apply Nat.leb_gt in Ed. by rewrite decide_True.
  - apply bool_decide_eq_false in Ep. rewrite decide_False; [done|]. by intros [? _].
Qed.

Lemma overflowNotice_truthy (n : nat) (lines : list jsstring) :
  truthy (Some (overflowNotice n lines)) = true.
Proof.
  unfold overflowNotice, overflowHeader.
  destruct lines; reflexivity.
Qed.

(** C3, as the specification states it, fails: a block does not carry the
    raw prompt of its item when that prompt ends in white space. *)
Lemma C3_block_is_not_the_raw_prompt :
  let item := sampleItem "task finished " in
  let q := mkQueue [item] true 0%Z (js "collect") 0%Q 20%Z (js "summarize") 0 [] in
  ∃ q1 arg,
    drainPass false q = (q1, false, PassSend arg) ∧
    prompt arg ≠ combinedPayload None [rawBlock 0 item] ∧
    prompt arg = combinedPayload None [blockLabel 0 ++ nl ++ js "task finished"].
Proof.
  do 2 eexists. split; [vm_compute; reflexivity|].
  split; [vm_compute; discriminate | vm_compute; reflexivity].
Qed.

(** C3, amended. In collect mode, with the switch off and pending items
    for which [hasCrossChannelItems] does not hold, a pass on a sequence
    that is not empty removes the whole sequence and makes one transport
    call. Its payload is the marker line, then the overflow notice if the
    policy is ["summarize"] and the dropped-count is positive, then one
    block per item in the order of the sequence, each made of the label
    with the position counted from 1 and of the prompt of the item without
    the white space at its end. Apart from the payload the call carries the
    fields of the newest item of the sequence, its session key and origin
    among them. *)
Theorem C3_collect_pass_coalesces (q : AnnounceQueueState)
    (newest : AnnounceQueueItem) :
  mode q = js "collect" →
  hasCrossChannelItems (items q) = false →
  last (items q) = Some newest →
  let pending := dropPolicy q = js "summarize" ∧ 0 < droppedCount q in
  let notice := if decide pending
                then Some (overflowNotice (droppedCount q) (summaryLines q))
                else None in
  let payload := combinedPayload notice
                   (imap (λ idx it, trimEnd (rawBlock idx it)) (items q)) in
  let q1 := withItems [] (if decide pending then withDropped 0 [] q else q) in
  drainPass false q = (q1, false, PassSend (withPrompt payload newest)) ∧
  items q1 = [] ∧
  sessionKey (withPrompt payload newest) = sessionKey newest ∧
  originatingChannel (withPrompt payload newest) = originatingChannel newest ∧
  originatingTo (withPrompt payload newest) = originatingTo newest ∧
  originatingAccountId (withPrompt payload newest) = originatingAccountId newest ∧
  (∀ idx it, items q !! idx = Some it → trimEnd (prompt it) ≠ [] →
     trimEnd (rawBlock idx it) = blockLabel idx ++ nl ++ trimEnd (prompt it)) ∧
  (∀ s n d,
     drains s !! n = Some d → d_force d = false → d_phase d = AwaitDebounce →
     store s !! d_key d = Some q →
     step (AWake n) s =
       Some (mkSys (<[d_key d := q1]> (store s))
                   (<[n := mkDrain (d_key d) false AwaitSend]> (drains s))
                   (spawned s)
                   (sent s ++ [withPrompt payload newest]))).
Proof.
  intros Hm Hc Hl pending notice payload q1.
  assert (drainPass false q = (q1, false, PassSend (withPrompt payload newest))) as Hpass.
  { unfold drainPass. rewrite bool_decide_eq_true_2 by done. rewrite Hc.
    rewrite buildSummaryPrompt_spec. cbn [dropPolicy droppedCount summaryLines withItems].
    fold pending. subst q1 payload notice.
    destruct (decide pending); rewrite Hl; unfold buildCollectPrompt, combinedPayload.
    - rewrite overflowNotice_truthy. reflexivity.
    - reflexivity. }
  split; [exact Hpass|]. split; [reflexivity|].
  do 4 (split; [reflexivity|]). split.
  - intros idx it _ Hne. rewrite <- collectBlock_trimEnd. by apply collectBlock_prompt.
  - intros s n d Hn Hf Hph Hq. cbn [step]. rewrite Hn. cbn. rewrite Hq. cbn.
    rewrite Hph, Hf, Hpass. reflexivity.
Qed.

Lemma C3_collect_pass_coalesces_witness :
  let a := sampleItem "first" in
  let b := mkItem (js "second  ") None 5%Z (js "agent:main:other") None None None in
  let q := mkQueue [a; b] true 0%Z (js "collect") 0%Q 20%Z (js "summarize") 1
                   [js "lost"] in
  ∃ q1 arg,
    drainPass false q = (q1, false, PassSend arg) ∧
    items q1 = [] ∧
    sessionKey arg = js "agent:main:other" ∧
    prompt arg =
      combinedPayload (Some (overflowNotice 1 [js "lost"]))
        [blockLabel 0 ++ nl ++ js "first"; blockLabel 1 ++ nl ++ js "second"].
Proof.
  intros a b q.
  destruct (C3_collect_pass_coalesces q b) as (Hp & Hi & Hk & _).
  - reflexivity.
  - reflexivity.
  - reflexivity.
  - do 2 eexists. split; [exact Hp|]. split; [exact Hi|]. split; [exact Hk|].
    vm_compute. reflexivity.
Defined.

(** ** Overflow notices outside coalescing *)

(** Outside collect mode, a pass that finds a notice to send takes the
    oldest item off the sequence and sends the notice in its place: the
    call carries the fields of that item, but the notice as its prompt. *)
Lemma drainPass_notice_outside_collect (force : bool) (q : AnnounceQueueState)
    (next : AnnounceQueueItem) (rest : list AnnounceQueueItem) :
  mode q ≠ js "collect" → dropPolicy q = js "summarize" → 0 < droppedCount q →
  items q = next :: rest →
  drainPass force q =
  (withItems rest (withDropped 0 [] q), force,
   PassSend (withPrompt (overflowNotice (droppedCount q) (summaryLines q)) next)).
Proof.
  intros Hm Hp Hd Hi. unfold drainPass.
  rewrite bool_decide_eq_false_2 by done.
  rewrite buildSummaryPrompt_spec, decide_True by done.
  rewrite overflowNotice_truthy. unfold shiftAndSend.
  cbn [items withDropped]. rewrite Hi. reflexivity.
Qed.

(** C1 fails on the code. In followup mode, with items A and B pending and
    one dropped item to report, the pass sends the overflow notice under
    the session key of A and removes A from the sequence; the next pass
    sends B, and the drain ends with the key removed. The prompt of A is
    never handed to the transport. In collect mode with the switch on, the
    pass sends A as it is and leaves the dropped-count alone: no notice is
    built at that pass. *)
Theorem C1_notice_takes_the_place_of_the_oldest_item :
  let a := sampleItem "result of task A" in
  let b := sampleItem "result of task B" in
  let notice := overflowNotice 1 [js "result of task Z"] in
  let q := mkQueue [a; b] true 0%Z (js "followup") 0%Q 2%Z (js "summarize") 1
                   [js "result of task Z"] in
  let s := mkSys {[js "k" := q]} {[0 := mkDrain (js "k") false AwaitDebounce]} 1 [] in
  drainPass false q =
    (withItems [b] (withDropped 0 [] q), false, PassSend (withPrompt notice a)) ∧
  run [AWake 0; ASendDone 0 true; AWake 0; ASendDone 0 true] s =
    Some (mkSys ∅ ∅ 1 [withPrompt notice a; b]) ∧
  prompt a ∉ prompt <$> [withPrompt notice a; b] ∧
  drainPass true (mkQueue [a; b] true 0%Z (js "collect") 0%Q 2%Z (js "summarize") 1
                          [js "result of task Z"]) =
    (mkQueue [b] true 0%Z (js "collect") 0%Q 2%Z (js "summarize") 1
             [js "result of task Z"], true, PassSend a).
Proof.
  intros a b notice q s.
  split; [vm_compute; reflexivity|].
  split; [vm_compute; reflexivity|].
  split; [|vm_compute; reflexivity].
  intros H. apply list_elem_of_In in H. vm_compute in H.
  destruct H as [H|[H|[]]]; discriminate.
Qed.

(** C5 fails on the code. With capacity 2 and the policy ["summarize"] in
    collect mode, enqueueing A, B, C, D leaves the sequence [C; D] with
    dropped-count 2 and the summaries of A and B. When C and D have
    different destinations the drain delivers C and D one by one without a
    notice; the pass that then finds the sequence empty builds the notice,
    which resets the dropped-count and clears the summaries, and breaks
    out of the loop before any transport call. The key is removed, and no
    overflow notice was ever sent. *)
Theorem C5_notice_lost_after_forced_individual_delivery :
  let cfg := mkSettings (js "collect") (Some 0%Q) (Some 2%Q) (Some (js "summarize")) in
  let a := sampleItem "A" in
  let b := sampleItem "B" in
  let c := mkItem (js "C") None 0%Z (js "k")
             (Some (js "whatsapp")) (Some (js "+15550001")) None in
  let d := mkItem (js "D") None 0%Z (js "k")
             (Some (js "telegram")) (Some (js "42")) None in
  let enqueues := [AEnqueue (js "k") a cfg 1%Z; AEnqueue (js "k") b cfg 2%Z;
                   AEnqueue (js "k") c cfg 3%Z; AEnqueue (js "k") d cfg 4%Z] in
  let q := mkQueue [c; d] false 4%Z (js "collect") 0%Q 2%Z (js "summarize") 2
                   [js "A"; js "B"] in
  run enqueues initSys = Some (mkSys {[js "k" := q]} ∅ 0 []) ∧
  (buildSummaryPrompt q).1 =
    Some (join nl [js "[Queue overflow] Dropped 2 announces due to cap.";
                   js "Summary:"; js "- A"; js "- B"]) ∧
  run (enqueues ++
       [ASchedule (js "k"); AWake 0; ASendDone 0 true; AWake 0; ASendDone 0 true;
        AWake 0])
      initSys =
    Some (mkSys {[js "k" := withItems [] (withDraining true q)]}
                {[1 := mkDrain (js "k") false AwaitDebounce]} 2 [c; d]) ∧
  run (enqueues ++
       [ASchedule (js "k"); AWake 0; ASendDone 0 true; AWake 0; ASendDone 0 true;
        AWake 0; AWake 1])
      initSys =
    Some (mkSys ∅ ∅ 2 [c; d]).
Proof.
  intros cfg a b c d enqueues q.
  repeat split; vm_compute; reflexivity.
Qed.

(** * Further properties of the code *)

(** ** Isolation of keys *)

Lemma scheduleAnnounceDrain_store (key : jsstring) (s : Sys) (k : jsstring) :
  k ≠ key → store (scheduleAnnounceDrain key s) !! k = store s !! k.
Proof.
  intros Hne. unfold scheduleAnnounceDrain.
  destruct (store s !! key) as [q|]; [|done].
  destruct (draining q); [done|].
  destruct (loopGuard _); cbn [store].
  - by rewrite lookup_insert_ne.
  - by rewrite lookup_delete_ne.
Qed.

Lemma drainFinally_store (n : nat) (key : jsstring) (s : Sys) (k : jsstring) :
  k ≠ key → store (drainFinally n key s) !! k = store s !! k.
Proof.
  intros Hne. unfold drainFinally.
  destruct (store s !! key) as [q|]; [|done].
  destruct (quiescent _); cbn [store].
  - by rewrite lookup_delete_ne.
  - rewrite scheduleAnnounceDrain_store by done. cbn [store].
    by rewrite lookup_insert_ne.
Qed.

(** X1. Keys do not interfere. [enqueueAnnounce] on a key leaves the entry
    of every other key as it is. In a reachable state, a step of a drain
    (its debounce wait returning, or its transport call ending either way)
    leaves the entry of every other key and every other running drain as
    they are. *)
Theorem X1_keys_are_isolated (s : Sys) :
  reachable s →
  (∀ key item settings now k,
     k ≠ key →
     (enqueueAnnounce key item settings now (store s)).1 !! k = store s !! k) ∧
  (∀ a n ok d s' k m,
     a = AWake n ∨ a = ASendDone n ok →
     drains s !! n = Some d → step a s = Some s' →
     (k ≠ d_key d → store s' !! k = store s !! k) ∧
     (m ≠ n → is_Some (drains s !! m) → drains s' !! m = drains s !! m)).
Proof.
  intros Hr. destruct (reachable_invariant s Hr) as [(I1 & _) _].
  split.
  - intros key item settings now k Hne.
    rewrite enqueueAnnounce_eq. cbn [fst]. by rewrite lookup_insert_ne.
  - intros a n ok d s' k m Ha Hn Hstep.
    assert (∀ s1, spawned s1 = spawned s → drains s1 = drains s →
              m ≠ n → is_Some (drains s !! m) →
              drains (drainFinally n (d_key d) s1) !! m = drains s !! m) as Hfin.
    { intros s1 Hsp Hdr Hne [dm Hm]. pose proof (I1 m dm Hm) as Hlt.
      rewrite <- Hsp in Hlt.
      destruct (drainFinally_drains n (d_key d) s1 m Hlt) as (E & _).
      rewrite E, decide_False, Hdr by done. done. }
    destruct Ha as [-> | ->]; cbn [step] in Hstep; rewrite Hn in Hstep;
      cbn in Hstep;
      (destruct (store s !! d_key d) as [q|] eqn:Hq; [|done]); cbn in Hstep.
    + destruct (d_phase d); [|done].
      destruct (drainPass (d_force d) q) as [[q1 f1] r].
      destruct r as [arg|]; injection Hstep as <-.
      * cbn [store drains]. split.
        -- intros Hne. by rewrite lookup_insert_ne.
        -- intros Hne _. by rewrite lookup_insert_ne.
      * split.
        -- intros Hne. rewrite drainFinally_store by done. cbn [store].
           by rewrite lookup_insert_ne.
        -- intros Hne Hm. by apply Hfin.
    + destruct (d_phase d); [done|].
      destruct (ok && loopGuard q); injection Hstep as <-.
      * cbn [store drains]. split; [done|].
        intros Hne _. by rewrite lookup_insert_ne.
      * split.
        -- intros Hne. by rewrite drainFinally_store.
        -- intros Hne Hm. by apply Hfin.
Qed.

Lemma X1_keys_are_isolated_witness :
  let cfg := mkSettings (js "followup") None None None in
  let s := default initSys
             (run [AEnqueue (js "a") (sampleItem "A") cfg 1%Z; ASchedule (js "a");
                   AEnqueue (js "b") (sampleItem "B") cfg 2%Z; ASchedule (js "b")]
                  initSys) in
  let s' := default initSys (step (AWake 0) s) in
  store s' !! js "b" = store s !! js "b".
Proof.
  intros cfg s s'.
  destruct (X1_keys_are_isolated s) as [_ H].
  - exists [AEnqueue (js "a") (sampleItem "A") cfg 1%Z; ASchedule (js "a");
            AEnqueue (js "b") (sampleItem "B") cfg 2%Z; ASchedule (js "b")].
    vm_compute. reflexivity.
  - destruct (H (AWake 0) 0 true (mkDrain (js "a") false AwaitDebounce) s'
                (js "b") 1) as [Hs _].
    + by left.
    + vm_compute. reflexivity.
    + vm_compute. reflexivity.
    + apply Hs. vm_compute. discriminate.
Defined.

(** ** Admission: bounds and edge cases *)

(** X2. With a positive capacity, an accepted [enqueueAnnounce] leaves at
    most [cap] items, the new item last; under any policy other than
    ["new"] the call is always accepted. This holds whatever the length
    was before, also when the call itself lowers the capacity. *)
Theorem X2_accepted_enqueue_respects_cap (key : jsstring)
    (item : AnnounceQueueItem) (s : QueueSettings) (now : Z) (st : Store) :
  let q := settledQueue key s now st in
  (0 < cap q)%Z →
  ∃ q' ok,
    enqueueAnnounce key item s now st = (<[key := q']> st, ok) ∧
    cap q' = cap q ∧
    (dropPolicy q ≠ js "new" → ok = true) ∧
    (ok = true →
     (Z.of_nat (length (items q')) ≤ cap q')%Z ∧ last (items q') = Some item) ∧
    (ok = false → q' = q).
Proof.
  intros q Hcap. rewrite enqueueAnnounce_eq. fold q. clearbody q.
  destruct (admitItem item q) as [q' ok] eqn:Ea. exists q', ok. cbn [fst snd].
  split; [done|]. revert Ea. unfold admitItem. cbn zeta.
  rewrite (proj2 (Z.ltb_lt _ _) Hcap). cbn [andb].
  destruct (cap q <=? Z.of_nat (length (items q)))%Z eqn:E.
  - apply Z.leb_le in E.
    destruct (decide (dropPolicy q = js "new")) as [Hp|Hp].
    + intros [= <- <-]. repeat split; done.
    + destruct (decide (dropPolicy q = js "summarize")); intros [= <- <-];
        cbn [cap items withItems withDropped];
        (split; [done|]); (split; [done|]); (split; [|done]); intros _; split;
        try (by rewrite last_snoc);
        rewrite length_app, length_drop; cbn [length]; lia.
  - apply Z.leb_gt in E. intros [= <- <-]. cbn [cap items withItems].
    split; [done|]. split; [done|]. split; [|done]. intros _. split.
    + rewrite length_app. cbn [length]. lia.
    + by rewrite last_snoc.
Qed.

Lemma X2_accepted_enqueue_respects_cap_witness :
  let st : Store :=
    (enqueueEach (js "k")
       [mkCall (sampleItem "A") (mkSettings (js "followup") None (Some 5%Q) None) 1%Z;
        mkCall (sampleItem "B") (mkSettings (js "followup") None None None) 2%Z;
        mkCall (sampleItem "C") (mkSettings (js "followup") None None None) 3%Z] ∅).1 in
  ∃ q', enqueueAnnounce (js "k") (sampleItem "D")
          (mkSettings (js "followup") None (Some 2%Q) None) 4%Z st
        = (<[js "k" := q']> st, true) ∧
        (Z.of_nat (length (items q')) ≤ 2)%Z.
Proof.
  intros st.
  destruct (X2_accepted_enqueue_respects_cap (js "k") (sampleItem "D")
              (mkSettings (js "followup") None (Some 2%Q) None) 4%Z st)
    as (q' & ok & He & Hc & Hok & Hlen & _).
  - reflexivity.
  - assert (ok = true) as -> by (apply Hok; vm_compute; discriminate).
    exists q'. split; [exact He|]. destruct (Hlen eq_refl) as [Hl _].
    rewrite Hc in Hl. exact Hl.
Defined.

(** X3. At capacity under a drop policy that is neither ["new"] nor
    ["summarize"], [enqueueAnnounce] drops the oldest items to make room
    and keeps no trace of them: the dropped-count and the summary lines stay
    as they are, so no overflow notice will report the loss. *)
Theorem X3_other_policy_drops_silently (key : jsstring)
    (item : AnnounceQueueItem) (s : QueueSettings) (now : Z) (st : Store) :
  let q := settledQueue key s now st in
  let k := length (items q) + 1 - Z.to_nat (cap q) in
  dropPolicy q ≠ js "new" → dropPolicy q ≠ js "summarize" →
  (0 < cap q)%Z → (cap q ≤ Z.of_nat (length (items q)))%Z →
  enqueueAnnounce key item s now st =
    (<[key := withItems (drop k (items q) ++ [item]) q]> st, true) ∧
  0 < k ∧
  (buildSummaryPrompt (withItems (drop k (items q) ++ [item]) q)).1 =
    (buildSummaryPrompt q).1.
Proof.
  intros q k Hp1 Hp2 H1 H2. rewrite enqueueAnnounce_eq. fold q.
  unfold admitItem. cbn zeta.
  rewrite (proj2 (Z.ltb_lt _ _) H1), (proj2 (Z.leb_le _ _) H2). cbn [andb].
  rewrite !decide_False by done.
  replace (Z.to_nat (Z.of_nat (length (items q)) - cap q + 1)) with k by lia.
  cbn [fst snd]. split; [done|]. split; [lia|].
  unfold buildSummaryPrompt. cbn [dropPolicy droppedCount withItems].
  rewrite bool_decide_eq_false_2 by done. reflexivity.
Qed.

Lemma X3_other_policy_drops_silently_witness :
  let cfg := mkSettings (js "followup") None (Some 1%Q) (Some (js "old")) in
  let st : Store := (enqueueEach (js "k") [mkCall (sampleItem "A") cfg 1%Z] ∅).1 in
  ∃ q', enqueueAnnounce (js "k") (sampleItem "B") cfg 2%Z st
        = (<[js "k" := q']> st, true) ∧
        items q' = [sampleItem "B"] ∧ droppedCount q' = 0.
Proof.
  intros cfg st.
  destruct (X3_other_policy_drops_silently (js "k") (sampleItem "B") cfg 2%Z st)
    as (He & _ & _).
  - vm_compute. discriminate.
  - vm_compute. discriminate.
  - reflexivity.
  - vm_compute. discriminate.
  - eexists. split; [exact He|]. split; reflexivity.
Defined.

(** X4. A [cap] setting strictly between 0 and 1 passes the validity test
    and is floored to 0, and an entry whose capacity is 0 has no bound:
    the call appends the item and returns [true] however long the sequence
    is, under every drop policy. *)
Theorem X4_fractional_cap_removes_the_bound (key : jsstring)
    (item : AnnounceQueueItem) (s : QueueSettings) (now : Z) (st : Store)
    (c : Q) :
  s_cap s = Some c → (0 < c)%Q → (c < 1)%Q →
  let q := settledQueue key s now st in
  cap q = 0%Z ∧
  enqueueAnnounce key item s now st =
    (<[key := withItems (items q ++ [item]) q]> st, true).
Proof.
  intros Hs H0 H1 q.
  assert (Qfloor c = 0%Z) as Hfl.
  { pose proof (Qfloor_le c) as Hle. pose proof (Qlt_floor c) as Hlt.
    assert (inject_Z (Qfloor c) < 1)%Q as Ha by (eapply Qle_lt_trans; eauto).
    assert (0 < inject_Z (Qfloor c + 1))%Q as Hb by (eapply Qlt_trans; eauto).
    change 1%Q with (inject_Z 1) in Ha. change 0%Q with (inject_Z 0) in Hb.
    rewrite <- Zlt_Qlt in Ha, Hb. lia. }
  assert (cap q = 0%Z) as Hc.
  { subst q. unfold settledQueue, mergeSettings, createdQueue.
    destruct (st !! key); cbn [cap withLastEnqueuedAt]; rewrite Hs;
      destruct (Qlt_le_dec 0 c) as [_|Hn]; try done;
      exfalso; apply (Qlt_not_le _ _ H0 Hn). }
  split; [exact Hc|].
  rewrite enqueueAnnounce_eq. fold q.
  rewrite admitItem_room by (right; lia). reflexivity.
Qed.

Lemma X4_fractional_cap_removes_the_bound_witness :
  let cfg := mkSettings (js "followup") None (Some (1 # 2)%Q) (Some (js "new")) in
  (enqueueEach (js "k")
     [mkCall (sampleItem "A") cfg 1%Z; mkCall (sampleItem "B") cfg 2%Z;
      mkCall (sampleItem "C") cfg 3%Z] ∅).2 = [true; true; true] ∧
  cap (settledQueue (js "k") cfg 1%Z ∅) = 0%Z.
Proof.
  intros cfg. split; [vm_compute; reflexivity|].
  apply (X4_fractional_cap_removes_the_bound (js "k") (sampleItem "A") cfg 1%Z ∅ (1 # 2)%Q);
    reflexivity.
Defined.

(** ** Scheduling *)

(** X5. [scheduleAnnounceDrain] is idempotent: calling it again right away
    changes nothing, so the call a caller makes after every enqueue never
    starts a second drain. *)
Theorem X5_schedule_is_idempotent (key : jsstring) (s : Sys) :
  scheduleAnnounceDrain key (scheduleAnnounceDrain key s) =
  scheduleAnnounceDrain key s.
Proof.
  assert (store (scheduleAnnounceDrain key s) !! key = None ∨
          ∃ q, store (scheduleAnnounceDrain key s) !! key = Some q ∧
               draining q = true) as H.
  { unfold scheduleAnnounceDrain.
    destruct (store s !! key) as [q|] eqn:Hq; [|by left].
    destruct (draining q) eqn:Hd; [right; eauto|].
    destruct (loopGuard (withDraining true q)); cbn [store].
    - right. rewrite lookup_insert_eq. eauto.
    - left. apply lookup_delete_eq. }
  set (s1 := scheduleAnnounceDrain key s) in *.
  unfold scheduleAnnounceDrain.
  destruct H as [->|(q & -> & ->)]; reflexivity.
Qed.

(** ** Well-formed entries *)

(** A property of entries that the operations on entries keep is kept by
    every step of the system. *)
Lemma step_entries (P : AnnounceQueueState → Prop) (a : Action) (s s' : Sys) :
  (∀ settings, P (createdQueue settings)) →
  (∀ settings q, P q → P (mergeSettings settings q)) →
  (∀ now q, P q → P (withLastEnqueuedAt now q)) →
  (∀ item q, P q → P (admitItem item q).1) →
  (∀ force q, P q → P (drainPass force q).1.1) →
  (∀ b q, P q → P (withDraining b q)) →
  (∀ k q, store s !! k = Some q → P q) →
  step a s = Some s' →
  ∀ k q, store s' !! k = Some q → P q.
Proof.
  intros Hcreate Hmerge Hlast Hadmit Hpass Hdrain Hs Hstep.
  assert (∀ key s0, (∀ k q, store s0 !! k = Some q → P q) →
            ∀ k q, store (scheduleAnnounceDrain key s0) !! k = Some q → P q) as Hsched.
  { intros key s0 H0 k q. unfold scheduleAnnounceDrain.
    destruct (store s0 !! key) as [q0|] eqn:Hq0; [|apply H0].
    destruct (draining q0); [apply H0|].
    destruct (loopGuard _); cbn [store].
    - rewrite lookup_insert. case_decide; [|apply H0].
      intros [= <-]. apply Hdrain. eauto.
    - rewrite lookup_delete. case_decide; [done|apply H0]. }
  assert (∀ n key s0, (∀ k q, store s0 !! k = Some q → P q) →
            ∀ k q, store (drainFinally n key s0) !! k = Some q → P q) as Hfin.
  { intros n key s0 H0 k q. unfold drainFinally.
    destruct (store s0 !! key) as [q0|] eqn:Hq0; [|apply H0].
    destruct (quiescent _); cbn [store].
    - rewrite lookup_delete. case_decide; [done|apply H0].
    - apply Hsched. cbn [store]. intros k' q'.
      rewrite lookup_insert. case_decide; [|apply H0].
      intros [= <-]. apply Hdrain. eauto. }
  destruct a as [key item settings now|key|n|n ok]; cbn [step] in Hstep.
  - injection Hstep as <-. cbn [store]. rewrite enqueueAnnounce_eq. cbn [fst].
    intros k q. rewrite lookup_insert. case_decide; [|apply Hs].
    intros [= <-]. apply Hadmit. unfold settledQueue. apply Hlast.
    destruct (store s !! key) eqn:E; [apply Hmerge; eauto | apply Hcreate].
  - injection Hstep as <-. by apply Hsched.
  - destruct (drains s !! n) as [d|]; [|done]. cbn in Hstep.
    destruct (store s !! d_key d) as [q0|] eqn:Hq0; [|done]. cbn in Hstep.
    destruct (d_phase d); [|done].
    pose proof (Hpass (d_force d) q0 (Hs _ _ Hq0)) as Hp.
    destruct (drainPass (d_force d) q0) as [[q1 f1] r]. cbn [fst] in Hp.
    assert (∀ k q, <[d_key d := q1]> (store s) !! k = Some q → P q) as H1.
    { intros k q. rewrite lookup_insert. case_decide; [|apply Hs]. by intros [= <-]. }
    destruct r as [arg|]; injection Hstep as <-; [exact H1|].
    by apply Hfin.
  - destruct (drains s !! n) as [d|]; [|done]. cbn in Hstep.
    destruct (store s !! d_key d) as [q0|] eqn:Hq0; [|done]. cbn in Hstep.
    destruct (d_phase d); [done|].
    destruct (ok && loopGuard q0); injection Hstep as <-; [exact Hs|].
    by apply Hfin.
Qed.

Lemma wellFormed_admitItem (item : AnnounceQueueItem) (q : AnnounceQueueState) :
  wellFormed q → wellFormed (admitItem item q).1.
Proof.
  intros (H1 & H2 & H3). unfold admitItem. cbn zeta.
  destruct (_ && _) eqn:E; [|done].
  destruct (decide (dropPolicy q = js "new")); [done|].
  destruct (decide (dropPolicy q = js "summarize")); [|done].
  cbn [fst]. unfold wellFormed.
  cbn [summaryLines droppedCount cap debounceMs withItems withDropped].
  split; [|done].
  rewrite shiftWhileLonger_spec by done.
  rewrite length_drop, length_app, length_fmap. lia.
Qed.

Lemma wellFormed_drainPass (force : bool) (q : AnnounceQueueState) :
  wellFormed q → wellFormed (drainPass force q).1.1.
Proof.
  intros Hq.
  assert (∀ q0, wellFormed q0 → wellFormed (buildSummaryPrompt q0).2) as Hb.
  { intros q0 (H1 & H2 & H3). rewrite buildSummaryPrompt_spec.
    destruct (decide _); [|done]. split; [cbn; lia | done]. }
  assert (∀ f q0, wellFormed q0 → wellFormed (shiftAndSend f q0).1) as Hsh.
  { intros f q0 H0. unfold shiftAndSend. by destruct (items q0). }
  assert (∀ l q0, wellFormed q0 → wellFormed (withItems l q0)) as Hwi by done.
  unfold drainPass.
  destruct (bool_decide (mode q = js "collect")).
  - destruct force.
    + specialize (Hsh id q Hq). by destruct (shiftAndSend id q).
    + destruct (hasCrossChannelItems (items q)).
      * specialize (Hsh id q Hq). by destruct (shiftAndSend id q).
      * specialize (Hb (withItems [] q) (Hwi [] q Hq)).
        destruct (buildSummaryPrompt (withItems [] q)) as [sm q2].
        by destruct (last (items q)).
  - specialize (Hb q Hq). destruct (buildSummaryPrompt q) as [sm q1]. cbn [snd] in Hb.
    destruct (truthy sm).
    + specialize (Hsh (withPrompt (default [] sm)) q1 Hb).
      by destruct (shiftAndSend _ q1).
    + specialize (Hsh id q1 Hb). by destruct (shiftAndSend _ q1).
Qed.

Lemma step_wellFormed (a : Action) (s s' : Sys) :
  (∀ k q, store s !! k = Some q → wellFormed q) →
  step a s = Some s' →
  ∀ k q, store s' !! k = Some q → wellFormed q.
Proof.
  apply (step_entries wellFormed a s s'); try done.
  - intros settings. unfold wellFormed, createdQueue. cbn.
    split; [lia|]. split.
    + destruct (s_cap settings) as [c|]; [|lia].
      destruct (Qlt_le_dec 0 c) as [Hc|]; [|lia].
      apply Qlt_le_weak in Hc. apply Qfloor_resp_le in Hc. exact Hc.
    + destruct (s_debounceMs settings); [apply Q.le_max_l | done].
  - intros settings q0 (A & B & C). unfold wellFormed, mergeSettings. cbn.
    split; [done|]. split.
    + destruct (s_cap settings) as [c|]; [|done].
      destruct (Qlt_le_dec 0 c) as [Hc|]; [|done].
      apply Qlt_le_weak in Hc. apply Qfloor_resp_le in Hc. exact Hc.
    + destruct (s_debounceMs settings); [apply Q.le_max_l | done].
  - intros item q0. apply wellFormed_admitItem.
  - intros force q0. apply wellFormed_drainPass.
Qed.

Lemma run_wellFormed (acts : list Action) (s s' : Sys) :
  (∀ k q, store s !! k = Some q → wellFormed q) →
  run acts s = Some s' →
  ∀ k q, store s' !! k = Some q → wellFormed q.
Proof.
  revert s. induction acts as [|a acts IH]; intros s Hs Hrun.
  - cbn in Hrun. by injection Hrun as <-.
  - cbn [run] in Hrun. destruct (step a s) as [s1|] eqn:E; [|done]. cbn in Hrun.
    apply (IH s1); [|done]. by apply (step_wellFormed a s).
Qed.

(** X6. In every state the system can reach, every stored entry has at
    most as many summary lines as its dropped-count says (so the overflow
    notice never lists more items than it announces, and a count of zero
    comes with an empty list), a capacity that is not negative and a
    debounce time that is not negative, whatever settings the calls of
    [enqueueAnnounce] supplied. *)
Theorem X6_entries_are_well_formed (s : Sys) (key : jsstring)
    (q : AnnounceQueueState) :
  reachable s → store s !! key = Some q →
  length (summaryLines q) ≤ droppedCount q ∧
  (droppedCount q = 0 → summaryLines q = []) ∧
  (0 ≤ cap q)%Z ∧
  (0 <= debounceMs q)%Q.
Proof.
  intros [acts Hrun] Hq.
  assert (wellFormed q) as (H1 & H2 & H3).
  { apply (run_wellFormed acts initSys s) with (k := key); [|done|done].
    intros k q0. cbn. by rewrite lookup_empty. }
  split; [done|]. split; [|done].
  intros Hd. destruct (summaryLines q); [done|]. cbn in H1. lia.
Qed.

Lemma X6_entries_are_well_formed_witness :
  let cfg := mkSettings (js "followup") (Some (-5)%Q) (Some 1%Q) None in
  let s := default initSys
             (run [AEnqueue (js "k") (sampleItem "A") cfg 1%Z;
                   AEnqueue (js "k") (sampleItem "B") cfg 2%Z] initSys) in
  let q := mkQueue [sampleItem "B"] false 2%Z (js "followup") (Qmax 0 (-5)) 1%Z
                   (js "summarize") 1 [js "A"] in
  length (summaryLines q) ≤ droppedCount q ∧ (0 <= debounceMs q)%Q.
Proof.
  intros cfg s q.
  destruct (X6_entries_are_well_formed s (js "k") q) as (H1 & _ & _ & H4).
  - exists [AEnqueue (js "k") (sampleItem "A") cfg 1%Z;
            AEnqueue (js "k") (sampleItem "B") cfg 2%Z].
    vm_compute. reflexivity.
  - vm_compute. reflexivity.
  - split; [exact H1 | exact H4].
Defined.

(** ** Draining to the end *)

(** Outside collect mode and with nothing dropped, a pass hands the oldest
    item to the transport as it is. *)
Lemma drainPass_individual (force : bool) (q : AnnounceQueueState)
    (next : AnnounceQueueItem) (rest : list AnnounceQueueItem) :
  mode q ≠ js "collect" → droppedCount q = 0 → items q = next :: rest →
  drainPass force q = (withItems rest q, force, PassSend next).
Proof.
  intros Hm Hd Hi. unfold drainPass.
  rewrite bool_decide_eq_false_2 by done.
  rewrite buildSummaryPrompt_spec, decide_False by (intros [_ ?]; lia).
  cbn [truthy]. unfold shiftAndSend. by rewrite Hi.
Qed.

Lemma quietRounds_individual (n : nat) (key : jsstring) (force : bool)
    (l : list AnnounceQueueItem) :
  l ≠ [] →
  ∀ (s : Sys) (q : AnnounceQueueState),
    drains s !! n = Some (mkDrain key force AwaitDebounce) →
    store s !! key = Some q →
    mode q ≠ js "collect" → droppedCount q = 0 → items q = l →
    run (quietRounds n (length l)) s =
      Some (mkSys (delete key (store s)) (delete n (drains s)) (spawned s)
                  (sent s ++ l)).
Proof.
  induction l as [|next rest IH]; [done|]. intros _ s q Hn Hq Hm Hd Hi.
  unfold quietRounds. cbn [length replicate concat app].
  cbn [run step]. rewrite Hn. cbn. rewrite Hq. cbn.
  rewrite (drainPass_individual force q next rest Hm Hd Hi).
  cbn. rewrite lookup_insert_eq. cbn. rewrite lookup_insert_eq. cbn.
  destruct rest as [|r rest].
  - assert (loopGuard (withItems [] q) = false) as ->.
    { unfold loopGuard. cbn [items withItems length droppedCount]. by rewrite Hd. }
    cbn [mbind option_bind length replicate concat run].
    unfold drainFinally. cbn [store drains spawned sent].
    rewrite lookup_insert_eq.
    assert (quiescent (withDraining false (withItems [] q)) = true) as ->.
    { unfold quiescent. cbn. by rewrite Hd. }
    f_equal. f_equal.
    + by rewrite delete_insert_eq.
    + by rewrite delete_insert_eq.
  - assert (loopGuard (withItems (r :: rest) q) = true) as -> by done.
    cbn [mbind option_bind].
    fold (quietRounds n (length (r :: rest))).
    rewrite (IH ltac:(done) _ (withItems (r :: rest) q)); cbn [store drains spawned sent].
    + f_equal. f_equal.
      * by rewrite delete_insert_eq.
      * by rewrite insert_insert_eq, delete_insert_eq.
      * by rewrite <- app_assoc.
    + by rewrite lookup_insert_eq.
    + by rewrite lookup_insert_eq.
    + done.
    + done.
    + done.
Qed.

(** X7. First in, first out. Outside collect mode, with nothing dropped,
    a drain that meets no concurrent enqueue and whose transport calls all
    succeed hands every pending item to the transport as it is, in the
    order of the sequence, one call per item, and then stops with its key
    removed from the store. *)
Theorem X7_individual_drain_is_fifo (s : Sys) (n : nat) (d : Drain)
    (q : AnnounceQueueState) :
  drains s !! n = Some d → d_phase d = AwaitDebounce →
  store s !! d_key d = Some q →
  mode q ≠ js "collect" → droppedCount q = 0 → items q ≠ [] →
  ∃ s',
    run (quietRounds n (length (items q))) s = Some s' ∧
    sent s' = sent s ++ items q ∧
    store s' !! d_key d = None ∧
    drains s' !! n = None ∧
    (∀ k, k ≠ d_key d → store s' !! k = store s !! k).
Proof.
  intros Hn Hph Hq Hm Hd Hi. destruct d as [key force ph]. cbn in *. subst ph.
  eexists. split.
  - by apply (quietRounds_individual n key force (items q) Hi s q).
  - cbn [sent store drains]. split; [done|].
    rewrite !lookup_delete_eq. split; [done|]. split; [done|].
    intros k Hk. by rewrite lookup_delete_ne.
Qed.

Lemma X7_individual_drain_is_fifo_witness :
  let cfg := mkSettings (js "followup") None None None in
  let s := default initSys
             (run [AEnqueue (js "k") (sampleItem "A") cfg 1%Z; ASchedule (js "k");
                   AEnqueue (js "k") (sampleItem "B") cfg 2%Z;
                   AEnqueue (js "k") (sampleItem "C") cfg 3%Z] initSys) in
  ∃ s', run (quietRounds 0 3) s = Some s' ∧
        sent s' = [sampleItem "A"; sampleItem "B"; sampleItem "C"] ∧
        store s' !! js "k" = None.
Proof.
  intros cfg s.
  destruct (X7_individual_drain_is_fifo s 0 (mkDrain (js "k") false AwaitDebounce)
              (mkQueue [sampleItem "A"; sampleItem "B"; sampleItem "C"] true 3%Z
                       (js "followup") 1000%Q 20%Z (js "summarize") 0 []))
    as (s' & Hrun & Hsent & Hstore & _).
  - vm_compute. reflexivity.
  - reflexivity.
  - vm_compute. reflexivity.
  - vm_compute. discriminate.
  - reflexivity.
  - discriminate.
  - exists s'. split; [exact Hrun|]. split; [exact Hsent | exact Hstore].
Defined.

(** X8. A transport call that throws ends the drain, and the item it
    carried is not put back: the sequence stays as it was while the call
    was in flight. If nothing is left the key is removed; otherwise a new
    drain for the key starts at once, with its switch off, and waits for the
    debounce. Nothing is handed to the transport in that step. *)
Theorem X8_failed_delivery_is_not_retried (s : Sys) (n : nat) (d : Drain)
    (q : AnnounceQueueState) :
  reachable s →
  drains s !! n = Some d → d_phase d = AwaitSend →
  store s !! d_key d = Some q →
  ∃ s',
    step (ASendDone n false) s = Some s' ∧
    sent s' = sent s ∧
    drains s' !! n = None ∧
    (loopGuard q = false →
     store s' !! d_key d = None ∧ drains s' = delete n (drains s)) ∧
    (loopGuard q = true →
     store s' !! d_key d = Some q ∧
     drains s' = <[spawned s := mkDrain (d_key d) false AwaitDebounce]>
                   (delete n (drains s))).
Proof.
  intros Hr Hn Hph Hq.
  destruct (reachable_invariant s Hr) as [(I1 & I2 & _) _].
  pose proof (I1 n d Hn) as Hlt.
  destruct (I2 n d Hn) as (q0 & Hq0 & Hdr).
  assert (q0 = q) as -> by congruence.
  cbn [step]. rewrite Hn. cbn. rewrite Hq. cbn. rewrite Hph. cbn [andb].
  eexists. split; [reflexivity|].
  destruct (drainFinally_drains n (d_key d) s n Hlt) as (E & _ & Es).
  rewrite decide_True in E by done.
  split; [exact Es|]. split; [exact E|].
  unfold drainFinally. rewrite Hq.
  rewrite loopGuard_quiescent.
  assert (quiescent (withDraining false q) = quiescent q) as -> by done.
  destruct (quiescent q) eqn:Hqu; cbn [negb].
  - split; [|done]. intros _. cbn [store drains]. by rewrite lookup_delete_eq.
  - split; [done|]. intros _. unfold scheduleAnnounceDrain. cbn [store drains spawned sent].
    rewrite lookup_insert_eq. cbn [draining withDraining].
    assert (withDraining true (withDraining false q) = q) as Hsame.
    { destruct q. cbn in Hdr. subst. reflexivity. }
    rewrite Hsame, loopGuard_quiescent, Hqu. cbn [negb store drains].
    by rewrite lookup_insert_eq.
Qed.

Lemma X8_failed_delivery_is_not_retried_witness :
  let cfg := mkSettings (js "followup") None None None in
  let s := default initSys
             (run [AEnqueue (js "k") (sampleItem "A") cfg 1%Z; ASchedule (js "k");
                   AEnqueue (js "k") (sampleItem "B") cfg 2%Z; AWake 0] initSys) in
  ∃ s', step (ASendDone 0 false) s = Some s' ∧
        sent s' = [sampleItem "A"] ∧
        items <$> store s' !! js "k" = Some [sampleItem "B"] ∧
        drains s' = {[1 := mkDrain (js "k") false AwaitDebounce]}.
Proof.
  intros cfg s.
  destruct (X8_failed_delivery_is_not_retried s 0 (mkDrain (js "k") false AwaitSend)
              (mkQueue [sampleItem "B"] true 2%Z (js "followup") 1000%Q 20%Z
                       (js "summarize") 0 []))
    as (s' & Hstep & Hsent & _ & _ & Hleft).
  - exists [AEnqueue (js "k") (sampleItem "A") cfg 1%Z; ASchedule (js "k");
            AEnqueue (js "k") (sampleItem "B") cfg 2%Z; AWake 0].
    vm_compute. reflexivity.
  - vm_compute. reflexivity.
  - reflexivity.
  - vm_compute. reflexivity.
  - destruct (Hleft eq_refl) as [Hst Hdr].
    exists s'. split; [exact Hstep|]. split; [rewrite Hsent; vm_compute; reflexivity|].
    cbn [d_key] in Hst, Hdr.
    split; [by rewrite Hst|]. rewrite Hdr. vm_compute. reflexivity.
Defined.

(** ** More on cross-destination detection *)

(** X9. The verdict of [hasCrossChannelItems] does not depend on the order
    of the items; adding items to a sequence that has the verdict keeps it;
    and a single item has it only when it carries destination metadata
    without a channel or without a recipient. *)
Theorem X9_cross_channel_verdict (l l' : list AnnounceQueueItem)
    (i : AnnounceQueueItem) :
  (l ≡ₚ l' → hasCrossChannelItems l = hasCrossChannelItems l') ∧
  (hasCrossChannelItems l = true → hasCrossChannelItems (l ++ l') = true) ∧
  hasCrossChannelItems [i] = halfKeyed i.
Proof.
  assert (∀ a b : list AnnounceQueueItem,
            (∀ x, x ∈ a → x ∈ b) →
            hasCrossChannelItems a = true → hasCrossChannelItems b = true) as Hmono.
  { intros a b Hsub. rewrite !hasCrossChannelItems_spec.
    intros [(x & Hx & Hh)|((x & Hx & Hk) & [(y & Hy & Hu)|(y & z & Hy & Hz & H)])].
    - left. eauto.
    - right. split; [eauto|]. left. eauto.
    - right. split; [eauto|]. right. exists y, z.
      split; [eauto|]. split; [eauto|]. exact H. }
  split; [|split].
  - intros Hp.
    destruct (hasCrossChannelItems l) eqn:E1, (hasCrossChannelItems l') eqn:E2;
      try done.
    + rewrite (Hmono l l') in E2; [done| |done]. intros x. by rewrite Hp.
    + rewrite (Hmono l' l) in E1; [done| |done]. intros x. by rewrite Hp.
  - apply Hmono. intros x Hx. apply elem_of_app. by left.
  - destruct (hasCrossChannelItems [i]) eqn:E.
    + apply hasCrossChannelItems_spec in E
        as [(x & Hx & Hh)|((x & Hx & Hk) & [(y & Hy & Hu)|(y & z & Hy & Hz & _ & _ & H)])].
      * apply list_elem_of_singleton in Hx as ->. done.
      * apply list_elem_of_singleton in Hx as ->.
        apply list_elem_of_singleton in Hy as ->.
        destruct (item_kinds i) as [(?&?&?)|[(?&?&?)|(?&?&?)]]; congruence.
      * apply list_elem_of_singleton in Hy as ->.
        apply list_elem_of_singleton in Hz as ->. done.
    + destruct (halfKeyed i) eqn:Hh; [|done].
      assert (hasCrossChannelItems [i] = true); [|congruence].
      apply hasCrossChannelItems_spec. left. exists i.
      split; [apply list_elem_of_singleton; done | done].
Qed.

Lemma X9_cross_channel_verdict_witness :
  let a := mkItem (js "A") None 0%Z (js "k")
             (Some (js "whatsapp")) (Some (js "+15550001")) None in
  let b := sampleItem "B" in
  hasCrossChannelItems [a; b] = hasCrossChannelItems [b; a].
Proof.
  intros a b.
  destruct (X9_cross_channel_verdict [a; b] [b; a] a) as (H & _).
  apply H. apply Permutation_swap.
Defined.

(** ** More on the debounce wait *)

Lemma debounceLoop_quiet (D : Q) (now : Z) (q : AnnounceQueueState)
    (wakes : list (Z * AnnounceQueueState)) :
  (D <= inject_Z (now - lastEnqueuedAt q))%Q →
  debounceLoop D now q wakes = Returned now (lastEnqueuedAt q).
Proof.
  intros H. apply Qle_bool_iff in H.
  destruct wakes as [|[t1 q1] rest]; cbn [debounceLoop]; cbv zeta; by rewrite H.
Qed.

(** X10. When the condition fails at the call, the wait has a positive
    debounce value, the first timer wake comes no earlier than the delay
    the wait asked for, and no enqueue has moved [lastEnqueuedAt] meanwhile,
    the wait returns at that first wake. *)
Theorem X10_debounce_returns_after_one_quiet_timer (q q1 : AnnounceQueueState)
    (now t1 : Z) (rest : list (Z * AnnounceQueueState)) (delay : Q) :
  (0 < debounceMs q)%Q →
  waitForQueueDebounce q now [] = Suspended delay →
  lastEnqueuedAt q1 = lastEnqueuedAt q →
  (inject_Z now + delay <= inject_Z t1)%Q →
  waitForQueueDebounce q now ((t1, q1) :: rest) = Returned t1 (lastEnqueuedAt q).
Proof.
  intros Hpos Hsusp Hlast Hwake.
  unfold waitForQueueDebounce in *. cbv zeta in *.
  assert (Qmax 0 (debounceMs q) == debounceMs q)%Q as HD
    by (apply Q.max_r; by apply Qlt_le_weak).
  destruct (Qle_bool (Qmax 0 (debounceMs q)) 0) eqn:E0.
  { apply Qle_bool_iff in E0. rewrite HD in E0. exfalso.
    apply (Qlt_not_le _ _ Hpos E0). }
  cbn [debounceLoop] in *. cbv zeta in *.
  destruct (Qle_bool (Qmax 0 (debounceMs q)) (inject_Z (now - lastEnqueuedAt q)));
    [done|].
  injection Hsusp as <-.
  rewrite debounceLoop_quiet; [by rewrite Hlast|].
  rewrite Hlast.
  unfold Z.sub in *. rewrite !inject_Z_plus, !inject_Z_opp in *. lra.
Qed.

Lemma X10_debounce_returns_after_one_quiet_timer_witness :
  let q := mkQueue [sampleItem "A"] true 40%Z (js "collect") 50%Q 20%Z
                   (js "summarize") 0 [] in
  waitForQueueDebounce q 60%Z [(90%Z, q)] = Returned 90%Z 40%Z.
Proof.
  intros q.
  apply (X10_debounce_returns_after_one_quiet_timer q q 60%Z 90%Z [] (50 - inject_Z (60 - 40))%Q);
    reflexivity || (vm_compute; discriminate).
Defined.

(** ** More on summary lines *)

(** X11. A summary line is one line: the only white space it contains is
    the space character, so neither a line break nor a tab of the summary
    or the prompt it was made from reaches the overflow notice; and it
    neither starts nor ends with white space. *)
Theorem X11_summary_line_is_one_line (item : AnnounceQueueItem) :
  Forall (λ c, isWhiteSpace c = true → c = 32%N) (buildQueueSummaryLine item) ∧
  headIsWhiteSpace (buildQueueSummaryLine item) = false ∧
  trimEnd (buildQueueSummaryLine item) = buildQueueSummaryLine item.
Proof.
  rewrite buildQueueSummaryLine_words.
  set (cleaned := join [32%N] (words (summarySource item))).
  assert (Forall (λ c, isWhiteSpace c = true → c = 32%N) cleaned) as Hc
    by apply join_space_only, words_no_whiteSpace.
  assert (trim (collapseWhiteSpace (summarySource item)) = cleaned) as Htc
    by apply trim_collapse_words.
  assert (headIsWhiteSpace cleaned = false) as Hh.
  { pose proof (words_head (summarySource item)) as H. subst cleaned.
    destruct (words (summarySource item)) as [|w rest]; [done|].
    destruct H as (c & t & -> & Hcw). by destruct rest. }
  assert (trimEnd cleaned = cleaned) as He.
  { rewrite <- Htc. unfold trim.
    set (x := trimStart (collapseWhiteSpace (summarySource item))).
    unfold trimEnd at 1. unfold trimEnd. rewrite rev_involutive.
    f_equal. generalize (rev x). intros y.
    pose proof (trimStart_idem_head y) as Hy.
    destruct (trimStart y) as [|c r] eqn:E; [done|]. cbn in Hy. cbn. by rewrite Hy. }
  unfold elideText. destruct (length cleaned <=? 160); [done|].
  set (p := trimEnd (take (160 - 1) cleaned)).
  assert (Forall (λ c, isWhiteSpace c = true → c = 32%N) p) as Hp.
  { assert (p `prefix_of` cleaned) as [k Hk]
      by (etrans; [apply trimEnd_prefix | apply prefix_take]).
    rewrite Hk in Hc. by apply Forall_app in Hc as [? _]. }
  split; [|split].
  - apply Forall_app. split; [exact Hp|]. by repeat constructor.
  - assert (p `prefix_of` cleaned) as [k Hk]
      by (etrans; [apply trimEnd_prefix | apply prefix_take]).
    destruct p as [|c r]; [done|]. rewrite Hk in Hh. exact Hh.
  - by rewrite trimEnd_snoc.
Qed.

(** ** The announce flow above the queue *)

(** X12. [maybeQueueSubagentAnnounce] answers "queued" exactly when the
    requester has a session id, a run is active, the mode is one of
    followup, collect, steer-backlog, interrupt and steer, and no injection
    into the running session succeeded; it answers "steered" exactly when
    the requester has a session id, the mode is steer or steer-backlog and
    the injection succeeded. Unless it answers "queued" it leaves the store
    and the drains as they are. *)
Theorem X12_announce_route (env : FlowEnv) (msg : jsstring)
    (summary : option jsstring) (s : Sys) :
  let r := maybeQueueSubagentAnnounce env msg summary s in
  let hasSession := truthy (entry env ≫= sessionId) in
  let steerMode := modeIs (queueSettings env) "steer"
                   || modeIs (queueSettings env) "steer-backlog" in
  let queueMode := modeIs (queueSettings env) "followup"
                   || modeIs (queueSettings env) "collect"
                   || modeIs (queueSettings env) "steer-backlog"
                   || modeIs (queueSettings env) "interrupt"
                   || modeIs (queueSettings env) "steer" in
  (r.1 = Steered ↔ hasSession && steerMode && steerSucceeds env = true) ∧
  (r.1 = Queued ↔
     hasSession && isActive env && queueMode
     && negb (steerMode && steerSucceeds env) = true) ∧
  (r.1 ≠ Queued → r.2 = s).
Proof.
  unfold maybeQueueSubagentAnnounce, falsy. cbv zeta.
  destruct (truthy (entry env ≫= sessionId)); cbn [negb andb fst snd];
    [|repeat split; done].
  destruct (modeIs (queueSettings env) "steer"),
    (modeIs (queueSettings env) "steer-backlog"),
    (modeIs (queueSettings env) "followup"),
    (modeIs (queueSettings env) "collect"),
    (modeIs (queueSettings env) "interrupt"),
    (steerSucceeds env), (isActive env); cbn; repeat split; done.
Qed.

(** X13. When [maybeQueueSubagentAnnounce] answers "queued", the key has an
    entry that is not empty and whose [draining] flag is set, and nothing
    was handed to the transport. The answer does not depend on what
    [enqueueAnnounce] returned: when the queue is at capacity under the
    policy ["new"] the item is refused, the sequence stays as it was, and
    the answer is "queued" all the same. Below capacity the item is the
    newest of the sequence. *)
Theorem X13_queued_even_when_refused (env : FlowEnv) (msg : jsstring)
    (summary : option jsstring) (s s' : Sys) :
  maybeQueueSubagentAnnounce env msg summary s = (Queued, s') →
  let item := mkItem msg summary (itemNow env) (canonicalKey env)
                (entry env ≫= lastChannel) (entry env ≫= lastTo)
                (entry env ≫= lastAccountId) in
  let q := settledQueue (canonicalKey env) (queueSettings env) (enqueueNow env)
             (store s) in
  ∃ q',
    store s' !! canonicalKey env = Some q' ∧
    draining q' = true ∧ items q' ≠ [] ∧
    sent s' = sent s ∧
    (dropPolicy q = js "new" →
     (0 < cap q)%Z → (cap q ≤ Z.of_nat (length (items q)))%Z →
     items q' = items q) ∧
    ((Z.of_nat (length (items q)) < cap q)%Z → items q' = items q ++ [item]).
Proof.
  intros H item q. revert H.
  unfold maybeQueueSubagentAnnounce. cbv zeta.
  destruct (falsy _); [done|].
  destruct (_ && steerSucceeds env); [done|].
  destruct (isActive env && _); [|done].
  intros [= <-].
  rewrite enqueueAnnounce_eq. cbn [fst]. fold item q.
  pose proof (admitItem_nonempty item q) as [Hne Hdr].
  set (q1 := (admitItem item q).1) in *.
  assert (∃ q', store (scheduleAnnounceDrain (canonicalKey env)
                         (mkSys (<[canonicalKey env := q1]> (store s)) (drains s)
                                (spawned s) (sent s))) !! canonicalKey env = Some q' ∧
                draining q' = true ∧ items q' = items q1) as (q' & Hq' & Hd' & Hi').
  { unfold scheduleAnnounceDrain. cbn [store]. rewrite lookup_insert_eq.
    destruct (draining q1) eqn:Hd1.
    - exists q1. cbn [store]. by rewrite lookup_insert_eq.
    - assert (loopGuard (withDraining true q1) = true) as ->.
      { unfold loopGuard. cbn [items withDraining]. by destruct (items q1). }
      cbn [store]. rewrite lookup_insert_eq. eauto. }
  exists q'. split; [exact Hq'|]. split; [exact Hd'|]. split; [congruence|].
  split.
  { unfold scheduleAnnounceDrain. cbn [store]. rewrite lookup_insert_eq.
    destruct (draining q1); [done|]. by destruct (loopGuard _). }
  split.
  - intros Hp H1 H2. rewrite Hi'. subst q1.
    by rewrite (admitItem_reject item q H1 H2 Hp).
  - intros Hlt. rewrite Hi'. subst q1.
    rewrite admitItem_room by (by left). reflexivity.
Qed.

Lemma X13_queued_even_when_refused_witness :
  let cfg := mkSettings (js "followup") None (Some 1%Q) (Some (js "new")) in
  let env := mkFlowEnv (js "agent:main:main")
               (Some (mkSessionEntry (Some (js "sid-1")) None None None))
               cfg true false 5%Z 6%Z in
  let s := default initSys
             (run [AEnqueue (js "agent:main:main") (sampleItem "earlier") cfg 1%Z;
                   ASchedule (js "agent:main:main")] initSys) in
  let r := maybeQueueSubagentAnnounce env (js "later") None s in
  r.1 = Queued ∧
  items <$> store r.2 !! js "agent:main:main" = Some [sampleItem "earlier"].
Proof.
  intros cfg env s r.
  assert (r = (Queued, r.2)) as Hr by (vm_compute; reflexivity).
  destruct (X13_queued_even_when_refused env (js "later") None s r.2 Hr)
    as (q' & Hq' & _ & _ & _ & Hrej & _).
  split; [vm_compute; reflexivity|].
  cbn [canonicalKey env] in Hq'. rewrite Hq'. cbn [fmap option_fmap option_map].
  f_equal. rewrite Hrej; vm_compute; reflexivity || discriminate.
Defined.

(** ** Keys of requester sessions *)

Lemma trimEnd_idem (s : jsstring) : trimEnd (trimEnd s) = trimEnd s.
Proof.
  unfold trimEnd. rewrite rev_involutive. f_equal.
  generalize (rev s). intros y.
  pose proof (trimStart_idem_head y) as Hy.
  destruct (trimStart y) as [|c r] eqn:E; [done|]. cbn in Hy. cbn. by rewrite Hy.
Qed.

Lemma trimStart_fixed (s : jsstring) :
  headIsWhiteSpace s = false → trimStart s = s.
Proof. destruct s as [|c r]; [done|]. cbn. by intros ->. Qed.

Lemma trim_head (s : jsstring) : headIsWhiteSpace (trim s) = false.
Proof.
  unfold trim. pose proof (trimStart_idem_head s) as H.
  pose proof (trimEnd_prefix (trimStart s)) as [k Hk].
  destruct (trimEnd (trimStart s)) as [|c r] eqn:E; [done|].
  rewrite Hk in H. exact H.
Qed.

Lemma trim_idem (s : jsstring) : trim (trim s) = trim s.
Proof.
  unfold trim at 1. rewrite (trimStart_fixed (trim s)) by apply trim_head.
  unfold trim. apply trimEnd_idem.
Qed.

(** A string made of a prefix that starts with no white space and of a
    trimmed string that is not empty is its own trim. *)
Lemma trim_app_trimmed (a s : jsstring) :
  headIsWhiteSpace a = false → a ≠ [] → trim s ≠ [] →
  trim (a ++ trim s) = a ++ trim s.
Proof.
  intros Ha Hne Hs. unfold trim at 1.
  rewrite trimStart_fixed by (destruct a; done).
  assert (trimEnd (trim s) = trim s) as He by (unfold trim; apply trimEnd_idem).
  rewrite trimEnd_app_keep by (by rewrite He). by rewrite He.
Qed.

Lemma startsWith_app (p s : jsstring) : startsWith p (p ++ s) = true.
Proof. induction p as [|a p IH]; [done|]. cbn. by rewrite N.eqb_refl. Qed.

Lemma splitOn_nonempty (sep : N) (s : jsstring) : splitOn sep s ≠ [].
Proof.
  induction s as [|c r IH]; [done|]. cbn.
  destruct (c =? sep)%N; [done|]. by destruct (splitOn sep r).
Qed.

(** Splitting and joining again gives the string back. *)
Lemma join_splitOn (sep : N) (s : jsstring) : join [sep] (splitOn sep s) = s.
Proof.
  induction s as [|c r IH]; [done|]. cbn [splitOn].
  pose proof (splitOn_nonempty sep r) as Hne.
  destruct (c =? sep)%N eqn:E.
  - apply N.eqb_eq in E as ->.
    destruct (splitOn sep r) as [|w rest]; [done|].
    rewrite join_cons_cons, IH. reflexivity.
  - destruct (splitOn sep r) as [|w rest]; [done|].
    destruct rest as [|w2 rest].
    + cbn in *. by rewrite IH.
    + rewrite join_cons_cons. rewrite join_cons_cons in IH.
      rewrite <- IH. reflexivity.
Qed.

Lemma splitOn_app_sep (sep : N) (a b : jsstring) :
  sep ∉ a → splitOn sep (a ++ sep :: b) = a :: splitOn sep b.
Proof.
  intros Ha. induction a as [|c a IH]; cbn [app splitOn].
  - by rewrite N.eqb_refl.
  - apply not_elem_of_cons in Ha as [Hc Ha].
    rewrite (proj2 (N.eqb_neq c sep)) by done.
    by rewrite (IH Ha).
Qed.

(** X14. [resolveRequesterStoreKey] only looks at the key without the white
    space around it, and canonical keys are stable: provided the main
    session key of the configuration resolves to itself, resolving a
    resolved key changes nothing. *)
Theorem X14_canonical_key_is_stable (R : KeyResolver) (k : jsstring) :
  resolveRequesterStoreKey R (mainSessionKey R) = mainSessionKey R →
  resolveRequesterStoreKey R (trim k) = resolveRequesterStoreKey R k ∧
  resolveRequesterStoreKey R (resolveRequesterStoreKey R k) =
    resolveRequesterStoreKey R k.
Proof.
  intros Hmain.
  assert (resolveRequesterStoreKey R (trim k) = resolveRequesterStoreKey R k) as Hk
    by (unfold resolveRequesterStoreKey; cbv zeta; by rewrite trim_idem).
  split; [exact Hk|]. rewrite <- Hk.
  pose proof (trim_idem k) as Ht. set (t := trim k) in *. clearbody t.
  assert (∀ x, trim x = x →
            resolveRequesterStoreKey R x =
            match x with
            | [] => x
            | _ =>
                if bool_decide (x = js "global") || bool_decide (x = js "unknown")
                then x
                else if startsWith (js "agent:") x then x
                else if bool_decide (x = js "main") || bool_decide (x = mainKey R)
                then mainSessionKey R
                else js "agent:" ++ agentIdOf R x ++ js ":" ++ x
            end) as Hbody.
  { intros x Hx. unfold resolveRequesterStoreKey. cbv zeta. by rewrite Hx. }
  rewrite (Hbody t Ht).
  destruct t as [|c r] eqn:Et; [by rewrite Hbody|]. rewrite <- Et in *.
  assert (t ≠ []) as Hne by (by rewrite Et).
  clear Et.
  destruct (bool_decide (t = js "global") || bool_decide (t = js "unknown")) eqn:E1.
  { rewrite (Hbody t Ht). destruct t; [done|]. by rewrite E1. }
  destruct (startsWith (js "agent:") t) eqn:E2.
  { rewrite (Hbody t Ht). destruct t; [done|]. by rewrite E1, E2. }
  destruct (bool_decide (t = js "main") || bool_decide (t = mainKey R)) eqn:E3.
  { exact Hmain. }
  set (res := js "agent:" ++ agentIdOf R t ++ js ":" ++ t).
  assert (trim res = res) as Hres.
  { subst res. rewrite !(assoc_L (++)). rewrite <- Ht.
    apply trim_app_trimmed; [done|done|by rewrite Ht]. }
  rewrite (Hbody res Hres).
  assert (startsWith (js "agent:") res = true) as Hsw by apply startsWith_app.
  assert (bool_decide (res = js "global") || bool_decide (res = js "unknown") = false) as Hg.
  { apply orb_false_iff; split; apply bool_decide_eq_false; intros Heq;
      rewrite Heq in Hsw; vm_compute in Hsw; discriminate. }
  rewrite Hg, Hsw. by destruct res.
Qed.

Lemma X14_canonical_key_is_stable_witness :
  let R := mkKeyResolver (js "main") (js "agent:main:main") (λ _, js "main") in
  resolveRequesterStoreKey R (resolveRequesterStoreKey R (js "  discord:group:42 "))
  = js "agent:main:discord:group:42".
Proof.
  intros R.
  destruct (X14_canonical_key_is_stable R (js "  discord:group:42 ")) as [_ H].
  - reflexivity.
  - rewrite H. reflexivity.
Defined.

(** X15. For a key that is not empty, not special and not yet prefixed,
    and an agent id without a colon, the legacy key of the canonical key is
    the trimmed key again. So [loadRequesterSessionEntry] finds the entry
    stored under the canonical key, else the one stored under the key as it
    was given, else the one stored under the trimmed key. *)
Theorem X15_legacy_key_round_trip (R : KeyResolver)
    (sessions : gmap jsstring SessionEntry) (k : jsstring) :
  let raw := trim k in
  let canonical := js "agent:" ++ agentIdOf R raw ++ js ":" ++ raw in
  raw ≠ [] →
  resolveRequesterStoreKey R k = canonical →
  58%N ∉ agentIdOf R raw →
  legacyKeyOf canonical = Some raw ∧
  loadRequesterSessionEntry R sessions k =
    (match sessions !! canonical with
     | Some e => Some e
     | None => match sessions !! k with
               | Some e => Some e
               | None => sessions !! raw
               end
     end, canonical).
Proof.
  intros raw canonical Hne Hres Hcolon.
  assert (legacyKeyOf canonical = Some raw) as Hleg.
  { unfold legacyKeyOf. subst canonical. rewrite startsWith_app. f_equal.
    change (js "agent:" ++ agentIdOf R raw ++ js ":" ++ raw)
      with (js "agent" ++ 58%N :: agentIdOf R raw ++ 58%N :: raw).
    rewrite splitOn_app_sep by (vm_compute; set_solver).
    rewrite splitOn_app_sep by done.
    cbn [drop]. apply join_splitOn. }
  split; [exact Hleg|].
  unfold loadRequesterSessionEntry. cbv zeta. rewrite Hres, Hleg.
  assert (truthy (Some raw) = true) as -> by (by destruct raw).
  reflexivity.
Qed.

Lemma X15_legacy_key_round_trip_witness :
  let R := mkKeyResolver (js "main") (js "agent:main:main") (λ _, js "main") in
  let e := mkSessionEntry (Some (js "sid-7")) None None None in
  loadRequesterSessionEntry R {[js "discord:group:42" := e]} (js " discord:group:42")
  = (Some e, js "agent:main:discord:group:42").
Proof.
  intros R e.
  destruct (X15_legacy_key_round_trip R {[js "discord:group:42" := e]}
              (js " discord:group:42")) as [_ H].
  - vm_compute. discriminate.
  - reflexivity.
  - vm_compute. set_solver.
  - rewrite H. vm_compute. reflexivity.
Defined.

(** ** Statistics of a finished run *)

Lemma pollUsage_spec (reads : nat → option UsageEntry) (remaining slept : nat)
    (current : option UsageEntry) :
  let r := pollUsage reads remaining slept current in
  slept ≤ r.2 ≤ slept + remaining ∧
  (r.2 = slept → r.1 = current) ∧
  (slept < r.2 → r.1 = reads r.2) ∧
  (hasTokens r.1 = true ∨ r.2 = slept + remaining) ∧
  (∀ i, slept < i < r.2 → hasTokens (reads i) = false).
Proof.
  revert slept current. induction remaining as [|rem IH]; intros slept current.
  - cbn. repeat split; lia.
  - cbn [pollUsage]. cbv zeta.
    destruct (hasTokens (reads (S slept))) eqn:E.
    + cbn [fst snd]. repeat split; try lia. by left.
    + destruct (IH (S slept) (reads (S slept))) as (H1 & H2 & H3 & H4 & H5).
      cbv zeta in *.
      set (r := pollUsage reads rem (S slept) (reads (S slept))) in *.
      split; [lia|]. split; [lia|]. split.
      * intros _. destruct (decide (r.2 = S slept)) as [Heq|Hne].
        -- rewrite H2 by done. by rewrite Heq.
        -- apply H3. lia.
      * split.
        -- destruct H4 as [H4|H4]; [by left | right; lia].
        -- intros i Hi. destruct (decide (i = S slept)) as [->|Hne]; [done|].
           apply H5. lia.
Qed.

(** X16. [waitForSessionUsage] does not wait for a session the store does
    not know, nor for one whose entry already has a token count. Otherwise
    it reads the store again after each of at most four timers and returns
    the first entry that has a token count; if none has, it returns the
    fifth reading. So it never waits for more than four timers of 200 ms. *)
Theorem X16_usage_wait_is_bounded (reads : nat → option UsageEntry) :
  let r := waitForSessionUsage reads in
  r.2 ≤ 4 ∧
  r.1 = reads r.2 ∧
  (reads 0 = None ∨ hasTokens (reads 0) = true → r.2 = 0) ∧
  (hasTokens r.1 = true ∨ r.2 = 4 ∨ reads 0 = None) ∧
  (∀ i, i < r.2 → hasTokens (reads i) = false).
Proof.
  unfold waitForSessionUsage. cbv zeta.
  destruct (reads 0) as [u|] eqn:E0.
  - destruct (hasTokens (Some u)) eqn:Eh.
    + cbn [fst snd]. rewrite E0. repeat split; try lia; auto.
    + destruct (pollUsage_spec reads 4 0 (Some u)) as (H1 & H2 & H3 & H4 & H5).
      cbv zeta in *. set (r := pollUsage reads 4 0 (Some u)) in *.
      split; [lia|]. split.
      * destruct (decide (r.2 = 0)) as [Heq|Hne].
        -- rewrite H2 by done. by rewrite Heq.
        -- apply H3. lia.
      * split.
        -- intros [?|?]; congruence.
        -- split; [destruct H4; auto|].
           intros i Hi. destruct (decide (i = 0)) as [->|Hne]; [by rewrite E0|].
           apply H5. lia.
  - cbn [fst snd]. rewrite E0. repeat split; try lia; auto.
Qed.

Lemma Zdigits_split (total : Z) :
  (0 ≤ total)%Z →
  let hours := (total / 3600)%Z in
  let minutes := ((total mod 3600) / 60)%Z in
  let seconds := (total mod 60)%Z in
  (0 ≤ hours ∧ 0 ≤ minutes < 60 ∧ 0 ≤ seconds < 60 ∧
   total = hours * 3600 + minutes * 60 + seconds)%Z.
Proof.
  intros Ht hours minutes seconds. subst hours minutes seconds.
  pose proof (Z.mod_pos_bound total 3600 ltac:(lia)).
  pose proof (Z.mod_pos_bound total 60 ltac:(lia)).
  pose proof (Z.div_mod total 3600 ltac:(lia)).
  pose proof (Z.div_mod (total mod 3600) 60 ltac:(lia)).
  assert ((total mod 3600) mod 60 = total mod 60)%Z as Hmm.
  { apply Z.mod_mod_divide. by exists 60%Z. }
  split; [apply Z.div_pos; lia|].
  split; [split; [apply Z.div_pos; lia | apply Z.div_lt_upper_bound; lia]|].
  split; [lia|]. lia.
Qed.

(** X17. For a duration of a positive whole number of milliseconds
    [formatDurationShort] prints the duration rounded to the nearest second
    (halves up), split into hours, minutes below 60 and seconds below 60:
    hours and minutes when there is at least an hour (the seconds are not
    printed), minutes and seconds when there is at least a minute, seconds
    alone otherwise. A duration below half a second prints as 0s, and a
    duration that is missing, zero or negative prints nothing. *)
Theorem X17_duration_is_split_in_range (v : Z) :
  (0 < v)%Z →
  ∃ h m sec : nat,
    (Z.of_nat h * 3600 + Z.of_nat m * 60 + Z.of_nat sec = (v + 500) / 1000)%Z ∧
    m < 60 ∧ sec < 60 ∧
    formatDurationShort (Some v) =
      Some (if 0 <? h then jsOfNat h ++ js "h" ++ jsOfNat m ++ js "m"
            else if 0 <? m then jsOfNat m ++ js "m" ++ jsOfNat sec ++ js "s"
            else jsOfNat sec ++ js "s") ∧
    ((v < 500)%Z → formatDurationShort (Some v) = Some (js "0s")) ∧
    formatDurationShort (Some (- v)%Z) = None ∧
    formatDurationShort (Some 0%Z) = None ∧
    formatDurationShort None = None.
Proof.
  intros Hv.
  assert (0 ≤ (v + 500) / 1000)%Z as Ht by (apply Z.div_pos; lia).
  destruct (Zdigits_split _ Ht) as (Hh & Hm & Hs & Hsum). cbv zeta in *.
  set (total := ((v + 500) / 1000)%Z) in *.
  exists (Z.to_nat (total / 3600)), (Z.to_nat ((total mod 3600) / 60)),
         (Z.to_nat (total mod 60)).
  split; [lia|]. split; [lia|]. split; [lia|]. split; [|split; [|split; [|split]]].
  - unfold formatDurationShort. rewrite (proj2 (Z.leb_gt _ _) Hv). cbv zeta.
    fold total.
    destruct (0 <? total / 3600)%Z eqn:E1.
    + apply Z.ltb_lt in E1.
      by rewrite (proj2 (Nat.ltb_lt 0 (Z.to_nat (total / 3600))) ltac:(lia)).
    + apply Z.ltb_ge in E1.
      rewrite (proj2 (Nat.ltb_ge 0 (Z.to_nat (total / 3600))) ltac:(lia)).
      destruct (0 <? total mod 3600 / 60)%Z eqn:E2.
      * apply Z.ltb_lt in E2.
        by rewrite (proj2 (Nat.ltb_lt 0 (Z.to_nat (total mod 3600 / 60))) ltac:(lia)).
      * apply Z.ltb_ge in E2.
        by rewrite (proj2 (Nat.ltb_ge 0 (Z.to_nat (total mod 3600 / 60))) ltac:(lia)).
  - intros Hlt. unfold formatDurationShort. rewrite (proj2 (Z.leb_gt _ _) Hv). cbv zeta.
    assert ((v + 500) / 1000 = 0)%Z as -> by (apply Z.div_small; lia).
    reflexivity.
  - unfold formatDurationShort. by rewrite (proj2 (Z.leb_le (- v) 0) ltac:(lia)).
  - reflexivity.
  - reflexivity.
Qed.

Lemma X17_duration_is_split_in_range_witness :
  formatDurationShort (Some 3725499%Z) = Some (js "1h2m") ∧
  formatDurationShort (Some 125500%Z) = Some (js "2m6s").
Proof.
  destruct (X17_duration_is_split_in_range 3725499%Z) as (h & m & sec & _); [lia|].
  split; vm_compute; reflexivity.
Defined.

(** ** The system prompt of a sub-agent *)

Lemma space_only_no_newline (s : jsstring) :
  Forall (λ c, isWhiteSpace c = true → c = 32%N) s → 10%N ∉ s.
Proof.
  intros H Hin. rewrite Forall_forall in H. by specialize (H _ Hin eq_refl).
Qed.

(** X18. [buildSubagentSystemPrompt] puts the task on one line: whatever
    the task text contains, line 6 of the prompt is the role line followed
    by the words of the task joined by single spaces, so line breaks in the
    task cannot add lines to the prompt; a task that is missing or blank
    gives the placeholder. *)
Theorem X18_task_stays_on_one_line (params : SubagentPromptParams) :
  let taskText := subagentTaskText (p_task params) in
  splitOn 10%N (buildSubagentSystemPrompt params) !! 5 =
    Some (js "- You were created to handle: " ++ taskText) ∧
  (10%N ∉ taskText) ∧
  taskText =
    match p_task params with
    | Some t => match words t with
                | [] => js "{{TASK_DESCRIPTION}}"
                | ws => join [32%N] ws
                end
    | None => js "{{TASK_DESCRIPTION}}"
    end.
Proof.
  intros taskText.
  assert (taskText =
          match p_task params with
          | Some t => match words t with
                      | [] => js "{{TASK_DESCRIPTION}}"
                      | ws => join [32%N] ws
                      end
          | None => js "{{TASK_DESCRIPTION}}"
          end) as Htext.
  { subst taskText. unfold subagentTaskText.
    destruct (p_task params) as [t|]; [|done].
    destruct (trim t) as [|c r] eqn:E.
    - apply trim_nil_words in E. by rewrite E.
    - rewrite trim_collapse_words.
      destruct (words t) eqn:Ew; [|done].
      apply trim_nil_words in Ew. congruence. }
  assert (10%N ∉ taskText) as Hnl.
  { rewrite Htext. destruct (p_task params) as [t|]; [|vm_compute; set_solver].
    destruct (words t) as [|w ws] eqn:Ew; [vm_compute; set_solver|].
    rewrite <- Ew. apply space_only_no_newline, join_space_only, words_no_whiteSpace. }
  split; [|split; [exact Hnl | exact Htext]].
  unfold buildSubagentSystemPrompt. cbv zeta. fold taskText.
  cbn [omap list_omap id].
  rewrite !join_cons_cons. unfold nl.
  change (js "# Subagent Context" ++ [10%N] ++ ?x) with (js "# Subagent Context" ++ 10%N :: x).
  rewrite splitOn_app_sep by (vm_compute; set_solver).
  change (js "" ++ [10%N] ++ ?x) with (js "" ++ 10%N :: x).
  rewrite splitOn_app_sep by (vm_compute; set_solver).
  match goal with |- context [js ?l ++ [10%N] ++ ?x] =>
    change (js l ++ [10%N] ++ x) with (js l ++ 10%N :: x) end.
  rewrite splitOn_app_sep by (vm_compute; set_solver).
  change (js "" ++ [10%N] ++ ?x) with (js "" ++ 10%N :: x).
  rewrite splitOn_app_sep by (vm_compute; set_solver).
  change (js "## Your Role" ++ [10%N] ++ ?x) with (js "## Your Role" ++ 10%N :: x).
  rewrite splitOn_app_sep by (vm_compute; set_solver).
  change ((js "- You were created to handle: " ++ taskText) ++ [10%N] ++ ?x)
    with ((js "- You were created to handle: " ++ taskText) ++ 10%N :: x).
  rewrite splitOn_app_sep; [reflexivity|].
  rewrite not_elem_of_app. split; [vm_compute; set_solver | exact Hnl].
Qed.

(** ** The canvas controller: reading the parameters of a command *)

Lemma indexOfChar_Some (c : N) (s : list N) (i : nat) :
  indexOfChar c s = Some i → (c ∉ take i s) ∧ s !! i = Some c.
Proof.
  revert i. induction s as [|x r IH]; intros i; [done|]. cbn [indexOfChar].
  destruct (x =? c)%N eqn:E.
  - intros [= <-]. apply N.eqb_eq in E as ->. split; [cbn; set_solver | done].
  - apply N.eqb_neq in E.
    destruct (indexOfChar c r) as [j|]; [|done]. cbn. intros [= <-].
    destruct (IH j eq_refl) as [H1 H2]. split; [|done].
    cbn. apply not_elem_of_cons. split; [done|exact H1].
Qed.

Lemma indexOfChar_app (c : N) (a b : list N) :
  c ∉ a → indexOfChar c (a ++ c :: b) = Some (length a).
Proof.
  intros Ha. induction a as [|x a IH]; cbn [app indexOfChar length].
  - by rewrite N.eqb_refl.
  - apply not_elem_of_cons in Ha as [Hx Ha].
    rewrite (proj2 (N.eqb_neq x c)) by done. by rewrite (IH Ha).
Qed.

Lemma lastIndexOfChar_app (c : N) (a b : list N) :
  c ∉ b → lastIndexOfChar c (a ++ c :: b) = Some (length a).
Proof.
  intros Hb.
  assert (lastIndexOfChar c b = None) as Hnone.
  { induction b as [|x b IH]; [done|]. apply not_elem_of_cons in Hb as [Hx Hb].
    cbn. rewrite (IH Hb). by rewrite (proj2 (N.eqb_neq x c)). }
  induction a as [|x a IH]; cbn [app lastIndexOfChar length].
  - by rewrite Hnone, N.eqb_refl.
  - by rewrite IH.
Qed.

(** The first occurrence of a key is where it is written, when nothing
    before it is the key's first unit. *)
Lemma indexOf_app (k : N) (key pre rest : list N) :
  k ∉ pre → indexOf (k :: key) (pre ++ (k :: key) ++ rest) = Some (length pre).
Proof.
  intros Hpre. induction pre as [|x pre IH]; cbn [app length].
  - assert (startsWith (k :: key) ((k :: key) ++ rest) = true) as H
      by apply startsWith_app.
    cbn [app] in *. cbn [indexOf]. by rewrite H.
  - apply not_elem_of_cons in Hpre as [Hx Hpre].
    cbn [indexOf startsWith]. rewrite (proj2 (N.eqb_neq k x)) by done.
    cbn [andb]. cbn [app] in IH. by rewrite (IH Hpre).
Qed.

Lemma startsWith_app_long (key a b : list N) :
  length key ≤ length a → startsWith key (a ++ b) = startsWith key a.
Proof.
  revert a. induction key as [|k key IH]; intros a Hlen; [by destruct a|].
  destruct a as [|x a]; [cbn in Hlen; lia|]. cbn [app startsWith].
  rewrite IH; [done|]. cbn [length] in Hlen. lia.
Qed.

(** A key that first occurs right after [pre] still does so when more text
    follows it. *)
Lemma indexOf_first (key pre rest : list N) :
  indexOf key (pre ++ key) = Some (length pre) →
  indexOf key (pre ++ key ++ rest) = Some (length pre).
Proof.
  induction pre as [|x pre IH]; intros H.
  - cbn [app length]. pose proof (startsWith_app key rest) as Hs.
    destruct (key ++ rest) as [|y t]; cbn [indexOf]; by rewrite Hs.
  - cbn [app length indexOf] in H |- *.
    assert (startsWith key (x :: pre ++ key ++ rest)
            = startsWith key (x :: pre ++ key)) as ->.
    { rewrite (app_assoc pre key rest).
      apply (startsWith_app_long key (x :: pre ++ key) rest).
      cbn [length]. rewrite length_app. lia. }
    destruct (startsWith key (x :: pre ++ key)); [done|].
    destruct (indexOf key (pre ++ key)) as [i|] eqn:E; [|done].
    cbn in H. injection H as ->. by rewrite (IH eq_refl).
Qed.

(** X19. What [parseNavigateUrl] returns never contains a double quote.
    When the key ["url"], with its quotes, first occurs in the parameters
    right after a text [pre], and is followed by a stretch [mid] without
    quotes and then by a value [u] between two quotes, with no quote
    inside, it returns that value as it stands, whatever [pre] holds and
    whatever follows the value; without parameters it returns [null]. *)
Theorem X19_navigate_url_round_trip (pre mid u post : list N) :
  indexOf urlKey (pre ++ urlKey) = Some (length pre) →
  quote ∉ mid → quote ∉ u →
  parseNavigateUrl (Some (pre ++ urlKey ++ mid ++ [quote] ++ u ++ [quote] ++ post))
    = Some u ∧
  (∀ raw v, parseNavigateUrl raw = Some v → quote ∉ v) ∧
  parseNavigateUrl None = None.
Proof.
  intros Hpre Hmid Hu. split; [|split; [|done]].
  - unfold parseNavigateUrl. cbn [mbind option_bind].
    set (tail := mid ++ [quote] ++ u ++ [quote] ++ post).
    assert (indexOf urlKey (pre ++ urlKey ++ tail) = Some (length pre)) as ->
      by (by apply indexOf_first).
    cbn [mbind option_bind].
    assert (indexOfCharFrom quote (length pre + length urlKey) (pre ++ urlKey ++ tail)
            = Some (length pre + length urlKey + length mid)) as ->.
    { unfold indexOfCharFrom. rewrite (assoc_L (++)).
      rewrite drop_app_length'; [|by rewrite length_app].
      subst tail. cbn [app]. by rewrite indexOfChar_app. }
    cbn [mbind option_bind].
    assert (drop (length pre + length urlKey + length mid + 1) (pre ++ urlKey ++ tail)
            = u ++ quote :: post) as Hdrop.
    { assert (pre ++ urlKey ++ tail =
              (pre ++ urlKey ++ mid ++ [quote]) ++ u ++ quote :: post) as ->
        by (subst tail; by rewrite <- !(assoc_L (++))).
      rewrite drop_app_length'; [done|]. rewrite !length_app. cbn [length]. lia. }
    unfold indexOfCharFrom. rewrite Hdrop, indexOfChar_app by done.
    cbn [fmap option_fmap option_map mbind option_bind].
    unfold substring. rewrite Hdrop.
    replace (length pre + length urlKey + length mid + 1 + length u
             - (length pre + length urlKey + length mid + 1)) with (length u) by lia.
    by rewrite take_app_length.
  - intros raw v. unfold parseNavigateUrl.
    destruct raw as [raw|]; [|done]. cbn [mbind option_bind].
    destruct (indexOf urlKey raw) as [idx|]; [|done]. cbn [mbind option_bind].
    destruct (indexOfCharFrom quote (idx + length urlKey) raw) as [start|]; [|done].
    cbn [mbind option_bind]. unfold indexOfCharFrom.
    destruct (indexOfChar quote (drop (start + 1) raw)) as [i|] eqn:E; [|done].
    cbn. intros [= <-]. unfold substring.
    replace (start + 1 + i - (start + 1)) with i by lia.
    by apply indexOfChar_Some in E as [E _].
Qed.

Lemma X19_navigate_url_round_trip_witness :
  parseNavigateUrl
    (Some (js "{" ++ [quote] ++ js "mode" ++ [quote] ++ js ":" ++ [quote]
           ++ js "web" ++ [quote] ++ js "," ++ urlKey ++ js ":" ++ [quote]
           ++ js "https://example.org/a" ++ [quote] ++ js "}"))
  = Some (js "https://example.org/a").
Proof.
  apply (X19_navigate_url_round_trip
           (js "{" ++ [quote] ++ js "mode" ++ [quote] ++ js ":" ++ [quote]
            ++ js "web" ++ [quote] ++ js ",")
           (js ":") (js "https://example.org/a") (js "}")).
  - reflexivity.
  - vm_compute. set_solver.
  - vm_compute. set_solver.
Defined.

Lemma replacePair_cons_ne (a b x : N) (new s : list N) :
  x ≠ a → replacePair a b new (x :: s) = x :: replacePair a b new s.
Proof.
  intros Hx. destruct s as [|y r]; [done|].
  cbn [replacePair]. by rewrite (proj2 (N.eqb_neq x a)).
Qed.

Lemma replacePair_absent (a b : N) (new s : list N) :
  a ∉ s → replacePair a b new s = s.
Proof.
  induction s as [|x s IH]; [done|]. intros H.
  apply not_elem_of_cons in H as [Hx Hs].
  rewrite replacePair_cons_ne by done. by rewrite IH.
Qed.

(** The escaping with the line feeds restored. *)
Lemma unescape_newlines (script : list N) :
  backslash ∉ script →
  replacePair backslash 110%N [10%N] (escapeEvalJs script) =
  flat_map (λ c, if (c =? quote)%N then [backslash; quote] else [c]) script.
Proof.
  induction script as [|c r IH]; [done|]. intros H.
  apply not_elem_of_cons in H as [Hc Hr]. specialize (IH Hr).
  unfold escapeEvalJs in *. cbn [flat_map].
  destruct (c =? quote)%N eqn:Eq.
  - cbn [app].
    assert (∀ s, replacePair backslash 110%N [10%N] (backslash :: quote :: s)
                 = backslash :: quote :: replacePair backslash 110%N [10%N] s) as Hstep.
    { intros s. cbn [replacePair]. cbn [N.eqb Pos.eqb andb].
      f_equal. by apply replacePair_cons_ne. }
    by rewrite Hstep, IH.
  - destruct (c =? 10)%N eqn:En.
    + apply N.eqb_eq in En as ->. cbn [app replacePair].
      cbn [N.eqb Pos.eqb andb app]. by rewrite IH.
    + cbn [app]. rewrite replacePair_cons_ne by done. by rewrite IH.
Qed.

Lemma unescape_quotes (script : list N) :
  backslash ∉ script →
  replacePair backslash quote [quote]
    (flat_map (λ c, if (c =? quote)%N then [backslash; quote] else [c]) script)
  = script.
Proof.
  induction script as [|c r IH]; [done|]. intros H.
  apply not_elem_of_cons in H as [Hc Hr]. specialize (IH Hr).
  cbn [flat_map]. destruct (c =? quote)%N eqn:Eq.
  - apply N.eqb_eq in Eq as ->. cbn [app replacePair].
    cbn [N.eqb Pos.eqb andb app]. by rewrite IH.
  - cbn [app]. rewrite replacePair_cons_ne by done. by rewrite IH.
Qed.

(** X20. [parseEvalJs] gives back a script without backslash that was
    written between quotes after the key ["javaScript"] with its quotes and
    line feeds escaped, provided no quote stands before the key, between
    the key and the value, or after the value. Without parameters, and
    when the only quote after the key is the one the value would start at,
    it returns [null]. *)
Theorem X20_eval_js_round_trip (pre mid script post : list N) :
  quote ∉ pre → quote ∉ mid → quote ∉ post → backslash ∉ script →
  parseEvalJs
    (Some (pre ++ javaScriptKey ++ mid ++ [quote] ++ escapeEvalJs script
           ++ [quote] ++ post))
    = Some script ∧
  parseEvalJs (Some (pre ++ javaScriptKey ++ mid ++ [quote] ++ post)) = None ∧
  parseEvalJs None = None.
Proof.
  intros Hpre Hmid Hpost Hscript.
  assert (∀ tail, indexOf javaScriptKey (pre ++ javaScriptKey ++ tail)
                  = Some (length pre)) as Hidx
    by (intros tail; by apply (indexOf_app quote (js "javaScript" ++ [quote]) pre tail)).
  assert (∀ tail, indexOfCharFrom quote (length pre + length javaScriptKey)
                    (pre ++ javaScriptKey ++ mid ++ quote :: tail)
                  = Some (length pre + length javaScriptKey + length mid)) as Hstart.
  { intros tail. unfold indexOfCharFrom. rewrite (assoc_L (++)).
    rewrite drop_app_length'; [|by rewrite length_app].
    by rewrite indexOfChar_app. }
  split; [|split; [|done]].
  - unfold parseEvalJs. cbn [mbind option_bind].
    rewrite Hidx. cbn [mbind option_bind app].
    rewrite Hstart. cbn [mbind option_bind].
    assert (pre ++ javaScriptKey ++ mid ++ quote :: escapeEvalJs script ++ quote :: post
            = (pre ++ javaScriptKey ++ mid ++ [quote] ++ escapeEvalJs script)
              ++ quote :: post) as Hraw by (by rewrite <- !(assoc_L (++))).
    rewrite Hraw at 1. rewrite lastIndexOfChar_app by done.
    rewrite !length_app. cbn [length].
    destruct (_ <=? _) eqn:E; [apply Nat.leb_le in E; lia|].
    f_equal. unfold substring.
    assert (pre ++ javaScriptKey ++ mid ++ quote :: escapeEvalJs script ++ quote :: post
            = (pre ++ javaScriptKey ++ mid ++ [quote])
              ++ escapeEvalJs script ++ quote :: post) as ->
      by (by rewrite <- !(assoc_L (++))).
    rewrite drop_app_length'; [|rewrite !length_app; cbn [length]; lia].
    replace (length pre + (length javaScriptKey + (length mid + (1 + length (escapeEvalJs script))))
             - (length pre + length javaScriptKey + length mid + 1))
      with (length (escapeEvalJs script)) by lia.
    rewrite take_app_length.
    unfold unescapeEvalJs. rewrite unescape_newlines, unescape_quotes by done.
    by apply replacePair_absent.
  - unfold parseEvalJs. cbn [mbind option_bind].
    rewrite Hidx. cbn [mbind option_bind app].
    rewrite Hstart. cbn [mbind option_bind].
    assert (pre ++ javaScriptKey ++ mid ++ quote :: post
            = (pre ++ javaScriptKey ++ mid) ++ quote :: post) as ->
      by (by rewrite <- !(assoc_L (++))).
    rewrite lastIndexOfChar_app by done.
    rewrite !length_app.
    destruct (_ <=? _) eqn:E; [done|]. apply Nat.leb_gt in E. lia.
Qed.

Lemma X20_eval_js_round_trip_witness :
  parseEvalJs
    (Some (js "{" ++ javaScriptKey ++ js ":" ++ [quote]
           ++ escapeEvalJs (js "alert(" ++ [quote] ++ js "hi" ++ [quote] ++ js ");")
           ++ [quote] ++ js "}"))
  = Some (js "alert(" ++ [quote] ++ js "hi" ++ [quote] ++ js ");").
Proof.
  apply (X20_eval_js_round_trip (js "{") (js ":")
           (js "alert(" ++ [quote] ++ js "hi" ++ [quote] ++ js ");") (js "}"));
    vm_compute; set_solver.
Defined.

(** ** The canvas controller: what the WebView is told to load *)

Lemma trimStartBy_head (ws : N → bool) (s : list N) (c : N) :
  head (trimStartBy ws s) = Some c → ws c = false.
Proof.
  induction s as [|x s IH]; [done|]. cbn.
  destruct (ws x) eqn:E; [exact IH|]. cbn. by intros [= <-].
Qed.

Lemma trimStartBy_suffix (ws : N → bool) (s : list N) :
  trimStartBy ws s `suffix_of` s.
Proof.
  induction s as [|x s IH]; [done|]. cbn.
  destruct (ws x); [by apply suffix_cons_r | done].
Qed.

Lemma trimBy_clean (ws : N → bool) (s : list N) :
  trimBy ws s ≠ [] → cleanUrl ws (trimBy ws s).
Proof.
  intros Hne. split; [exact Hne|]. unfold trimBy in *.
  set (a := trimStartBy ws s) in *.
  set (b := trimStartBy ws (rev a)) in *.
  split.
  - intros c Hc.
    assert (b `suffix_of` rev a) as [k Hk] by apply trimStartBy_suffix.
    apply (f_equal (λ l, rev l)) in Hk. cbv beta in Hk. rewrite rev_involutive, rev_app_distr in Hk.
    destruct (rev b) as [|y t] eqn:Eb; [done|]. cbn in Hc. injection Hc as ->.
    apply (trimStartBy_head ws s). fold a. by rewrite Hk.
  - intros c Hc. apply (trimStartBy_head ws (rev a)). fold b.
    destruct b as [|y t]; [done|]. cbn [rev] in Hc. rewrite last_snoc in Hc.
    done.
Qed.

Lemma isBlank_trimBy (ws : N → bool) (s : list N) :
  isBlank ws (trimBy ws s) = false → trimBy ws s ≠ [].
Proof. intros H E. by rewrite E in H. Qed.

Lemma canvasStep_calls (ws : N → bool) (op : CanvasOp) (c : CanvasState) :
  let r := canvasStep ws op c in
  length r.2 ≤ 1 ∧
  (cv_webView r.1 = None → r.2 = []) ∧
  (∀ wv u, LoadUrl wv u ∈ r.2 →
     cleanUrl ws u ∧ cv_mode r.1 = WEB ∧ cv_webView r.1 = Some wv ∧
     u = trimBy ws (cv_url r.1)) ∧
  (∀ wv, LoadCanvasPage wv ∈ r.2 → cv_mode r.1 = CANVAS ∧ cv_webView r.1 = Some wv).
Proof.
  unfold canvasStep. cbv zeta. cbn [fst snd].
  set (c1 := match op with
             | Attach wv => _ | SetMode m => _ | Navigate u => _ end).
  unfold reload. destruct (cv_webView c1) as [wv|]; [|by repeat split; try set_solver].
  destruct (cv_mode c1).
  - repeat split; try done; try set_solver.
  - cbv zeta. destruct (isBlank ws (trimBy ws (cv_url c1))) eqn:E.
    + repeat split; try done; set_solver.
    + split; [done|]. split; [done|]. split; [|set_solver].
      intros wv' u Hin. apply list_elem_of_singleton in Hin. injection Hin as -> ->.
      split; [|done]. by apply trimBy_clean, isBlank_trimBy.
Qed.

(** X21. Whatever operations are applied to a new canvas controller, every
    URL it tells a WebView to load is not empty and has no white space at
    either end (a blank URL in web mode loads nothing, so the page stays);
    each operation makes at most one call; and until a WebView is attached
    no call is made at all. *)
Theorem X21_canvas_loads_only_clean_urls (ws : N → bool) (ops : list CanvasOp)
    (c : CanvasState) :
  let r := canvasRun ws ops c in
  (∀ wv u, LoadUrl wv u ∈ r.2 → cleanUrl ws u) ∧
  length r.2 ≤ length ops ∧
  (cv_webView c = None → (∀ wv, Attach wv ∉ ops) → r.2 = []).
Proof.
  revert c. induction ops as [|op ops IH]; intros c.
  - cbn. split; [|done]. intros wv u Hin. by apply elem_of_nil in Hin.
  - cbn [canvasRun]. cbv zeta.
    pose proof (canvasStep_calls ws op c) as (H1 & H2 & H3 & _). cbv zeta in *.
    destruct (canvasStep ws op c) as [c1 calls1] eqn:Es. cbn [fst snd] in *.
    specialize (IH c1). cbv zeta in IH.
    destruct (canvasRun ws ops c1) as [c2 calls2]. cbn [fst snd] in *.
    destruct IH as (I1 & I2 & I3).
    split; [|split].
    + intros wv u Hin. apply elem_of_app in Hin as [Hin|Hin].
      * by destruct (H3 wv u Hin).
      * by apply (I1 wv).
    + rewrite length_app. cbn [length]. lia.
    + intros Hnone Hno.
      assert (cv_webView c1 = None) as Hc1.
      { unfold canvasStep in Es. injection Es as <- _.
        destruct op as [wv|m|u]; cbn; try done.
        exfalso. apply (Hno wv). apply elem_of_cons. by left. }
      rewrite (H2 Hc1), I3; [done|done|].
      intros wv Hin. apply (Hno wv). apply elem_of_cons. by right.
Qed.

(** ** Hooks: the status report and the enable and disable commands *)

Lemma find_status (host : HookHost) (hookEntries : list HookEntry)
    (cfg : option ClawdbotConfig) (eligibility : option RemoteEligibility)
    (hookName : jsstring) :
  List.find (λ h, bool_decide (hs_name h = hookName))
    (buildWorkspaceHookStatus host hookEntries cfg eligibility)
  = (λ entry, buildHookStatus host entry cfg eligibility)
    <$> List.find (λ e, bool_decide (hook_name e = hookName)) hookEntries.
Proof.
  unfold buildWorkspaceHookStatus.
  induction hookEntries as [|e l IH]; [done|]. cbn [map List.find].
  change (hs_name (buildHookStatus host e cfg eligibility)) with (hook_name e).
  destruct (bool_decide (hook_name e = hookName)); [done|exact IH].
Qed.


Lemma eligible_disabled (host : HookHost) (entry : HookEntry)
    (cfg : option ClawdbotConfig) (eligibility : option RemoteEligibility) :
  hs_eligible (buildHookStatus host entry cfg eligibility)
  = negb (hs_disabled (buildHookStatus host entry cfg eligibility))
    && (hook_always entry
        || (isEmpty (bins (hs_missing (buildHookStatus host entry cfg eligibility)))
            && isEmpty (anyBins (hs_missing (buildHookStatus host entry cfg eligibility)))
            && isEmpty (env (hs_missing (buildHookStatus host entry cfg eligibility)))
            && isEmpty (config (hs_missing (buildHookStatus host entry cfg eligibility)))
            && isEmpty (os (hs_missing (buildHookStatus host entry cfg eligibility))))).
Proof. reflexivity. Qed.

Lemma always_missing (host : HookHost) (entry : HookEntry)
    (cfg : option ClawdbotConfig) (eligibility : option RemoteEligibility) :
  hook_always entry = true →
  hs_missing (buildHookStatus host entry cfg eligibility) = mkLists [] [] [] [] [].
Proof. intros H. unfold buildHookStatus. cbn [hs_missing]. by rewrite H. Qed.

(** X22. For the first hook entry with the given name: when the
    configuration entry found under its hook key has [enabled] false,
    [enableHook] throws the "not eligible" error and writes nothing, also
    for a hook marked [always], so the command cannot switch a disabled
    hook back on; when that entry does not say false and the hook is marked
    [always], [enableHook] succeeds whatever its requirements; and
    [disableHook] succeeds for every hook that is found. *)
Theorem X22_disabled_hook_cannot_be_enabled (host : HookHost)
    (hookEntries : list HookEntry) (cfg : ClawdbotConfig)
    (hookName : jsstring) (entry : HookEntry) :
  List.find (λ e, bool_decide (hook_name e = hookName)) hookEntries = Some entry →
  let hookConfig := resolveHookConfig host (Some cfg) (resolveHookKey entry) in
  (enabledOf hookConfig = Some false →
     enableHook host hookEntries cfg hookName = inl (HookNotEligible hookName)) ∧
  (enabledOf hookConfig ≠ Some false → hook_always entry = true →
     ∃ written, enableHook host hookEntries cfg hookName = inr written) ∧
  (∃ written, disableHook host hookEntries cfg hookName = inr written).
Proof.
  intros Hfind hookConfig.
  unfold enableHook, disableHook. cbv zeta. rewrite find_status, Hfind.
  cbn [fmap option_fmap option_map].
  rewrite eligible_disabled.
  change (hs_disabled (buildHookStatus host entry (Some cfg) None))
    with (bool_decide (enabledOf hookConfig = Some false)).
  split; [|split].
  - intros Hoff. by rewrite bool_decide_eq_true_2.
  - intros Hon Halways. rewrite bool_decide_eq_false_2 by done.
    rewrite Halways. cbn. eauto.
  - eauto.
Qed.

Lemma X22_disabled_hook_cannot_be_enabled_witness :
  let host := mkHookHost (λ _, false) (λ _, None) (js "linux")
                (λ cfg key, match cfg ≫= internal_entries with
                            | Some entries => entries !! key
                            | None => None
                            end)
                (λ _ _, false) in
  let entry := mkHookEntry (js "session-memory") (js "Saves the session") None
                 true (mkLists [js "git"] [] [] [] []) in
  let cfg := mkConfig (Some true)
               (Some {[ js "session-memory" := mkHookConfig (Some false) None ]}) in
  enableHook host [entry] cfg (js "session-memory")
  = inl (HookNotEligible (js "session-memory")).
Proof.
  intros host entry cfg.
  apply (X22_disabled_hook_cannot_be_enabled host [entry] cfg
           (js "session-memory") entry); reflexivity.
Defined.


(** X24. The status of a hook. Every list of what is missing is a sublist
    of the matching requirement; a binary reported missing is found neither
    locally nor by the remote side; an eligible hook is not disabled and
    misses nothing; and a hook marked [always] misses nothing whatever its
    requirements. *)
Theorem X24_status_misses_only_requirements (host : HookHost)
    (entry : HookEntry) (cfg : option ClawdbotConfig)
    (eligibility : option RemoteEligibility) :
  let st := buildHookStatus host entry cfg eligibility in
  (bins (hs_missing st) `sublist_of` bins (hook_requires entry) ∧
   anyBins (hs_missing st) `sublist_of` anyBins (hook_requires entry) ∧
   env (hs_missing st) `sublist_of` env (hook_requires entry) ∧
   config (hs_missing st) `sublist_of` config (hook_requires entry) ∧
   os (hs_missing st) `sublist_of` os (hook_requires entry)) ∧
  (∀ bin, bin ∈ bins (hs_missing st) →
     hasBinary host bin = false ∧ remoteHasBin eligibility bin = false) ∧
  (hs_eligible st = true → hs_disabled st = false ∧ nothingMissing (hs_missing st)) ∧
  (hook_always entry = true → nothingMissing (hs_missing st)).
Proof.
  intros st.
  assert (∀ l : list jsstring, [] `sublist_of` l) as Hnil
    by (intros l; apply sublist_nil_l).
  split; [|split; [|split]].
  - unfold st, buildHookStatus. cbn [hs_missing].
    destruct (hook_always entry); cbn [bins anyBins env config os].
    + repeat split; apply Hnil.
    + repeat split; try apply sublist_filter.
      * destruct (_ && _); [done|apply Hnil].
      * destruct (_ && _); [done|apply Hnil].
  - intros bin. unfold st, buildHookStatus. cbn [hs_missing].
    destruct (hook_always entry); cbn [bins]; [by intros ?%elem_of_nil|].
    intros [Hb _]%list_elem_of_filter.
    apply negb_true_iff, orb_false_iff in Hb. exact Hb.
  - unfold st. rewrite eligible_disabled.
    intros [Hd Hm]%andb_true_iff. split; [by apply negb_true_iff|].
    destruct (hook_always entry) eqn:Ha.
    + rewrite always_missing by done. by repeat split.
    + cbn [orb] in Hm. unfold nothingMissing.
      repeat (apply andb_true_iff in Hm as [Hm ?]).
      repeat split;
        match goal with
        | |- ?l = [] => by destruct l
        end.
  - intros Ha. unfold st. rewrite always_missing by done. by repeat split.
Qed.

(** ** Bridge discovery: instance names and stable ids *)

Section BridgeNames.
Variables ws rs : N → bool.
Hypothesis rs_space : rs 32%N = true.
Hypothesis rs_ws : ∀ c, rs c = true → ws c = true.

Lemma regexSplit_cons (b : bool) (c : N) (r : list N) :
  regexSplit rs b (c :: r)
  = if rs c then
      if b then regexSplit rs true r else [] :: regexSplit rs true r
    else
      match regexSplit rs false r with
      | p :: ps => (c :: p) :: ps
      | [] => [[c]]
      end.
Proof. reflexivity. Qed.

Lemma regexSplit_nonempty (b : bool) (s : list N) : regexSplit rs b s ≠ [].
Proof.
  revert b. induction s as [|c r IH]; intros b; [done|]. cbn [regexSplit].
  destruct (rs c).
  - destruct b; [apply IH|done].
  - by destruct (regexSplit rs false r).
Qed.

Lemma regexSplit_plain (b : bool) (p : list N) :
  Forall (λ c, rs c = false) p → regexSplit rs b p = [p].
Proof.
  revert b. induction p as [|c p IH]; intros b Hp; [done|].
  apply Forall_cons in Hp as [Hc Hp]. cbn [regexSplit]. rewrite Hc.
  by rewrite (IH false Hp).
Qed.

Lemma regexSplit_piece (p rest : list N) :
  Forall (λ c, rs c = false) p →
  regexSplit rs false (p ++ 32%N :: rest) = p :: regexSplit rs true rest.
Proof.
  induction p as [|c p IH]; intros Hp; cbn [app regexSplit].
  - by rewrite rs_space.
  - apply Forall_cons in Hp as [Hc Hp]. rewrite Hc. by rewrite (IH Hp).
Qed.

Lemma regexSplit_piece_run (p rest : list N) :
  Forall (λ c, rs c = false) p → p ≠ [] →
  regexSplit rs true (p ++ 32%N :: rest) = p :: regexSplit rs true rest.
Proof.
  intros Hp Hne. rewrite <- (regexSplit_piece p rest Hp).
  destruct p as [|c p]; [done|]. apply Forall_cons in Hp as [Hc _].
  cbn [app regexSplit]. by rewrite Hc.
Qed.

Lemma regexSplit_pieces (s : list N) :
  (∀ b, Forall (Forall (λ c, rs c = false)) (regexSplit rs b s)) ∧
  innerPiecesFull (regexSplit rs true s) ∧
  ∃ p ps, regexSplit rs false s = p :: ps ∧ innerPiecesFull ps.
Proof.
  induction s as [|c r (IHn & IHt & p & ps & IHf & IHi)].
  - split; [|split].
    + intros b. by repeat constructor.
    + done.
    + by exists [], [].
  - cbn [regexSplit]. destruct (rs c) eqn:Hc.
    + split; [|split].
      * intros [|]; [apply IHn|]. constructor; [done|apply IHn].
      * exact IHt.
      * by exists [], (regexSplit rs true r).
    + rewrite IHf. split; [|split].
      * intros _. specialize (IHn false). rewrite IHf in IHn.
        apply Forall_cons in IHn as [Hp Hps].
        constructor; [by constructor|done].
      * cbn [innerPiecesFull]. destruct ps; [done|]. by split.
      * by exists (c :: p), ps.
Qed.

Lemma join_cons2 (sep p q : list N) (rest : list (list N)) :
  join sep (p :: q :: rest) = p ++ sep ++ join sep (q :: rest).
Proof. reflexivity. Qed.

Lemma regexSplit_join_run (ps : list (list N)) :
  Forall (Forall (λ c, rs c = false)) ps → innerPiecesFull ps → ps ≠ [] →
  regexSplit rs true (join [32%N] ps) = ps.
Proof.
  induction ps as [|p rest IH]; intros Hn Hi Hne; [done|].
  apply Forall_cons in Hn as [Hp Hrest].
  destruct rest as [|q rest].
  - cbn [join]. by apply regexSplit_plain.
  - destruct Hi as [Hpne Hi]. rewrite join_cons2. cbn [app].
    rewrite regexSplit_piece_run by done. by rewrite IH.
Qed.

Lemma regexSplit_join (s : list N) :
  regexSplit rs false (join [32%N] (regexSplit rs false s)) = regexSplit rs false s.
Proof.
  destruct (regexSplit_pieces s) as (Hn & _ & p & ps & Hf & Hi).
  specialize (Hn false). rewrite Hf in *.
  apply Forall_cons in Hn as [Hp Hps].
  destruct ps as [|q rest].
  - cbn [join]. by apply regexSplit_plain.
  - rewrite join_cons2. cbn [app]. rewrite regexSplit_piece by done.
    by rewrite regexSplit_join_run.
Qed.

Lemma join_head_cons (c : N) (p : list N) (ps : list (list N)) :
  join [32%N] ((c :: p) :: ps) = c :: join [32%N] (p :: ps).
Proof. by destruct ps. Qed.

Lemma head_join_regexSplit (t : list N) :
  (∀ c, head t = Some c → rs c = false) →
  head (join [32%N] (regexSplit rs false t)) = head t.
Proof.
  destruct t as [|c t]; [done|]. intros H. cbn [regexSplit].
  rewrite (H c) by done.
  pose proof (regexSplit_nonempty false t).
  destruct (regexSplit rs false t) as [|p ps]; [done|].
  by rewrite join_head_cons.
Qed.

Lemma last_cons_some {A} (x y : A) (l : list A) :
  last l = Some y → last (x :: l) = Some y.
Proof. destruct l; [done|]. by rewrite last_cons_cons. Qed.

Lemma last_join_regexSplit (b : bool) (t : list N) :
  (∀ c, last t = Some c → rs c = false) →
  last (join [32%N] (regexSplit rs b t)) = last t.
Proof.
  revert b. induction t as [|c t IH]; intros b H; [done|].
  destruct t as [|d t].
  - cbn [regexSplit]. by rewrite (H c).
  - rewrite last_cons_cons in H |- *.
    assert (∃ y, last (d :: t) = Some y) as [y Hy].
    { destruct (last (d :: t)) eqn:E; [eauto|]. by apply last_None in E. }
    rewrite (regexSplit_cons b c (d :: t)).
    destruct (rs c).
    + destruct b; [by apply IH|].
      pose proof (regexSplit_nonempty true (d :: t)).
      specialize (IH true H). rewrite Hy in IH.
      destruct (regexSplit rs true (d :: t)) as [|q qs]; [done|].
      rewrite join_cons2. cbn [app]. rewrite Hy. by apply last_cons_some.
    + pose proof (regexSplit_nonempty false (d :: t)).
      specialize (IH false H). rewrite Hy in IH.
      destruct (regexSplit rs false (d :: t)) as [|q qs]; [done|].
      rewrite join_head_cons, Hy. by apply last_cons_some.
Qed.

Lemma trimStartBy_fixed (s : list N) :
  (∀ c, head s = Some c → ws c = false) → trimStartBy ws s = s.
Proof. destruct s as [|c s]; [done|]. intros H. cbn. by rewrite (H c). Qed.

Lemma trimBy_fixed (s : list N) :
  (∀ c, head s = Some c → ws c = false) →
  (∀ c, last s = Some c → ws c = false) →
  trimBy ws s = s.
Proof.
  intros Hh Hl. unfold trimBy. rewrite (trimStartBy_fixed s Hh).
  rewrite trimStartBy_fixed; [apply rev_involutive|].
  intros c Hc. apply Hl. rewrite <- Hc.
  destruct s as [|x s] using rev_ind; [done|].
  by rewrite rev_app_distr, last_snoc.
Qed.

Lemma trimBy_ends (s : list N) :
  (∀ c, head (trimBy ws s) = Some c → ws c = false) ∧
  (∀ c, last (trimBy ws s) = Some c → ws c = false).
Proof.
  destruct (decide (trimBy ws s = [])) as [E|Hne].
  - rewrite E. by split.
  - by destruct (trimBy_clean ws s Hne) as (_ & Hh & Hl).
Qed.

Lemma not_ws_not_rs (c : N) : ws c = false → rs c = false.
Proof.
  intros H. destruct (rs c) eqn:E; [|done]. apply rs_ws in E. congruence.
Qed.

Lemma normalizeName_idem (raw : list N) :
  normalizeName ws rs (normalizeName ws rs raw) = normalizeName ws rs raw.
Proof.
  unfold normalizeName at 1. fold (normalizeName ws rs raw).
  destruct (trimBy_ends raw) as [Hh Hl].
  assert (trimBy ws (normalizeName ws rs raw) = normalizeName ws rs raw) as ->.
  { apply trimBy_fixed; unfold normalizeName.
    - rewrite head_join_regexSplit; [exact Hh|].
      intros c Hc. by apply not_ws_not_rs, Hh.
    - rewrite last_join_regexSplit; [exact Hl|].
      intros c Hc. by apply not_ws_not_rs, Hl. }
  unfold normalizeName. by rewrite regexSplit_join.
Qed.

Lemma endsWith_app (a suffix : list N) : endsWith suffix (a ++ suffix) = true.
Proof. unfold endsWith. rewrite rev_app_distr. apply startsWith_app. Qed.

Lemma removeSuffix_app (a suffix : list N) : removeSuffix suffix (a ++ suffix) = a.
Proof.
  unfold removeSuffix. rewrite endsWith_app, length_app.
  replace (length a + length suffix - length suffix) with (length a) by lia.
  by rewrite take_app_length.
Qed.

Lemma decodeInstanceName_fqdn (name domain : list N) :
  decodeInstanceName ws rs (name ++ js "." ++ serviceType ++ domain) domain
  = normalizeName ws rs name.
Proof.
  unfold decodeInstanceName. cbv zeta.
  replace (name ++ js "." ++ serviceType ++ domain)
    with ((name ++ js ".") ++ (serviceType ++ domain))
    by (by rewrite <- !app_assoc).
  rewrite endsWith_app, removeSuffix_app. unfold stripTrailingDot.
  by rewrite removeSuffix_app.
Qed.

(** X25. Provided the regular expression's white space contains the space
    and is white space for [trim] too: normalising a name twice gives what
    normalising it once gives; the instance name decoded from
    [name.<service type><domain>] is the normalised [name], whatever dots
    and white space [name] has; and so the stable id made from a decoded
    name is the stable id of the name itself. *)
Theorem X25_bridge_name_is_stable (raw name domain : list N) :
  normalizeName ws rs (normalizeName ws rs raw) = normalizeName ws rs raw ∧
  decodeInstanceName ws rs (name ++ js "." ++ serviceType ++ domain) domain
  = normalizeName ws rs name ∧
  stableId ws rs
    (decodeInstanceName ws rs (name ++ js "." ++ serviceType ++ domain) domain)
    domain
  = stableId ws rs name domain.
Proof.
  split; [apply normalizeName_idem|]. split; [apply decodeInstanceName_fqdn|].
  unfold stableId. by rewrite decodeInstanceName_fqdn, normalizeName_idem.
Qed.

End BridgeNames.

Lemma X25_bridge_name_is_stable_witness :
  let name := js "  Living   Room. " in
  normalizeName isWhiteSpace isWhiteSpace name = js "Living Room." ∧
  stableId isWhiteSpace isWhiteSpace
    (decodeInstanceName isWhiteSpace isWhiteSpace
       (name ++ js "." ++ serviceType ++ js "local.") (js "local."))
    (js "local.")
  = stableId isWhiteSpace isWhiteSpace name (js "local.").
Proof.
  intros name. split; [reflexivity|].
  apply (X25_bridge_name_is_stable isWhiteSpace isWhiteSpace eq_refl
           (λ c H, H) name name (js "local.")).
Defined.

(** ** Hooks: the hooks found in the directories *)

Lemma keys_mapSet {V} (k : jsstring) (v : V) (m : list (jsstring * V)) :
  map fst (mapSet k v m)
  = if decide (k ∈ map fst m) then map fst m else map fst m ++ [k].
Proof.
  induction m as [|[k' v'] m IH]; cbn [mapSet map fst app].
  - by rewrite decide_False by apply not_elem_of_nil.
  - destruct (decide (k' = k)) as [->|Hne].
    + cbn [map fst]. rewrite decide_True; [done|]. apply elem_of_cons. by left.
    + cbn [map fst]. rewrite IH. destruct (decide (k ∈ map fst m)) as [Hin|Hout].
      * rewrite decide_True; [done|]. apply elem_of_cons. by right.
      * rewrite decide_False; [done|]. intros [->|?]%elem_of_cons; done.
Qed.

Lemma mapGet_mapSet {V} (k k' : jsstring) (v : V) (m : list (jsstring * V)) :
  mapGet k' (mapSet k v m) = if decide (k = k') then Some v else mapGet k' m.
Proof.
  induction m as [|[k0 v0] m IH]; cbn [mapSet mapGet].
  - done.
  - destruct (decide (k0 = k)) as [->|Hne]; cbn [mapGet].
    + by destruct (decide (k = k')).
    + rewrite IH. destruct (decide (k0 = k')) as [->|]; [|done].
      by rewrite decide_False.
Qed.

Lemma mapSet_keyed (h : Hook) (m : list (jsstring * Hook)) :
  Forall (λ kv, h_name kv.2 = kv.1) m →
  Forall (λ kv, h_name kv.2 = kv.1) (mapSet (h_name h) h m).
Proof.
  induction m as [|[k0 v0] m IH]; intros Hm; cbn [mapSet].
  - by constructor.
  - apply Forall_cons in Hm as [H0 Hm].
    destruct (decide (k0 = h_name h)); constructor; auto.
Qed.

Lemma mergeInto_keyed (l : list Hook) (m : list (jsstring * Hook)) :
  Forall (λ kv, h_name kv.2 = kv.1) m →
  Forall (λ kv, h_name kv.2 = kv.1) (mergeInto m l).
Proof.
  revert m. induction l as [|h l IH]; intros m Hm; [done|].
  apply IH. by apply mapSet_keyed.
Qed.

Lemma mergeInto_app (m : list (jsstring * Hook)) (l1 l2 : list Hook) :
  mergeInto (mergeInto m l1) l2 = mergeInto m (l1 ++ l2).
Proof. unfold mergeInto. by rewrite foldl_app. Qed.

Lemma NoDup_reverse (l : list jsstring) : NoDup l → NoDup (reverse l).
Proof. intros H. by rewrite reverse_Permutation. Qed.

Lemma remove_dups_NoDup (l : list jsstring) : NoDup l → remove_dups l = l.
Proof.
  induction 1 as [|x l Hx Hl IH]; [done|]. cbn [remove_dups].
  destruct (decide_rel elem_of x l); [done|]. by rewrite IH.
Qed.

Lemma remove_dups_skip (a b : list jsstring) (k : jsstring) :
  k ∈ b → remove_dups (a ++ k :: b) = remove_dups (a ++ b).
Proof.
  intros Hk. induction a as [|x a IH]; cbn [app remove_dups].
  - by destruct (decide_rel elem_of k b).
  - rewrite IH.
    destruct (decide_rel elem_of x (a ++ k :: b)) as [H1|H1],
             (decide_rel elem_of x (a ++ b)) as [H2|H2]; try done; exfalso.
    + apply H2. set_solver.
    + apply H1. set_solver.
Qed.

Lemma firstOccurrences_seen (ks rest : list jsstring) (k : jsstring) :
  k ∈ ks → firstOccurrences (ks ++ k :: rest) = firstOccurrences (ks ++ rest).
Proof.
  intros Hk. unfold firstOccurrences. f_equal.
  rewrite !reverse_app, reverse_cons, <- app_assoc. cbn [app].
  apply remove_dups_skip. by apply elem_of_reverse.
Qed.

Lemma keys_mergeInto (l : list Hook) (m : list (jsstring * Hook)) :
  NoDup (map fst m) →
  map fst (mergeInto m l) = firstOccurrences (map fst m ++ map h_name l).
Proof.
  revert m. induction l as [|h l IH]; intros m Hm.
  - cbn. rewrite app_nil_r. unfold firstOccurrences.
    rewrite remove_dups_NoDup by by apply NoDup_reverse.
    by rewrite reverse_involutive.
  - cbn [mergeInto foldl map]. fold (mergeInto (mapSet (h_name h) h m) l).
    rewrite IH; rewrite keys_mapSet;
      destruct (decide (h_name h ∈ map fst m)) as [Hin|Hout]; try done.
    + by rewrite firstOccurrences_seen.
    + by rewrite <- app_assoc.
    + apply NoDup_app. split; [done|]. split; [|apply NoDup_singleton].
      intros x Hx ->%list_elem_of_singleton. done.
Qed.

Lemma mapGet_mergeInto (name : jsstring) (l : list Hook)
    (m : list (jsstring * Hook)) :
  mapGet name (mergeInto m l)
  = match last (filter (λ h, h_name h = name) l) with
    | Some h => Some h
    | None => mapGet name m
    end.
Proof.
  revert m. induction l as [|h l IH]; intros m; [done|].
  cbn [mergeInto foldl]. fold (mergeInto (mapSet (h_name h) h m) l).
  rewrite IH, mapGet_mapSet, filter_cons.
  destruct (decide (h_name h = name)) as [E|E].
  - rewrite last_cons. by destruct (last (filter _ l)).
  - done.
Qed.

Lemma find_mapValues (name : jsstring) (m : list (jsstring * Hook)) :
  Forall (λ kv, h_name kv.2 = kv.1) m →
  List.find (λ h, bool_decide (h_name h = name)) (mapValues m) = mapGet name m.
Proof.
  induction m as [|[k v] m IH]; intros Hm; [done|].
  apply Forall_cons in Hm as [Hk Hm]. cbn in Hk. subst k.
  cbn [mapValues map snd List.find mapGet].
  destruct (decide (h_name v = name)) as [E|E].
  - by rewrite bool_decide_eq_true_2.
  - rewrite bool_decide_eq_false_2 by done. by apply IH.
Qed.

(** X26. The hooks of the four kinds of directory are merged by name: the
    result holds each name once; a name stands where it first occurs in
    the order extra, bundled, managed, work space; and the hook kept for a
    name is the last one of that name in this order, so a work space hook
    wins over a managed one, a managed one over a bundled one, and that
    over one from an extra directory. *)
Theorem X26_hooks_are_merged_by_name {E} (readEntry : Hook → E)
    (extraHooks bundledHooks managedHooks workspaceHooks : list Hook) :
  let all := extraHooks ++ bundledHooks ++ managedHooks ++ workspaceHooks in
  ∃ hooks,
    loadHookEntries readEntry extraHooks bundledHooks managedHooks workspaceHooks
    = map readEntry hooks ∧
    map h_name hooks = firstOccurrences (map h_name all) ∧
    NoDup (map h_name hooks) ∧
    ∀ name, List.find (λ h, bool_decide (h_name h = name)) hooks
            = last (filter (λ h, h_name h = name) all).
Proof.
  intros all. unfold loadHookEntries. cbv zeta. rewrite !mergeInto_app.
  fold all.
  exists (mapValues (mergeInto [] all)). split; [done|].
  assert (Forall (λ kv : jsstring * Hook, h_name kv.2 = kv.1) (mergeInto [] all))
    as Hkeyed by (by apply mergeInto_keyed).
  assert (map h_name (mapValues (mergeInto [] all)) = map fst (mergeInto [] all))
    as Hnames.
  { unfold mapValues. rewrite map_map. apply map_ext_in.
    intros kv Hin. rewrite Forall_forall in Hkeyed.
    apply Hkeyed. by apply list_elem_of_In. }
  rewrite Hnames, keys_mergeInto by constructor. cbn [map app].
  split; [done|]. split.
  - unfold firstOccurrences. apply NoDup_reverse, NoDup_remove_dups.
  - intros name. rewrite find_mapValues by done.
    rewrite mapGet_mergeInto. by destruct (last _).
Qed.

(** ** Hooks: lists of names in the metadata *)

Lemma trimStart_suffix (s : jsstring) : trimStart s `suffix_of` s.
Proof.
  induction s as [|c s IH]; [done|]. cbn.
  destruct (isWhiteSpace c); [by apply suffix_cons_r | done].
Qed.

Lemma elem_of_trim (c : N) (s : jsstring) : c ∈ trim s → c ∈ s.
Proof.
  unfold trim. intros H.
  destruct (trimEnd_prefix (trimStart s)) as [k Hk].
  destruct (trimStart_suffix s) as [k' Hk'].
  rewrite Hk', Hk. set_solver.
Qed.

Lemma splitOn_pieces (sep : N) (s : jsstring) :
  Forall (λ p, sep ∉ p) (splitOn sep s).
Proof.
  induction s as [|c s IH]; cbn [splitOn].
  - repeat constructor. apply not_elem_of_nil.
  - destruct (c =? sep)%N eqn:E.
    + constructor; [apply not_elem_of_nil | done].
    + apply N.eqb_neq in E. destruct (splitOn sep s) as [|w rest].
      * repeat constructor. set_solver.
      * apply Forall_cons in IH as [Hw Hrest]. constructor; [|done].
        set_solver.
Qed.

Lemma trim_after_space (x : jsstring) : trim (32%N :: x) = trim x.
Proof. reflexivity. Qed.

Lemma splitOn_join_comma (x : jsstring) (xs : list jsstring) :
  Forall (λ x, comma ∉ x) (x :: xs) →
  splitOn comma (join (js ", ") (x :: xs)) = x :: map (λ y, 32%N :: y) xs.
Proof.
  revert x. induction xs as [|y xs IH]; intros x Hx.
  - apply Forall_cons in Hx as [Hx _]. cbn [join map].
    pose proof (splitOn_app_sep comma x [] Hx) as H.
    assert (∀ p, comma ∉ p → splitOn comma p = [p]) as Hp.
    { clear. induction p as [|c p IH]; [done|]. intros Hc.
      apply not_elem_of_cons in Hc as [Hc Hp]. cbn [splitOn].
      rewrite (proj2 (N.eqb_neq c comma)) by done. by rewrite IH. }
    by apply Hp.
  - apply Forall_cons in Hx as [Hx Hrest].
    change (join (js ", ") (x :: y :: xs))
      with (x ++ comma :: (32%N :: join (js ", ") (y :: xs))).
    rewrite splitOn_app_sep by done. cbn [map]. f_equal.
    cbn [splitOn]. change (32 =? comma)%N with false.
    by rewrite (IH y Hrest).
Qed.

Lemma filter_trimmed (xs : list jsstring) :
  Forall (λ x, x ≠ [] ∧ trim x = x) xs →
  filter (λ value, value ≠ []) (map trim xs) = xs.
Proof.
  induction 1 as [|x xs [Hne Ht] _ IH]; [done|].
  cbn [map]. rewrite filter_cons, Ht, decide_True by done. by rewrite IH.
Qed.

Lemma normalized_values (vs : list jsstring) :
  Forall (λ x, x ≠ [] ∧ trim x = x) (filter (λ value, value ≠ []) (map trim vs)).
Proof.
  apply Forall_forall. intros x [Hne Hin]%list_elem_of_filter.
  split; [done|]. apply list_elem_of_fmap in Hin as [y [-> _]]. apply trim_idem.
Qed.

(** X27. A list of names written with commas and read back is the list:
    for names that are not empty, have no white space at their ends and
    hold no comma, [normalizeStringList] gives back the names from their
    join with [", "], and from the array itself. Whatever the input, every
    name in the result is not empty and has no white space at its ends;
    read from a string, it holds no comma. *)
Theorem X27_string_list_round_trip (xs : list jsstring) :
  Forall (λ x, x ≠ [] ∧ trim x = x ∧ comma ∉ x) xs →
  normalizeStringList (InputString (join (js ", ") xs)) = xs ∧
  normalizeStringList (InputArray xs) = xs ∧
  (∀ input, Forall (λ x, x ≠ [] ∧ trim x = x) (normalizeStringList input)) ∧
  (∀ s, Forall (λ x, comma ∉ x) (normalizeStringList (InputString s))).
Proof.
  intros Hxs.
  assert (Forall (λ x, x ≠ [] ∧ trim x = x) xs) as Hclean
    by (eapply Forall_impl; [exact Hxs|]; by intros x (? & ? & ?)).
  assert (Forall (λ x, comma ∉ x) xs) as Hcomma
    by (eapply Forall_impl; [exact Hxs|]; by intros x (? & ? & ?)).
  split; [|split; [|split]].
  - destruct xs as [|x xs]; [done|].
    assert (normalizeStringList (InputString (join (js ", ") (x :: xs)))
            = filter (λ value, value ≠ [])
                (map trim (splitOn comma (join (js ", ") (x :: xs))))) as ->.
    { unfold normalizeStringList.
      destruct (join (js ", ") (x :: xs)) eqn:E; [|done].
      exfalso. apply Forall_cons in Hclean as [[Hne _] _].
      destruct x; [done|]. by destruct xs. }
    rewrite splitOn_join_comma by done.
    cbn [map]. rewrite map_map.
    rewrite (map_ext _ trim) by (intros; apply trim_after_space).
    by apply (filter_trimmed (x :: xs)).
  - by apply filter_trimmed.
  - intros [vs|s|]; cbn [normalizeStringList].
    + apply normalized_values.
    + destruct s; [constructor | apply normalized_values].
    + constructor.
  - intros s. cbn [normalizeStringList]. destruct s as [|c s]; [constructor|].
    apply Forall_forall. intros x [Hne Hin]%list_elem_of_filter.
    apply list_elem_of_fmap in Hin as [y [-> Hy]].
    pose proof (splitOn_pieces comma (c :: s)) as Hp.
    rewrite Forall_forall in Hp. intros Hc. apply (Hp y Hy).
    by apply elem_of_trim.
Qed.

Lemma X27_string_list_round_trip_witness :
  normalizeStringList (InputString (js "git, node, gh"))
  = [js "git"; js "node"; js "gh"].
Proof.
  apply (X27_string_list_round_trip [js "git"; js "node"; js "gh"]).
  repeat constructor; try done; vm_compute; set_solver.
Defined.

(** ** Hooks: the front matter of a hook file *)

Lemma keyPrefix_app (k t : jsstring) (x : N) :
  forallb isKeyChar k = true → isKeyChar x = false →
  keyPrefix (k ++ x :: t) = (k, x :: t).
Proof.
  intros Hk Hx. induction k as [|c k IH]; cbn [app keyPrefix].
  - by rewrite Hx.
  - cbn [forallb] in Hk. apply andb_true_iff in Hk as [Hc Hk].
    by rewrite Hc, (IH Hk).
Qed.

Lemma matchLine_pairLine (kv : jsstring * jsstring) :
  plainPair kv → matchLine (pairLine kv) = Some (kv.1, kv.2).
Proof.
  destruct kv as [k v]. intros (Hne & Hk & _ & Ht & Hlt). cbn [fst snd] in *.
  unfold matchLine, pairLine. cbn [fst snd].
  change (k ++ js ": " ++ v) with (k ++ colon :: 32%N :: v).
  rewrite keyPrefix_app by done. destruct k as [|c k]; [done|].
  rewrite N.eqb_refl. cbv zeta.
  assert (trimStart (32%N :: v) = v) as ->.
  { change (trimStart (32%N :: v)) with (trimStart v).
    apply trimStart_fixed. rewrite <- Ht. apply trim_head. }
  by rewrite Hlt.
Qed.

Lemma frontmatterLine_pairLine (fm : gmap jsstring jsstring)
    (kv : jsstring * jsstring) :
  plainPair kv →
  frontmatterLine fm (pairLine kv)
  = if keptPair kv then <[kv.1 := stripQuotes kv.2]> fm else fm.
Proof.
  intros Hkv. unfold frontmatterLine, keptPair.
  rewrite matchLine_pairLine by done.
  destruct Hkv as (Hne & _ & _ & Ht & _).
  cbv zeta. rewrite Ht.
  destruct kv.1 as [|c k] eqn:Ek; [done|].
  cbn [isEmpty orb].
  destruct (isEmpty (stripQuotes kv.2)); [done|].
  by destruct (bool_decide (c :: k = js "__proto__")).
Qed.

Lemma foldl_frontmatterLine (kvs : list (jsstring * jsstring))
    (fm : gmap jsstring jsstring) :
  Forall plainPair kvs →
  foldl frontmatterLine fm (map pairLine kvs)
  = foldl (λ fm kv, if keptPair kv then <[kv.1 := stripQuotes kv.2]> fm else fm)
      fm kvs.
Proof.
  revert fm. induction kvs as [|kv kvs IH]; intros fm Hk; [done|].
  apply Forall_cons in Hk as [Hkv Hk]. cbn [map foldl].
  by rewrite frontmatterLine_pairLine, IH.
Qed.

Lemma keyChar_not_lineFeed (k : jsstring) :
  forallb isKeyChar k = true → (lineFeed ∉ k) ∧ (carriageReturn ∉ k).
Proof.
  induction k as [|c k IH]; [intros _; split; apply not_elem_of_nil|].
  cbn [forallb]. intros [Hc Hk]%andb_true_iff. destruct (IH Hk) as [H1 H2].
  split; apply not_elem_of_cons; (split; [|done]); intros <-; done.
Qed.

Lemma plain_not_lineFeed (v : jsstring) :
  forallb (λ c, negb (isLineTerminator c)) v = true →
  (lineFeed ∉ v) ∧ (carriageReturn ∉ v).
Proof.
  induction v as [|c v IH]; [intros _; split; apply not_elem_of_nil|].
  cbn [forallb]. intros [Hc Hv]%andb_true_iff. destruct (IH Hv) as [H1 H2].
  split; apply not_elem_of_cons; (split; [|done]); intros <-; done.
Qed.

Lemma pairLine_plain (kv : jsstring * jsstring) :
  plainPair kv →
  (lineFeed ∉ pairLine kv) ∧ (carriageReturn ∉ pairLine kv) ∧
  ∀ t, startsWith (js "---") (pairLine kv ++ lineFeed :: t) = false.
Proof.
  intros (Hne & Hk & Hd & _ & Hlt).
  destruct (keyChar_not_lineFeed _ Hk) as [K1 K2].
  destruct (plain_not_lineFeed _ Hlt) as [V1 V2].
  unfold pairLine. split; [|split].
  - rewrite !not_elem_of_app. split; [done|]. split; [|done].
    intros H. by repeat (apply elem_of_cons in H as [H|H]; [done|]);
      apply elem_of_nil in H.
  - rewrite !not_elem_of_app. split; [done|]. split; [|done].
    intros H. by repeat (apply elem_of_cons in H as [H|H]; [done|]);
      apply elem_of_nil in H.
  - intros t. rewrite <- app_assoc.
    change (js ": " ++ kv.2) with (colon :: (32%N :: kv.2)). cbn [app].
    generalize ((32%N :: kv.2) ++ lineFeed :: t). intros u.
    destruct kv.1 as [|a [|b [|c k]]]; try done.
    all: cbn in Hd |- *.
    all: repeat match goal with
           | |- context [(45 =? ?x)%N] => destruct (45 =? x)%N
           end; try done.
Qed.

Lemma indexOf_skip (k : N) (key pre t : jsstring) :
  k ∉ pre →
  indexOf (k :: key) (pre ++ t) = (λ i, length pre + i) <$> indexOf (k :: key) t.
Proof.
  intros Hpre. induction pre as [|x pre IH]; cbn [app length].
  - by destruct (indexOf (k :: key) t).
  - apply not_elem_of_cons in Hpre as [Hx Hpre].
    cbn [indexOf startsWith]. rewrite (proj2 (N.eqb_neq k x)) by done.
    cbn [andb]. rewrite (IH Hpre). by destruct (indexOf (k :: key) t).
Qed.

Lemma indexOf_endMarker_step (s : jsstring) :
  startsWith (js "---") s = false →
  indexOf endMarker (lineFeed :: s) = S <$> indexOf endMarker s.
Proof.
  intros H. unfold endMarker. cbn [indexOf startsWith].
  rewrite N.eqb_refl. cbn [andb]. by rewrite H.
Qed.

Lemma indexOf_endMarker (lines : list jsstring) (rest : jsstring) :
  lines ≠ [] →
  Forall (λ l, (lineFeed ∉ l) ∧
               ∀ t, startsWith (js "---") (l ++ lineFeed :: t) = false) lines →
  indexOf endMarker (lineFeed :: join [lineFeed] lines ++ endMarker ++ rest)
  = Some (S (length (join [lineFeed] lines))).
Proof.
  intros Hne Hl. induction Hl as [|l ls [Hnl Hst] Hls IH]; [done|]. clear Hne.
  destruct ls as [|l2 ls].
  - cbn [join].
    rewrite indexOf_endMarker_step by exact (Hst (js "---" ++ rest)).
    unfold endMarker. by rewrite indexOf_app.
  - rewrite join_cons2, <- !app_assoc.
    rewrite indexOf_endMarker_step
      by exact (Hst (join [lineFeed] (l2 :: ls) ++ endMarker ++ rest)).
    unfold endMarker at 1. rewrite indexOf_skip by done. fold endMarker.
    change ([lineFeed] ++ join [lineFeed] (l2 :: ls) ++ endMarker ++ rest)
      with (lineFeed :: join [lineFeed] (l2 :: ls) ++ endMarker ++ rest).
    rewrite IH by done. cbn [fmap option_fmap option_map].
    f_equal. rewrite !length_app. cbn [length]. lia.
Qed.

Lemma splitOn_plain (sep : N) (p : jsstring) : sep ∉ p → splitOn sep p = [p].
Proof.
  induction p as [|c p IH]; [done|]. intros Hc.
  apply not_elem_of_cons in Hc as [Hc Hp]. cbn [splitOn].
  rewrite (proj2 (N.eqb_neq c sep)) by done. by rewrite IH.
Qed.

Lemma splitOn_join (sep : N) (l : jsstring) (ls : list jsstring) :
  Forall (λ p, sep ∉ p) (l :: ls) → splitOn sep (join [sep] (l :: ls)) = l :: ls.
Proof.
  revert l. induction ls as [|l2 ls IH]; intros l Hl;
    apply Forall_cons in Hl as [Hl Hls].
  - by apply splitOn_plain.
  - rewrite join_cons2. cbn [app]. rewrite splitOn_app_sep by done.
    by rewrite IH.
Qed.

Lemma normalizeNewlines_plain (s : jsstring) :
  carriageReturn ∉ s → normalizeNewlines s = s.
Proof.
  intros H. unfold normalizeNewlines. rewrite replacePair_absent by done.
  induction s as [|c s IH]; [done|].
  apply not_elem_of_cons in H as [Hc Hs]. cbn [map].
  rewrite (proj2 (N.eqb_neq c carriageReturn)) by done. by rewrite IH.
Qed.

Lemma normalizeNewlines_no_return (s : jsstring) :
  carriageReturn ∉ normalizeNewlines s.
Proof.
  unfold normalizeNewlines. generalize (replacePair carriageReturn lineFeed [lineFeed] s).
  intros l. induction l as [|c l IH]; [apply not_elem_of_nil|].
  cbn [map]. apply not_elem_of_cons. split; [|done].
  destruct (c =? carriageReturn)%N eqn:E; [done|]. by apply N.eqb_neq in E.
Qed.

Lemma replacePair_app_absent (a b : N) (new pre s : list N) :
  a ∉ pre → replacePair a b new (pre ++ s) = pre ++ replacePair a b new s.
Proof.
  induction pre as [|x pre IH]; [done|]. intros H.
  apply not_elem_of_cons in H as [Hx Hpre]. cbn [app].
  rewrite replacePair_cons_ne by done. by rewrite IH.
Qed.

Lemma normalizeNewlines_app (pre s : jsstring) :
  carriageReturn ∉ pre →
  normalizeNewlines (pre ++ s) = pre ++ normalizeNewlines s.
Proof.
  intros H. unfold normalizeNewlines.
  rewrite replacePair_app_absent, map_app by done. f_equal.
  pose proof (normalizeNewlines_plain pre H) as Hp. unfold normalizeNewlines in Hp.
  by rewrite replacePair_absent in Hp.
Qed.

(** The front matter of a document whose line ends are line feeds. *)
Lemma parse_frontmatterDocument (kvs : list (jsstring * jsstring))
    (rest : jsstring) :
  Forall plainPair kvs →
  (let normalized := frontmatterDocument kvs rest in
   if negb (startsWith (js "---") normalized) then ∅
   else
     match indexOfFrom endMarker 3 normalized with
     | None => ∅
     | Some endIndex =>
         foldl frontmatterLine ∅
           (splitOn lineFeed (take (endIndex - 4) (drop 4 normalized)))
     end)
  = foldl (λ fm kv, if keptPair kv then <[kv.1 := stripQuotes kv.2]> fm else fm)
      ∅ kvs.
Proof.
  intros Hkvs. cbv zeta. unfold frontmatterDocument.
  rewrite startsWith_app. cbn [negb]. unfold indexOfFrom.
  set (lines := map pairLine kvs).
  change (drop 3 (js "---" ++ [lineFeed] ++ join [lineFeed] lines ++ endMarker ++ rest))
    with (lineFeed :: join [lineFeed] lines ++ endMarker ++ rest).
  change (drop 4 (js "---" ++ [lineFeed] ++ join [lineFeed] lines ++ endMarker ++ rest))
    with (join [lineFeed] lines ++ endMarker ++ rest).
  destruct kvs as [|kv kvs].
  - reflexivity.
  - assert (Forall (λ l, (lineFeed ∉ l) ∧
              ∀ t, startsWith (js "---") (l ++ lineFeed :: t) = false) lines)
      as Hlines.
    { unfold lines. apply Forall_fmap. eapply Forall_impl; [exact Hkvs|].
      intros p Hp. destruct (pairLine_plain p Hp) as (? & _ & ?). by split. }
    rewrite indexOf_endMarker; [|done|done].
    cbn [fmap option_fmap option_map].
    replace (3 + S (length (join [lineFeed] lines)) - 4)
      with (length (join [lineFeed] lines)) by lia.
    rewrite take_app_length. unfold lines at 1. cbn [map].
    rewrite splitOn_join.
    2:{ eapply Forall_impl; [exact Hlines|]. by intros ? [? _]. }
    by apply (foldl_frontmatterLine (kv :: kvs)).
Qed.

(** X28. The front matter of a hook file is read back. Take a document
    that starts with a line of three dashes, then holds one line
    [key: value] for each pair of a list, then a line that starts with three
    dashes, then any text. Provided each key is not empty, is made of word
    characters and dashes and does not start with three dashes, and each
    value has no white space at its ends and holds no line terminator,
    [parseFrontmatter] gives, for each pair in turn, the key with the value
    stripped of its quotes, a later line for a key replacing an earlier
    one; a pair whose value is empty once stripped, or whose key is
    [__proto__], sets nothing. And every document gives what the document
    with its line ends normalised gives. *)
Theorem X28_front_matter_round_trip (kvs : list (jsstring * jsstring))
    (rest : jsstring) :
  Forall plainPair kvs →
  parseFrontmatter (frontmatterDocument kvs rest)
  = foldl (λ fm kv, if keptPair kv then <[kv.1 := stripQuotes kv.2]> fm else fm)
      ∅ kvs ∧
  ∀ content, parseFrontmatter (normalizeNewlines content) = parseFrontmatter content.
Proof.
  intros Hkvs. split.
  - assert (normalizeNewlines (frontmatterDocument kvs rest)
            = frontmatterDocument kvs (normalizeNewlines rest)) as Hnorm.
    { unfold frontmatterDocument.
      assert (carriageReturn ∉ js "---" ++ [lineFeed]
                ++ join [lineFeed] (map pairLine kvs) ++ endMarker) as Hhead.
      { assert (carriageReturn ∉ join [lineFeed] (map pairLine kvs)) as Hbody.
        { clear -Hkvs. induction Hkvs as [|kv kvs Hkv _ IH];
            [apply not_elem_of_nil|].
          destruct (pairLine_plain kv Hkv) as (_ & Hl & _). cbn [map].
          destruct kvs as [|kv2 kvs]; [done|]. cbn [map] in IH |- *.
          rewrite join_cons2. rewrite !not_elem_of_app. split; [done|].
          split; [|done]. intros H. apply list_elem_of_singleton in H. done. }
        rewrite !not_elem_of_app. split; [|split; [|split; [done|]]].
        - intros H. by repeat (apply elem_of_cons in H as [H|H]; [done|]);
            apply elem_of_nil in H.
        - intros H. apply list_elem_of_singleton in H. done.
        - intros H. by repeat (apply elem_of_cons in H as [H|H]; [done|]);
            apply elem_of_nil in H. }
      transitivity (normalizeNewlines
                      ((js "---" ++ [lineFeed]
                          ++ join [lineFeed] (map pairLine kvs) ++ endMarker)
                         ++ rest)); [by rewrite <- !app_assoc|].
      rewrite normalizeNewlines_app by done. by rewrite <- !app_assoc. }
    unfold parseFrontmatter. rewrite Hnorm.
    apply (parse_frontmatterDocument kvs (normalizeNewlines rest) Hkvs).
  - intros content. unfold parseFrontmatter. cbv zeta.
    by rewrite (normalizeNewlines_plain (normalizeNewlines content))
      by apply normalizeNewlines_no_return.
Qed.

Lemma X28_front_matter_round_trip_witness :
  parseFrontmatter
    (frontmatterDocument
       [(js "name", js "session-memory"); (js "homepage", []);
        (js "description", js "'Saves context'")]
       (lineFeed :: js "# Session memory" ++ [carriageReturn; lineFeed]))
  = {[ js "name" := js "session-memory"; js "description" := js "Saves context" ]}.
Proof.
  pose proof (X28_front_matter_round_trip
    [(js "name", js "session-memory"); (js "homepage", []);
     (js "description", js "'Saves context'")]
    (lineFeed :: js "# Session memory" ++ [carriageReturn; lineFeed])) as H.
  destruct H as [H _].
  - repeat constructor; try done; vm_compute; congruence.
  - rewrite H. cbn [foldl fst snd]. vm_compute keptPair. cbv iota.
    vm_compute stripQuotes. apply insert_insert_ne. by vm_compute.
Defined.

(** ** Bridge discovery: values of TXT records *)

Lemma txtValueStrings_none (ws : N → bool) (prefix : list N)
    (strings : list (list N)) :
  Forall (λ s, startsWith prefix (trimBy ws s) = false) strings →
  txtValueStrings ws prefix strings = None.
Proof.
  induction 1 as [|s l Hs _ IH]; [done|]. cbn [txtValueStrings]. cbv zeta.
  by rewrite Hs.
Qed.

Lemma txtValueStrings_app (ws : N → bool) (prefix : list N)
    (l1 l2 : list (list N)) :
  Forall (λ s, startsWith prefix (trimBy ws s) = false) l1 →
  txtValueStrings ws prefix (l1 ++ l2) = txtValueStrings ws prefix l2.
Proof.
  induction 1 as [|s l Hs _ IH]; [done|]. cbn [app txtValueStrings]. cbv zeta.
  by rewrite Hs.
Qed.

Lemma txtValueRecords_app (ws : N → bool) (prefix : list N)
    (r1 r2 : list (list (list N))) :
  Forall (Forall (λ s, startsWith prefix (trimBy ws s) = false)) r1 →
  txtValueRecords ws prefix (r1 ++ r2) = txtValueRecords ws prefix r2.
Proof.
  induction 1 as [|r l Hr _ IH]; [done|]. cbn [app txtValueRecords].
  by rewrite txtValueStrings_none.
Qed.

Lemma txtValueStrings_clean (ws : N → bool) (prefix : list N)
    (strings : list (list N)) (v : list N) :
  txtValueStrings ws prefix strings = Some (Some v) → cleanUrl ws v.
Proof.
  induction strings as [|s l IH]; [done|]. cbn [txtValueStrings]. cbv zeta.
  destruct (startsWith prefix (trimBy ws s)); [|exact IH].
  unfold ifEmptyNull.
  destruct (trimBy ws (removePrefix prefix (trimBy ws s))) as [|c t] eqn:E; [done|].
  intros [= <-]. rewrite <- E. apply trimBy_clean. by rewrite E.
Qed.

(** X29. The value [txtValue] returns for a key is never empty and has no
    white space at either end. The first string, in the order of the
    records and of the strings within a record, that starts with the key and
    an equals sign once trimmed decides alone: the result is what follows
    the equals sign, trimmed, and it is [null] when that is empty, whatever
    later strings and records hold for the same key. *)
Theorem X29_first_txt_entry_decides (ws : N → bool) (key : list N)
    (earlier later : list (list (list N))) (before after : list (list N))
    (s : list N) :
  Forall (Forall (λ s, startsWith (key ++ js "=") (trimBy ws s) = false)) earlier →
  Forall (λ s, startsWith (key ++ js "=") (trimBy ws s) = false) before →
  startsWith (key ++ js "=") (trimBy ws s) = true →
  txtValue ws (earlier ++ (before ++ s :: after) :: later) key
  = ifEmptyNull (trimBy ws (drop (length (key ++ js "=")) (trimBy ws s))) ∧
  ∀ records v, txtValue ws records key = Some v → cleanUrl ws v.
Proof.
  intros Hearlier Hbefore Hs. split.
  - unfold txtValue. rewrite txtValueRecords_app by done.
    cbn [txtValueRecords]. rewrite txtValueStrings_app by done.
    cbn [txtValueStrings]. cbv zeta. rewrite Hs. unfold removePrefix.
    by rewrite Hs.
  - intros records v. unfold txtValue.
    induction records as [|r l IH]; [done|]. cbn [txtValueRecords].
    destruct (txtValueStrings ws (key ++ js "=") r) as [[w|]|] eqn:E; try done.
    intros [= ->]. by apply (txtValueStrings_clean ws (key ++ js "=") r).
Qed.

Lemma X29_first_txt_entry_decides_witness :
  txtValue isWhiteSpace
    [[js "lanHost=studio.local"];
     [js "gatewayPort=18789"; js " displayName= "];
     [js "displayName=Studio"]]
    (js "displayName")
  = None.
Proof.
  apply (X29_first_txt_entry_decides isWhiteSpace (js "displayName")
           [[js "lanHost=studio.local"]] [[js "displayName=Studio"]]
           [js "gatewayPort=18789"] [] (js " displayName= "));
    repeat constructor.
Defined.
